(** * Detection metrics of tf2_YOLO: [utils/measurement.py]

    A shallow embedding of [create_score_mat] and of the class [PR_func]
    (constructor, [__call__], the smoothing pass and [get_map]), together
    with the properties of the matching, ranking and integration steps.

    Conventions of the embedding.
    - [decode], [nms] and [soft_nms] live in [utils/tools.py]; an image is
      therefore given by the two box lists that reach the class loop
      (ground truths after decoding, predictions after decoding and
      suppression).  An empty box list gives every class an empty
      partition.  [cal_iou] is a parameter of the development.
    - Counts are integers, as in the source.  Numbers produced by a
      division are exact rationals ([Q]); the rounding of binary floating
      point is not modelled.  Where the source divides numpy arrays
      ([np.true_divide]) a zero divisor yields nan or an infinity, which the
      type [npfloat] keeps; where it divides two Python integers a zero
      divisor raises [ZeroDivisionError].
    - Python exceptions are values of [pyerr]; code that may raise returns
      a [result]. *)

From Stdlib Require Import ZArith QArith Qminmax Lia Lqa String Sorted.
From stdpp Require Import base list.

Close Scope Q_scope.
Local Open Scope nat_scope.

(** ** Python exceptions *)

Inductive pyerr : Type :=
| IndexError
| ZeroDivisionError
| UnboundLocalError
| ValueError.

Definition result (A : Type) : Type := (pyerr + A)%type.

Definition raise {A : Type} (e : pyerr) : result A := inl e.
Definition ret {A : Type} (a : A) : result A := inr a.

Definition bind {A B : Type} (m : result A) (k : A -> result B) : result B :=
  match m with
  | inl e => inl e
  | inr a => k a
  end.

Notation "x <- m ; k" := (bind m (fun x => k))
  (at level 20, m at level 100, k at level 200, only parsing).

(** ** Comparisons and extrema on rationals *)

(** [x < y] and [x >= y] as the boolean tests of the source. *)
Definition Qltb (x y : Q) : bool := negb (Qle_bool y x).
Definition Qgeb (x y : Q) : bool := Qle_bool y x.

(** [np.max] of a list: the running maximum, 0 on the empty list (every use
    in the class loops is guarded by a length test). *)
Definition max_step (m y : Q) : Q := if Qltb m y then y else m.

Definition np_max (l : list Q) : Q :=
  match l with
  | [] => 0%Q
  | x :: l' => fold_left max_step l' x
  end.

(** [np.argmax]: index of the first occurrence of the maximum. *)
Fixpoint argmax_from (best : Q) (bi i : nat) (l : list Q) : nat :=
  match l with
  | [] => bi
  | x :: l' =>
      if Qltb best x then argmax_from x i (S i) l'
      else argmax_from best bi (S i) l'
  end.

Definition argmax (l : list Q) : nat :=
  match l with
  | [] => 0
  | x :: l' => argmax_from x 0 1 l'
  end.

(** [l[k:]] with Python's treatment of negative and overlong bounds. *)
Definition py_slice_from {A : Type} (k : Z) (l : list A) : list A :=
  let n := Z.of_nat (length l) in
  let start := if (k <? 0)%Z then Z.max (n + k) 0 else Z.min k n in
  drop (Z.to_nat start) l.

(** [l[i]] on a Python list, negative indices counting from the end. *)
Definition py_index {A : Type} (l : list A) (i : Z) : result A :=
  let n := Z.of_nat (length l) in
  let j := if (i <? 0)%Z then (n + i)%Z else i in
  if (j <? 0)%Z then raise IndexError
  else match l !! Z.to_nat j with
       | Some a => ret a
       | None => raise IndexError
       end.

(** ** Boxes and images *)

(** One decoded row: x, y, w, h, confidence and the class probabilities. *)
Record xywhcp : Type := mk_box {
  box_x : Q;
  box_y : Q;
  box_w : Q;
  box_h : Q;
  box_c : Q;
  box_p : list Q
}.

(** [p.argmax(axis=-1)]; a box carries one probability per class, and there
    is at least one class. *)
Definition class_of (b : xywhcp) : nat := argmax (box_p b).

(** What the class loop of one image receives. *)
Record image : Type := mk_image {
  xywhcp_true : list xywhcp;
  xywhcp_pred : list xywhcp
}.

(** [xywhc[class == class_i]] *)
Definition of_class (class_i : nat) (l : list xywhcp) : list xywhcp :=
  List.filter (fun b => Nat.eqb (class_of b) class_i) l.

(** One row of a detection array: confidence, id of the matched ground
    truth, and whether the overlap passes the threshold. *)
Record det : Type := mk_det {
  det_conf : Q;
  det_id : nat;
  det_mask : bool
}.

(** [detection[np.argsort(detection[:, 0])]]: rows by increasing confidence.
    Equal confidences keep their order here; numpy's default sort leaves
    their order unspecified. *)
Fixpoint insert_by_conf (d : det) (l : list det) : list det :=
  match l with
  | [] => [d]
  | e :: l' =>
      if Qle_bool (det_conf d) (det_conf e) then d :: l
      else e :: insert_by_conf d l'
  end.

Definition argsort_conf (l : list det) : list det :=
  fold_right insert_by_conf [] l.

(** [detection[np.argsort(detection[:, 0])[::-1]]] *)
Definition sort_desc (l : list det) : list det := rev (argsort_conf l).

(** ** Array division *)

Inductive npfloat : Type :=
| Finite (q : Q)
| NaN
| PosInf
| NegInf.

(** [np.true_divide] on two count entries. *)
Definition true_divide (a b : Z) : npfloat :=
  if (b =? 0)%Z then
    if (a =? 0)%Z then NaN
    else if (0 <? a)%Z then PosInf else NegInf
  else Finite (inject_Z a / inject_Z b)%Q.

Definition is_nan (v : npfloat) : bool :=
  match v with NaN => true | _ => false end.

(** [v <= w] on array entries: false as soon as one side is nan. *)
Definition np_leb (v w : npfloat) : bool :=
  match v, w with
  | NaN, _ | _, NaN => false
  | NegInf, _ => true
  | _, PosInf => true
  | Finite p, Finite q => Qle_bool p q
  | _, _ => false
  end.

(** Arithmetic on array entries, as far as the F1 column needs it (signed
    zeros are not distinguished). *)
Definition np_sign_inf (pos : bool) : npfloat := if pos then PosInf else NegInf.

Definition np_mul (v w : npfloat) : npfloat :=
  match v, w with
  | NaN, _ | _, NaN => NaN
  | Finite p, Finite q => Finite (p * q)%Q
  | Finite p, PosInf | PosInf, Finite p =>
      if Qeq_bool p 0 then NaN else np_sign_inf (Qltb 0 p)
  | Finite p, NegInf | NegInf, Finite p =>
      if Qeq_bool p 0 then NaN else np_sign_inf (Qltb p 0)
  | PosInf, PosInf | NegInf, NegInf => PosInf
  | PosInf, NegInf | NegInf, PosInf => NegInf
  end.

Definition np_add (v w : npfloat) : npfloat :=
  match v, w with
  | NaN, _ | _, NaN => NaN
  | Finite p, Finite q => Finite (p + q)%Q
  | PosInf, NegInf | NegInf, PosInf => NaN
  | PosInf, _ | _, PosInf => PosInf
  | NegInf, _ | _, NegInf => NegInf
  end.

Definition np_div (v w : npfloat) : npfloat :=
  match v, w with
  | NaN, _ | _, NaN => NaN
  | Finite p, Finite q =>
      if Qeq_bool q 0 then
        if Qeq_bool p 0 then NaN else np_sign_inf (Qltb 0 p)
      else Finite (p / q)%Q
  | Finite _, _ => Finite 0%Q
  | PosInf, Finite q => np_sign_inf (Qle_bool 0 q)
  | NegInf, Finite q => np_sign_inf (Qltb q 0)
  | _, _ => NaN
  end.

(** ** Matching one class of one image *)

Section Matching.

(** [cal_iou] of [utils/tools.py]: the overlap of a ground truth and a
    prediction. *)
Variable cal_iou : xywhcp -> xywhcp -> Q.

(** [np.max(iou_scores, axis=1)]: for each ground truth, its best overlap
    with a prediction. *)
Definition best_ious_true (trues preds : list xywhcp) : list Q :=
  map (fun t => np_max (map (fun p => cal_iou t p) preds)) trues.

(** [np.max(iou_scores, axis=0)]: for each prediction, its best overlap with
    a ground truth. *)
Definition best_ious_pred (trues preds : list xywhcp) : list Q :=
  map (fun p => np_max (map (fun t => cal_iou t p) trues)) preds.

(** [np.argmax(iou_scores, axis=0)] *)
Definition argmax_true (trues preds : list xywhcp) : list nat :=
  map (fun p => argmax (map (fun t => cal_iou t p) trues)) preds.

(** [sum(best >= iou_threshold)] *)
Definition count_ge (iou_threshold : Q) (best : list Q) : nat :=
  length (List.filter (fun v => Qgeb v iou_threshold) best).

(** ** [create_score_mat] *)

(** The three accumulators: [denom_array] (columns PP and P), [TP_array]
    (columns TPP and TP) and [det_counts]. *)
Record score_acc : Type := mk_score_acc {
  denom_array : list (Z * Z);
  TP_array : list (Z * Z);
  det_counts : list Z
}.

Definition score_init (class_num : nat) : score_acc :=
  mk_score_acc (replicate class_num (0, 0)%Z)
               (replicate class_num (0, 0)%Z)
               (replicate class_num 0%Z).

(** Body of [for class_i in range(class_num)] (source lines 103-129). *)
Definition score_class_step (iou_threshold : Q) (precision_mode : Z)
    (img : image) (acc : score_acc) (class_i : nat) : score_acc :=
  let xywhc_true_class := of_class class_i (xywhcp_true img) in
  let xywhc_pred_class := of_class class_i (xywhcp_pred img) in
  let num_PP := Z.of_nat (length xywhc_pred_class) in
  let num_P := Z.of_nat (length xywhc_true_class) in
  let denom :=
    alter (fun d => (d.1 + num_PP, d.2 + num_P)%Z) class_i (denom_array acc) in
  let dets := alter (fun n => (n + num_PP)%Z) class_i (det_counts acc) in
  if (0 <? length xywhc_true_class) && (0 <? length xywhc_pred_class) then
    let num_TPP := Z.of_nat (count_ge iou_threshold
                      (best_ious_pred xywhc_true_class xywhc_pred_class)) in
    let num_TP := Z.of_nat (count_ge iou_threshold
                      (best_ious_true xywhc_true_class xywhc_pred_class)) in
    if (precision_mode =? 1)%Z then
      mk_score_acc
        (alter (fun d => (d.1 - (num_TPP - num_TP), d.2)%Z) class_i denom)
        (alter (fun t => (t.1 + num_TP, t.2 + num_TP)%Z) class_i (TP_array acc))
        dets
    else
      mk_score_acc
        denom
        (alter (fun t => (t.1 + num_TPP, t.2 + num_TP)%Z) class_i (TP_array acc))
        dets
  else mk_score_acc denom (TP_array acc) dets.

(** Body of [for i in range(len(y_trues))]. *)
Definition score_img_step (class_num : nat) (iou_threshold : Q)
    (precision_mode : Z) (acc : score_acc) (img : image) : score_acc :=
  fold_left (score_class_step iou_threshold precision_mode img)
            (seq 0 class_num) acc.

Definition score_sweep (class_num : nat) (iou_threshold : Q)
    (precision_mode : Z) (imgs : list image) : score_acc :=
  fold_left (score_img_step class_num iou_threshold precision_mode)
            imgs (score_init class_num).

(** One row of the returned table. *)
Record score_row : Type := mk_score_row {
  col_precision : npfloat;
  col_recall : npfloat;
  col_F1_score : npfloat;
  col_gts : Z;
  col_dets : Z
}.

Definition make_row (tp denom : Z * Z) (det : Z) : score_row :=
  let precision := true_divide tp.1 denom.1 in
  let recall := true_divide tp.2 denom.2 in
  mk_score_row precision recall
    (np_div (np_mul (np_mul (Finite 2) precision) recall)
            (np_add precision recall))
    denom.2 det.

Fixpoint zip_rows (tps denoms : list (Z * Z)) (dets : list Z) : list score_row :=
  match tps, denoms, dets with
  | tp :: tps', denom :: denoms', det :: dets' =>
      make_row tp denom det :: zip_rows tps' denoms' dets'
  | _, _, _ => []
  end.

(** The table: one row per class, indexed by [class_names]. *)
Definition create_score_mat (class_names : list string) (iou_threshold : Q)
    (precision_mode : Z) (imgs : list image) : list (string * score_row) :=
  let acc := score_sweep (length class_names) iou_threshold precision_mode imgs in
  zip class_names
      (zip_rows (TP_array acc) (denom_array acc) (det_counts acc)).

(** ** [PR_func.__init__]: the sweep over the data set *)

(** [detection = np.stack((conf_pred, box_id_pred, iou_mask), axis=1)] *)
Fixpoint stack3 (confs : list Q) (ids : list nat) (masks : list bool)
    : list det :=
  match confs, ids, masks with
  | c :: confs', i :: ids', m :: masks' =>
      mk_det c i m :: stack3 confs' ids' masks'
  | _, _, _ => []
  end.

(** The rows one image contributes to one class (source lines 247-263);
    [num_gts] is the running ground-truth count of the class. *)
Definition image_detection (iou_threshold : Q) (max_per_img : option Z)
    (num_gts : nat) (xywhc_true_class xywhc_pred_class : list xywhcp)
    : list det :=
  let best := best_ious_pred xywhc_true_class xywhc_pred_class in
  let iou_mask := map (fun v => Qgeb v iou_threshold) best in
  let box_id_pred :=
    map (fun k => k + num_gts) (argmax_true xywhc_true_class xywhc_pred_class) in
  let conf_pred := map box_c xywhc_pred_class in
  let detection := stack3 conf_pred box_id_pred iou_mask in
  match max_per_img with
  | Some m =>
      if (m <? Z.of_nat (length detection))%Z
      then py_slice_from (- m) (sort_desc detection)
      else detection
  | None => detection
  end.

(** The two accumulators of the constructor. *)
Record pr_acc : Type := mk_pr_acc {
  gts : list nat;
  detections : list (list det)
}.

Definition pr_init (class_num : nat) : pr_acc :=
  mk_pr_acc (replicate class_num 0) (replicate class_num []).

(** Body of [for class_i in range(class_num)] (source lines 233-266).
    [class_i] is below the length of both accumulators. *)
Definition pr_class_step (iou_threshold : Q) (max_per_img : option Z)
    (img : image) (acc : pr_acc) (class_i : nat) : pr_acc :=
  let xywhc_true_class := of_class class_i (xywhcp_true img) in
  let xywhc_pred_class := of_class class_i (xywhcp_pred img) in
  let num_gts := default 0 (gts acc !! class_i) in
  let num_P := length xywhc_true_class in
  let gts' := <[class_i := num_gts + num_P]> (gts acc) in
  if (0 <? num_P) && (0 <? length xywhc_pred_class) then
    let detection :=
      image_detection iou_threshold max_per_img num_gts
                      xywhc_true_class xywhc_pred_class in
    mk_pr_acc gts' (alter (fun ds => ds ++ detection) class_i (detections acc))
  else mk_pr_acc gts' (detections acc).

Definition pr_img_step (class_num : nat) (iou_threshold : Q)
    (max_per_img : option Z) (acc : pr_acc) (img : image) : pr_acc :=
  fold_left (pr_class_step iou_threshold max_per_img img)
            (seq 0 class_num) acc.

Definition pr_sweep (class_num : nat) (iou_threshold : Q)
    (max_per_img : option Z) (imgs : list image) : pr_acc :=
  fold_left (pr_img_step class_num iou_threshold max_per_img)
            imgs (pr_init class_num).

(** ** [PR_func.__init__]: the precision-recall sequences *)

(** A [for] loop over the indices [idxs] whose body may raise. *)
Fixpoint for_each {S : Type} (idxs : list nat) (body : S -> nat -> result S)
    (st : S) : result S :=
  match idxs with
  | [] => ret st
  | i :: rest => st' <- body st i; for_each rest body st'
  end.

(** [a/b] on two Python integers. *)
Definition py_div (a b : Z) : result Q :=
  if (b =? 0)%Z then raise ZeroDivisionError
  else ret (inject_Z a / inject_Z b)%Q.

(** [len(set(det[:, 1][obj_mask]))] *)
Definition count_TP (det : list det) : Z :=
  Z.of_nat (length (remove_dups (map det_id (List.filter det_mask det)))).

(** [obj_mask.sum()] *)
Definition count_TPP (det : list det) : Z :=
  Z.of_nat (length (List.filter det_mask det)).

(** The local variables the inner loop leaves behind: the two sequences of
    the class and [num_TP], which is unbound ([None]) until a first
    iteration assigns it and is not reset between classes. *)
Record curve_state : Type := mk_curve_state {
  cs_precisions : list Q;
  cs_recalls : list Q;
  cs_num_TP : option Z
}.

(** Body of [for det_i in range(len(detection))] (source lines 277-286).
    [num_TP + num_FP] is a numpy integer; it is positive in every iteration
    (lemma [curve_body_divisor_pos]), so its division never sees zero. *)
Definition curve_body (num_gts : Z) (detection : list det)
    (st : curve_state) (det_i : nat) : result curve_state :=
  let det := take (det_i + 1) detection in
  let num_TP := count_TP det in
  let num_dets := Z.of_nat (length det) in
  let num_TPP := count_TPP det in
  let num_FP := (num_dets - num_TPP)%Z in
  let pc := (inject_Z num_TP / inject_Z (num_TP + num_FP))%Q in
  rc <- py_div num_TP num_gts;
  ret (mk_curve_state (cs_precisions st ++ [pc]) (cs_recalls st ++ [rc])
                      (Some num_TP)).

(** One iteration of [for class_i in range(class_num)] (source lines
    272-288), given the value of [num_TP] on entry. *)
Definition class_curve (num_TP : option Z) (num_gts : nat)
    (detection : list det) : result curve_state :=
  let detection := sort_desc detection in
  st <- for_each (seq 0 (length detection))
                 (curve_body (Z.of_nat num_gts) detection)
                 (mk_curve_state [] [] num_TP);
  match cs_num_TP st with
  | None => raise UnboundLocalError
  | Some n =>
      rc <- py_div n (Z.of_nat num_gts);
      ret (mk_curve_state (cs_precisions st ++ [0%Q]) (cs_recalls st ++ [rc])
                          (Some n))
  end.

(** State of the loop over the classes: the two lists of sequences and the
    current binding of [num_TP]. *)
Record curves : Type := mk_curves {
  all_precisions : list (list Q);
  all_recalls : list (list Q);
  live_num_TP : option Z
}.

Definition curves_body (acc : pr_acc) (st : curves) (class_i : nat)
    : result curves :=
  let num_gts := default 0 (gts acc !! class_i) in
  let detection := default [] (detections acc !! class_i) in
  c <- class_curve (live_num_TP st) num_gts detection;
  ret (mk_curves (<[class_i := cs_precisions c]> (all_precisions st))
                 (<[class_i := cs_recalls c]> (all_recalls st))
                 (cs_num_TP c)).

Record PR_func : Type := mk_PR_func {
  class_num : nat;
  class_names : list string;
  precisions : list (list Q);
  recalls : list (list Q)
}.

Definition PR_func_init (names : list string) (iou_threshold : Q)
    (max_per_img : option Z) (imgs : list image) : result PR_func :=
  let n := length names in
  let acc := pr_sweep n iou_threshold max_per_img imgs in
  st <- for_each (seq 0 n) (curves_body acc)
                 (mk_curves (replicate n []) (replicate n []) None);
  ret (mk_PR_func n names (all_precisions st) (all_recalls st)).

End Matching.

(** ** [PR_func.__call__] *)

Definition PR_call (self : PR_func) (recall : Q) (class_idx : Z) : result Q :=
  if (Z.of_nat (class_num self) <=? class_idx)%Z then raise IndexError
  else
    ps <- py_index (precisions self) class_idx;
    rs <- py_index (recalls self) class_idx;
    let pc_idx := length (List.filter (fun x => Qltb recall x) rs) in
    if pc_idx =? 0 then ret 0%Q
    else match py_slice_from (- Z.of_nat pc_idx) ps with
         | [] => raise ValueError
         | x :: l => ret (np_max (x :: l))
         end.

(** ** Smoothing (source lines 325-330 and 364-369) *)

Definition smooth_body (st : list Q * Q) (i : nat) : list Q * Q :=
  let '(ps, max_pc) := st in
  match ps !! i with
  | Some p => if Qltb max_pc p then (ps, p) else (<[i := max_pc]> ps, max_pc)
  | None => st
  end.

(** [for i in range(len(precisions)-1, -1, -1)] *)
Definition smooth (ps : list Q) : list Q :=
  fst (fold_left smooth_body (rev (seq 0 (length ps))) (ps, 0%Q)).

(** ** [PR_func.get_map] *)

Inductive map_mode : Type := voc2007 | voc2012 | area | smootharea.

(** [a[i]] on a numpy array with an index that is not negative. *)
Definition np_get (a : list Q) (i : nat) : result Q :=
  match a !! i with
  | Some v => ret v
  | None => raise IndexError
  end.

(** Body of [for pr_i in range(0, len(precisions)-1)]. *)
Definition area_body (ps rs : list Q) (ap : Q) (pr_i : nat) : result Q :=
  r1 <- np_get rs (pr_i + 1);
  r0 <- np_get rs pr_i;
  let delta := (r1 - r0)%Q in
  p1 <- np_get ps (pr_i + 1);
  p0 <- np_get ps pr_i;
  let value := ((p1 - p0) / 2 + p0)%Q in
  ret (ap + delta * value)%Q.

Definition area_class (ps rs : list Q) : result Q :=
  for_each (seq 0 (length ps - 1)) (area_body ps rs) 0%Q.

Definition recall_list (mode : map_mode) : list Q :=
  match mode with
  | voc2007 =>
      map (fun i => inject_Z (Z.of_nat i) / 10)%Q (seq 0 11)
  | _ => [0; 14 # 100; 29 # 100; 43 # 100; 57 # 100; 71 # 100; 1]%Q
  end.

(** The average precision of one class. *)
Definition class_ap (self : PR_func) (mode : map_mode) (class_i : nat)
    : result Q :=
  match mode with
  | area =>
      ps <- py_index (precisions self) (Z.of_nat class_i);
      rs <- py_index (recalls self) (Z.of_nat class_i);
      area_class ps rs
  | smootharea =>
      ps <- py_index (precisions self) (Z.of_nat class_i);
      rs <- py_index (recalls self) (Z.of_nat class_i);
      area_class (smooth ps) rs
  | _ =>
      total <- for_each (seq 0 (length (recall_list mode)))
                 (fun ap k =>
                    v <- PR_call self (nth k (recall_list mode) 0%Q)
                                 (Z.of_nat class_i);
                    ret (ap + v)%Q)
                 0%Q;
      ret (total / inject_Z (Z.of_nat (length (recall_list mode))))%Q
  end.

Definition sumQ (l : list Q) : Q := fold_left Qplus l 0%Q.

(** The table: one row per class, then the row [mAP]. *)
Definition get_map (self : PR_func) (mode : map_mode)
    : result (list (string * Q)) :=
  aps <- for_each (seq 0 (class_num self))
           (fun aps class_i => ap <- class_ap self mode class_i;
                               ret (<[class_i := ap]> aps))
           (replicate (class_num self) 0%Q);
  if length aps =? 0 then raise ZeroDivisionError
  else
    let mAP := (sumQ aps / inject_Z (Z.of_nat (length aps)))%Q in
    ret (zip (class_names self ++ ["mAP"%string]) (aps ++ [mAP])).

(** ** A concrete overlap function for the examples *)

(** Modelled from the spec: [cal_iou] of [utils/tools.py] is not among the
    sources.  Intersection over union of two boxes given by centre, width
    and height. *)
Definition iou_xywh (a b : xywhcp) : Q :=
  let x1 := Qmax (box_x a - box_w a / 2) (box_x b - box_w b / 2) in
  let x2 := Qmin (box_x a + box_w a / 2) (box_x b + box_w b / 2) in
  let y1 := Qmax (box_y a - box_h a / 2) (box_y b - box_h b / 2) in
  let y2 := Qmin (box_y a + box_h a / 2) (box_y b + box_h b / 2) in
  let inter := (Qmax 0 (x2 - x1) * Qmax 0 (y2 - y1))%Q in
  let union := (box_w a * box_h a + box_w b * box_h b - inter)%Q in
  Qred (inter / union)%Q.

(** ** Data of the examples *)

(** A box of the only class, with its confidence. *)
Definition box1 (x y w h c : Q) : xywhcp := mk_box x y w h c [1%Q].

(** One ground truth and two predictions that both overlap it. *)
Definition gt_a : xywhcp := box1 10 10 4 4 1.
Definition pred_hi : xywhcp := box1 10 10 4 4 (9 # 10).
Definition pred_lo : xywhcp := box1 10 11 4 4 (3 # 10).
Definition img_two_preds : image := mk_image [gt_a] [pred_hi; pred_lo].
Definition img_no_pred : image := mk_image [gt_a] [].

(** A ground truth of a second class, and an image with one ground truth
    of each class but a prediction of the first class only. *)
Definition gt_b : xywhcp := mk_box 30 30 4 4 1 [0; 1]%Q.
Definition img_two_classes : image := mk_image [gt_a; gt_b] [pred_hi].

(** Two ground truths side by side, one prediction that covers both (overlap
    2/3 with each) and one prediction far away. *)
Definition gt_left : xywhcp := box1 1 (1 # 2) 2 1 1.
Definition gt_right : xywhcp := box1 2 (1 # 2) 2 1 1.
Definition pred_wide : xywhcp := box1 (3 # 2) (1 # 2) 3 1 (9 # 10).
Definition pred_far : xywhcp := box1 50 50 1 1 (8 # 10).
Definition img_wide : image :=
  mk_image [gt_left; gt_right] [pred_wide; pred_far].

(** * Quantities used in the statements *)

Section Counts.

Variable cal_iou : xywhcp -> xywhcp -> Q.

(** The four counts of one class in one image: predictions (PP), ground
    truths (P), predictions whose best overlap passes (TPP) and ground
    truths whose best overlap passes (TP); the last two are only computed
    when the class has both ground truths and predictions. *)
Definition num_PP_of (c : nat) (img : image) : Z :=
  Z.of_nat (length (of_class c (xywhcp_pred img))).

Definition num_P_of (c : nat) (img : image) : Z :=
  Z.of_nat (length (of_class c (xywhcp_true img))).

Definition both_present (c : nat) (img : image) : bool :=
  (0 <? length (of_class c (xywhcp_true img)))
  && (0 <? length (of_class c (xywhcp_pred img))).

Definition num_TPP_of (thr : Q) (c : nat) (img : image) : Z :=
  if both_present c img then
    Z.of_nat (count_ge thr (best_ious_pred cal_iou
                (of_class c (xywhcp_true img)) (of_class c (xywhcp_pred img))))
  else 0%Z.

Definition num_TP_of (thr : Q) (c : nat) (img : image) : Z :=
  if both_present c img then
    Z.of_nat (count_ge thr (best_ious_true cal_iou
                (of_class c (xywhcp_true img)) (of_class c (xywhcp_pred img))))
  else 0%Z.

(** The rows image [img] adds to the accumulator of class [c] when the
    running ground-truth count of the class is [num_gts]. *)
Definition class_detection (iou_threshold : Q) (max_per_img : option Z)
    (c : nat) (num_gts : nat) (img : image) : list det :=
  if both_present c img then
    image_detection cal_iou iou_threshold max_per_img num_gts
      (of_class c (xywhcp_true img)) (of_class c (xywhcp_pred img))
  else [].

(** The rows of class [c], image by image, the count starting at
    [num_gts]. *)
Fixpoint contributions (iou_threshold : Q) (max_per_img : option Z)
    (c : nat) (num_gts : nat) (imgs : list image) : list (list det) :=
  match imgs with
  | [] => []
  | img :: rest =>
      class_detection iou_threshold max_per_img c num_gts img
      :: contributions iou_threshold max_per_img c
           (num_gts + length (of_class c (xywhcp_true img))) rest
  end.

Definition sumZ (f : image -> Z) (imgs : list image) : Z :=
  fold_right (fun img a => (f img + a)%Z) 0%Z imgs.

Variable thr : Q.
Variable mode : Z.

(** What one image adds to the slot of class [c]. *)
Definition denom_after (c : nat) (img : image) (d : Z * Z) : Z * Z :=
  ((d.1 + num_PP_of c img
    - (if (mode =? 1)%Z
       then num_TPP_of thr c img - num_TP_of thr c img
       else 0))%Z,
   (d.2 + num_P_of c img)%Z).

Definition TP_after (c : nat) (img : image) (t : Z * Z) : Z * Z :=
  ((t.1 + (if (mode =? 1)%Z then num_TP_of thr c img
           else num_TPP_of thr c img))%Z,
   (t.2 + num_TP_of thr c img)%Z).

(** The slot of a class after the sweep, as sums over the images. *)
Definition swept_denom (c : nat) (imgs : list image) : Z * Z :=
  ((sumZ (num_PP_of c) imgs
    - (if (mode =? 1)%Z
       then sumZ (num_TPP_of thr c) imgs
            - sumZ (num_TP_of thr c) imgs
       else 0))%Z,
   sumZ (num_P_of c) imgs).

Definition swept_TP (c : nat) (imgs : list image) : Z * Z :=
  (if (mode =? 1)%Z then sumZ (num_TP_of thr c) imgs
   else sumZ (num_TPP_of thr c) imgs,
   sumZ (num_TP_of thr c) imgs).

End Counts.

(** Precision and recall of the prefix that ends at rank [i] of the sorted
    rows [detection]. *)
Definition prec_at (detection : list det) (i : nat) : Q :=
  let det := take (i + 1) detection in
  (inject_Z (count_TP det)
   / inject_Z (count_TP det + (Z.of_nat (length det) - count_TPP det)))%Q.

Definition rec_at (num_gts : Z) (detection : list det) (i : nat) : Q :=
  (inject_Z (count_TP (take (i + 1) detection)) / inject_Z num_gts)%Q.

(** A sequence that never decreases with the index. *)
Definition nondecreasing (l : list Q) : Prop :=
  forall (i j : nat) (x y : Q),
    (i <= j)%nat -> l !! i = Some x -> l !! j = Some y -> (x <= y)%Q.

(** The smoothing pass as one traversal from the right: the new entries
    and the running maximum, which starts at [m]. *)
Fixpoint running_max (l : list Q) (m : Q) : list Q * Q :=
  match l with
  | [] => ([], m)
  | p :: l' =>
      let '(out, m') := running_max l' m in
      if Qltb m' p then (p :: out, p) else (m' :: out, m')
  end.

(** The trapezoid rule on a sequence of points (recall, precision): for each
    pair of consecutive points, the step of recall times the average of the
    two precisions. *)
Fixpoint trapezoid (rs ps : list Q) : Q :=
  match rs, ps with
  | r0 :: ((r1 :: _) as rs'), p0 :: ((p1 :: _) as ps') =>
      ((r1 - r0) * ((p0 + p1) / 2) + trapezoid rs' ps')%Q
  | _, _ => 0%Q
  end.

(** An object whose lists have one entry per class and whose two sequences
    have one length in every class, as the constructor builds them. *)
Definition PR_wf (f : PR_func) : Prop :=
  length (class_names f) = class_num f
  /\ length (precisions f) = class_num f
  /\ length (recalls f) = class_num f
  /\ forall (c : nat) (ps rs : list Q),
       precisions f !! c = Some ps -> recalls f !! c = Some rs ->
       length ps = length rs.

(** The two points (recall 0, precision 1) and (recall 1, precision 1). *)
Definition two_point_curve : PR_func :=
  mk_PR_func 1 ["person"%string] [[1; 1]%Q] [[0; 1]%Q].

(** The predictions of class [c] in the images that hold at least one
    ground truth of class [c]. *)
Definition preds_beside_truth (c : nat) (imgs : list image) : list xywhcp :=
  of_class c
    (concat (map xywhcp_pred
       (List.filter
          (fun img => (0 <? length (of_class c (xywhcp_true img)))%nat)
          imgs))).

(** Rows in order of confidence, lowest first. *)
Definition conf_le (a b : det) : Prop := (det_conf a <= det_conf b)%Q.

(** What a call returns from the two sequences of the selected class:
    the largest of the last [pc_idx] precisions, [pc_idx] being the number
    of recalls above [r]. *)
Definition envelope (ps rs : list Q) (r : Q) : Q :=
  let pc_idx := length (List.filter (fun x => Qltb r x) rs) in
  if (pc_idx =? 0)%nat then 0%Q
  else np_max (drop (length ps - pc_idx) ps).

(** Largest average the two point-wise modes can report: the last recall
    point of either list is 1, where every call returns 0. *)
Definition voc_cap (mode : map_mode) : Q :=
  match mode with
  | voc2007 => 10 # 11
  | _ => 6 # 7
  end.

(** * Properties *)

Local Open Scope Q_scope.

(** ** Boolean tests and extrema *)

Lemma Qltb_lt (x y : Q) : Qltb x y = true <-> x < y.
Proof.
  unfold Qltb. rewrite negb_true_iff. split.
  - intros H. apply Qnot_le_lt. intros Hle.
    apply Qle_bool_iff in Hle. congruence.
  - intros H. destruct (Qle_bool y x) eqn:E; [|reflexivity].
    apply Qle_bool_iff in E. exfalso. eapply Qlt_not_le; eassumption.
Qed.

Lemma Qltb_ge (x y : Q) : Qltb x y = false <-> y <= x.
Proof.
  unfold Qltb. rewrite negb_false_iff. apply Qle_bool_iff.
Qed.

Lemma Qgeb_ge (x y : Q) : Qgeb x y = true <-> y <= x.
Proof. apply Qle_bool_iff. Qed.

Lemma max_step_ge_l (m y : Q) : m <= max_step m y.
Proof.
  unfold max_step. destruct (Qltb m y) eqn:E.
  - apply Qlt_le_weak, Qltb_lt, E.
  - apply Qle_refl.
Qed.

Lemma max_step_ge_r (m y : Q) : y <= max_step m y.
Proof.
  unfold max_step. destruct (Qltb m y) eqn:E.
  - apply Qle_refl.
  - apply Qltb_ge, E.
Qed.

Lemma fold_max_ge_init (l : list Q) (m : Q) : m <= fold_left max_step l m.
Proof.
  revert m. induction l as [|y l IH]; intros m; simpl.
  - apply Qle_refl.
  - eapply Qle_trans; [apply (max_step_ge_l m y)|apply IH].
Qed.

Lemma fold_max_ge_elem (l : list Q) (m x : Q) :
  In x l -> x <= fold_left max_step l m.
Proof.
  revert m. induction l as [|y l IH]; intros m Hin; simpl in *.
  - contradiction.
  - destruct Hin as [->|Hin].
    + eapply Qle_trans; [apply (max_step_ge_r m x)|apply fold_max_ge_init].
    + apply IH, Hin.
Qed.

Lemma fold_max_in (l : list Q) (m : Q) :
  fold_left max_step l m = m \/ In (fold_left max_step l m) l.
Proof.
  revert m. induction l as [|y l IH]; intros m; simpl.
  - left; reflexivity.
  - destruct (IH (max_step m y)) as [E|Hin].
    + rewrite E. unfold max_step. destruct (Qltb m y); auto.
    + right; right; exact Hin.
Qed.

Lemma np_max_upper (l : list Q) (x : Q) : In x l -> x <= np_max l.
Proof.
  destruct l as [|y l]; simpl; [contradiction|].
  intros [->|Hin].
  - apply fold_max_ge_init.
  - apply fold_max_ge_elem, Hin.
Qed.

Lemma np_max_in (l : list Q) : l <> [] -> In (np_max l) l.
Proof.
  destruct l as [|y l]; [congruence|]. intros _. simpl.
  destruct (fold_max_in l y) as [E|Hin]; [left; symmetry; exact E|right; exact Hin].
Qed.

(** On a column or row that is not empty, the best overlap passes the
    threshold exactly when some overlap does. *)
Lemma np_max_passes (l : list Q) (thr : Q) :
  l <> [] -> (Qgeb (np_max l) thr = true <-> exists x, In x l /\ thr <= x).
Proof.
  intros Hne. rewrite Qgeb_ge. split.
  - intros H. exists (np_max l). split; [apply np_max_in, Hne|exact H].
  - intros (x & Hin & Hx). eapply Qle_trans; [exact Hx|apply np_max_upper, Hin].
Qed.

Lemma argmax_from_bound (l : list Q) (best : Q) (bi i : nat) :
  (bi < i)%nat -> (argmax_from best bi i l < i + length l)%nat.
Proof.
  revert best bi i. induction l as [|x l IH]; intros best bi i Hlt; simpl.
  - lia.
  - destruct (Qltb best x).
    + specialize (IH x i (S i)). simpl in IH. lia.
    + specialize (IH best bi (S i)). lia.
Qed.

(** [np.argmax] of a column with at least one entry is a row index. *)
Lemma argmax_bound (l : list Q) : l <> [] -> (argmax l < length l)%nat.
Proof.
  destruct l as [|x l]; [congruence|]. intros _. simpl.
  pose proof (argmax_from_bound l x 0 1). lia.
Qed.

(** ** The accumulators of [create_score_mat] *)

(** Equality of two slots, up to integer arithmetic. *)
Ltac slot_eq :=
  apply (f_equal Some); try (apply pair_equal_spec; split); lia.

Section ScoreTable.

Variable cal_iou : xywhcp -> xywhcp -> Q.
Variable thr : Q.
Variable mode : Z.

Lemma score_class_step_same (img : image) (acc : score_acc) (c : nat)
    (d t : Z * Z) (k : Z) :
  denom_array acc !! c = Some d ->
  TP_array acc !! c = Some t ->
  det_counts acc !! c = Some k ->
  let acc' := score_class_step cal_iou thr mode img acc c in
  denom_array acc' !! c = Some (denom_after cal_iou thr mode c img d)
  /\ TP_array acc' !! c = Some (TP_after cal_iou thr mode c img t)
  /\ det_counts acc' !! c = Some (k + num_PP_of c img)%Z.
Proof.
  intros Hd Ht Hk. unfold score_class_step, denom_after, TP_after,
    num_TPP_of, num_TP_of, both_present, num_PP_of, num_P_of.
  destruct ((0 <? length (of_class c (xywhcp_true img)))%nat
            && (0 <? length (of_class c (xywhcp_pred img)))%nat);
    destruct (mode =? 1)%Z; simpl;
    rewrite ?list_lookup_alter_eq, ?Hd, ?Ht, ?Hk; simpl;
    repeat split; try reflexivity; destruct d, t; simpl; slot_eq.
Qed.

Lemma score_class_step_other (img : image) (acc : score_acc) (a c : nat) :
  a <> c ->
  let acc' := score_class_step cal_iou thr mode img acc a in
  denom_array acc' !! c = denom_array acc !! c
  /\ TP_array acc' !! c = TP_array acc !! c
  /\ det_counts acc' !! c = det_counts acc !! c.
Proof.
  intros Hne. unfold score_class_step.
  destruct ((0 <? length (of_class a (xywhcp_true img)))%nat
            && (0 <? length (of_class a (xywhcp_pred img)))%nat);
    destruct (mode =? 1)%Z; simpl;
    rewrite ?list_lookup_alter_ne by exact Hne; auto.
Qed.

Lemma score_classes_slot (img : image) (cs : list nat) (c : nat) :
  NoDup cs ->
  forall (acc : score_acc) (d t : Z * Z) (k : Z),
  denom_array acc !! c = Some d ->
  TP_array acc !! c = Some t ->
  det_counts acc !! c = Some k ->
  let acc' := fold_left (score_class_step cal_iou thr mode img) cs acc in
  (In c cs ->
     denom_array acc' !! c = Some (denom_after cal_iou thr mode c img d)
     /\ TP_array acc' !! c = Some (TP_after cal_iou thr mode c img t)
     /\ det_counts acc' !! c = Some (k + num_PP_of c img)%Z)
  /\ (~ In c cs ->
     denom_array acc' !! c = Some d
     /\ TP_array acc' !! c = Some t
     /\ det_counts acc' !! c = Some k).
Proof.
  induction 1 as [|a cs Hnotin Hnd IH]; intros acc d t k Hd Ht Hk; simpl.
  - split; [contradiction|auto].
  - destruct (Nat.eq_dec a c) as [->|Hne].
    + destruct (score_class_step_same img acc c d t k Hd Ht Hk)
        as (Hd' & Ht' & Hk').
      destruct (IH _ _ _ _ Hd' Ht' Hk') as [_ Hout].
      split; [intros _; apply Hout|intros Hn; exfalso; apply Hn; now left].
      intros Hin. apply Hnotin, list_elem_of_In, Hin.
    + destruct (score_class_step_other img acc a c Hne) as (Hd' & Ht' & Hk').
      rewrite <- Hd' in Hd. rewrite <- Ht' in Ht. rewrite <- Hk' in Hk.
      destruct (IH _ _ _ _ Hd Ht Hk) as [Hin Hout].
      split.
      * intros [E|Hc]; [congruence|apply Hin, Hc].
      * intros Hn. apply Hout. intros Hc. apply Hn. now right.
Qed.

Lemma score_img_step_slot (n : nat) (img : image) (acc : score_acc) (c : nat)
    (d t : Z * Z) (k : Z) :
  (c < n)%nat ->
  denom_array acc !! c = Some d ->
  TP_array acc !! c = Some t ->
  det_counts acc !! c = Some k ->
  let acc' := score_img_step cal_iou n thr mode acc img in
  denom_array acc' !! c = Some (denom_after cal_iou thr mode c img d)
  /\ TP_array acc' !! c = Some (TP_after cal_iou thr mode c img t)
  /\ det_counts acc' !! c = Some (k + num_PP_of c img)%Z.
Proof.
  intros Hc Hd Ht Hk. unfold score_img_step.
  apply (score_classes_slot img (seq 0 n) c (NoDup_seq 0 n) acc d t k Hd Ht Hk).
  apply in_seq. lia.
Qed.

Lemma score_fold_slot (n : nat) (c : nat) (imgs : list image) :
  (c < n)%nat ->
  forall (acc : score_acc) (d t : Z * Z) (k : Z),
  denom_array acc !! c = Some d ->
  TP_array acc !! c = Some t ->
  det_counts acc !! c = Some k ->
  let acc' := fold_left (score_img_step cal_iou n thr mode) imgs acc in
  denom_array acc' !! c
    = Some ((d.1 + (swept_denom cal_iou thr mode c imgs).1)%Z, (d.2 + (swept_denom cal_iou thr mode c imgs).2)%Z)
  /\ TP_array acc' !! c
    = Some ((t.1 + (swept_TP cal_iou thr mode c imgs).1)%Z, (t.2 + (swept_TP cal_iou thr mode c imgs).2)%Z)
  /\ det_counts acc' !! c = Some (k + sumZ (num_PP_of c) imgs)%Z.
Proof.
  intros Hc. induction imgs as [|img imgs IH]; intros acc d t k Hd Ht Hk.
  - simpl. rewrite Hd, Ht, Hk. unfold swept_denom, swept_TP. simpl.
    destruct d, t, (mode =? 1)%Z; simpl; repeat split; slot_eq.
  - simpl fold_left.
    destruct (score_img_step_slot n img acc c d t k Hc Hd Ht Hk)
      as (Hd' & Ht' & Hk').
    destruct (IH _ _ _ _ Hd' Ht' Hk') as (Hd2 & Ht2 & Hk2).
    cbv zeta in *.
    rewrite Hd2, Ht2, Hk2.
    unfold swept_denom, swept_TP, denom_after, TP_after. simpl.
    destruct d, t, (mode =? 1)%Z; simpl; repeat split; slot_eq.
Qed.

Lemma score_sweep_slot (n : nat) (c : nat) (imgs : list image) :
  (c < n)%nat ->
  let acc := score_sweep cal_iou n thr mode imgs in
  denom_array acc !! c = Some (swept_denom cal_iou thr mode c imgs)
  /\ TP_array acc !! c = Some (swept_TP cal_iou thr mode c imgs)
  /\ det_counts acc !! c = Some (sumZ (num_PP_of c) imgs).
Proof.
  intros Hc. unfold score_sweep.
  destruct (score_fold_slot n c imgs Hc (score_init n) (0, 0)%Z (0, 0)%Z 0%Z)
    as (Hd & Ht & Hk);
    try (simpl; apply lookup_replicate_2; exact Hc).
  cbv zeta in *. rewrite Hd, Ht, Hk.
  destruct (swept_denom cal_iou thr mode c imgs), (swept_TP cal_iou thr mode c imgs). repeat split.
Qed.

Lemma zip_rows_lookup (tps denoms : list (Z * Z)) (ds : list Z) (c : nat)
    (tp d : Z * Z) (k : Z) :
  tps !! c = Some tp -> denoms !! c = Some d -> ds !! c = Some k ->
  zip_rows tps denoms ds !! c = Some (make_row tp d k).
Proof.
  revert tps denoms ds.
  induction c as [|c IH]; intros [|tp' tps] [|d' denoms] [|k' ds];
    simpl; try discriminate.
  - intros [= ->] [= ->] [= ->]. reflexivity.
  - apply IH.
Qed.

(** The row of class [c] in the table, from the sums of the sweep. *)
Lemma score_row_of (names : list string) (imgs : list image) (c : nat)
    (name : string) :
  names !! c = Some name ->
  create_score_mat cal_iou names thr mode imgs !! c
  = Some (name, make_row (swept_TP cal_iou thr mode c imgs)
                         (swept_denom cal_iou thr mode c imgs)
                         (sumZ (num_PP_of c) imgs)).
Proof.
  intros Hname. unfold create_score_mat. cbv zeta.
  assert (Hc : (c < length names)%nat) by (eapply lookup_lt_Some; eauto).
  destruct (score_sweep_slot (length names) c imgs Hc) as (Hd & Ht & Hk).
  rewrite lookup_zip_with, Hname. simpl.
  erewrite zip_rows_lookup by eassumption. reflexivity.
Qed.

End ScoreTable.

(** ** Counts of one image *)

Lemma count_ge_le_length (thr : Q) (l : list Q) :
  (count_ge thr l <= length l)%nat.
Proof. unfold count_ge. apply List.filter_length_le. Qed.

Lemma count_ge_pos (thr : Q) (l : list Q) :
  (0 < count_ge thr l)%nat <-> exists v, In v l /\ Qgeb v thr = true.
Proof.
  unfold count_ge. split.
  - destruct (List.filter (fun v => Qgeb v thr) l) as [|v f] eqn:E;
      simpl; [lia|]. intros _.
    assert (Hin : In v (List.filter (fun v => Qgeb v thr) l))
      by (rewrite E; now left).
    apply filter_In in Hin. exists v. exact Hin.
  - intros (v & Hin & Hv).
    assert (Hf : In v (List.filter (fun v => Qgeb v thr) l))
      by (apply filter_In; auto).
    destruct (List.filter (fun v => Qgeb v thr) l); simpl; [contradiction|lia].
Qed.

Section ImageCounts.

Variable cal_iou : xywhcp -> xywhcp -> Q.
Variable thr : Q.

Lemma both_present_inv (c : nat) (img : image) :
  both_present c img = true ->
  of_class c (xywhcp_true img) <> [] /\ of_class c (xywhcp_pred img) <> [].
Proof.
  unfold both_present. rewrite andb_true_iff, !Nat.ltb_lt.
  intros [H1 H2]. split; intros E; rewrite E in *; simpl in *; lia.
Qed.

Lemma num_TPP_of_bounds (c : nat) (img : image) :
  (0 <= num_TPP_of cal_iou thr c img <= num_PP_of c img)%Z.
Proof.
  unfold num_TPP_of, num_PP_of. destruct (both_present c img); [|lia].
  pose proof (count_ge_le_length thr
    (best_ious_pred cal_iou (of_class c (xywhcp_true img))
                    (of_class c (xywhcp_pred img)))) as H.
  unfold best_ious_pred in H at 2. rewrite length_map in H. lia.
Qed.

Lemma num_TP_of_bounds (c : nat) (img : image) :
  (0 <= num_TP_of cal_iou thr c img <= num_P_of c img)%Z.
Proof.
  unfold num_TP_of, num_P_of. destruct (both_present c img); [|lia].
  pose proof (count_ge_le_length thr
    (best_ious_true cal_iou (of_class c (xywhcp_true img))
                    (of_class c (xywhcp_pred img)))) as H.
  unfold best_ious_true in H at 2. rewrite length_map in H. lia.
Qed.

(** A prediction that passes the threshold does so against some ground
    truth, whose own best overlap then passes as well. *)
Lemma some_TPP_some_TP (trues preds : list xywhcp) :
  trues <> [] ->
  (0 < count_ge thr (best_ious_pred cal_iou trues preds))%nat ->
  (0 < count_ge thr (best_ious_true cal_iou trues preds))%nat.
Proof.
  intros Hne. rewrite !count_ge_pos.
  intros (v & Hin & Hv). unfold best_ious_pred in Hin.
  apply in_map_iff in Hin. destruct Hin as (p & <- & Hp).
  apply np_max_passes in Hv.
  2:{ destruct trues; [congruence|discriminate]. }
  destruct Hv as (x & Hx & Hthr).
  apply in_map_iff in Hx. destruct Hx as (t & <- & Ht).
  exists (np_max (map (fun p0 => cal_iou t p0) preds)). split.
  - unfold best_ious_true. apply in_map_iff. exists t. auto.
  - apply np_max_passes.
    + destruct preds; [contradiction|discriminate].
    + exists (cal_iou t p). split; [|exact Hthr].
      apply in_map_iff. exists p. auto.
Qed.

Lemma num_TP_zero_TPP_zero (c : nat) (img : image) :
  num_TP_of cal_iou thr c img = 0%Z -> num_TPP_of cal_iou thr c img = 0%Z.
Proof.
  unfold num_TP_of, num_TPP_of.
  destruct (both_present c img) eqn:E; [|reflexivity].
  apply both_present_inv in E. destruct E as [Ht _].
  intros H0.
  pose proof (some_TPP_some_TP (of_class c (xywhcp_true img))
                (of_class c (xywhcp_pred img)) Ht).
  lia.
Qed.

Lemma sumZ_bounds (f g : image -> Z) (imgs : list image) :
  (forall img, (0 <= f img <= g img)%Z) ->
  (0 <= sumZ f imgs <= sumZ g imgs)%Z.
Proof.
  intros H. induction imgs as [|img imgs IH]; simpl; [lia|].
  specialize (H img). lia.
Qed.

Lemma sumZ_zero (f : image -> Z) (imgs : list image) :
  Forall (fun img => f img = 0%Z) imgs -> sumZ f imgs = 0%Z.
Proof.
  induction 1 as [|img imgs H0 _ IH]; simpl; lia.
Qed.

Lemma sum_TP_zero_TPP_zero (c : nat) (imgs : list image) :
  sumZ (num_TP_of cal_iou thr c) imgs = 0%Z ->
  sumZ (num_TPP_of cal_iou thr c) imgs = 0%Z.
Proof.
  induction imgs as [|img imgs IH]; simpl; [reflexivity|].
  pose proof (num_TP_of_bounds c img).
  pose proof (sumZ_bounds (num_TP_of cal_iou thr c) (num_P_of c) imgs
                (num_TP_of_bounds c)).
  intros Hs.
  rewrite (num_TP_zero_TPP_zero c img) by lia. rewrite IH by lia. reflexivity.
Qed.

Lemma sum_P_concat (c : nat) (imgs : list image) :
  sumZ (num_P_of c) imgs
  = Z.of_nat (length (of_class c (concat (map xywhcp_true imgs)))).
Proof.
  induction imgs as [|img imgs IH]; simpl; [reflexivity|].
  unfold of_class in *. rewrite List.filter_app, length_app, IH.
  unfold num_P_of, of_class. lia.
Qed.

End ImageCounts.

(** Order of two quotients of integers with positive divisors. *)
Lemma Qdiv_le_cross (a m b n : Z) :
  (0 < m)%Z -> (0 < n)%Z -> (a * n <= b * m)%Z ->
  inject_Z a / inject_Z m <= inject_Z b / inject_Z n.
Proof.
  intros Hm Hn H.
  destruct m as [|pm|pm]; try lia. destruct n as [|pn|pn]; try lia.
  unfold Qle, Qdiv, Qmult, Qinv, inject_Z. simpl.
  rewrite !Z.mul_1_r. exact H.
Qed.

(** ** The score table *)

(** C10: when no image has a prediction of class [c] and the data set holds
    exactly one ground truth of that class, the row of the class has
    precision nan (0/0), recall 0, gts 1 and dets 0; the table is returned,
    nothing is raised. *)
Theorem no_prediction_row (cal_iou : xywhcp -> xywhcp -> Q)
    (names : list string) (thr : Q) (mode : Z) (imgs : list image)
    (c : nat) (name : string) :
  names !! c = Some name ->
  Forall (fun img => of_class c (xywhcp_pred img) = []) imgs ->
  length (of_class c (concat (map xywhcp_true imgs))) = 1%nat ->
  exists row,
    create_score_mat cal_iou names thr mode imgs !! c = Some (name, row)
    /\ col_precision row = NaN
    /\ col_recall row = Finite 0
    /\ col_gts row = 1%Z
    /\ col_dets row = 0%Z.
Proof.
  intros Hname Hnone Hone.
  eexists. split; [apply score_row_of, Hname|].
  assert (HPP : sumZ (num_PP_of c) imgs = 0%Z).
  { apply sumZ_zero. eapply Forall_impl; [exact Hnone|].
    intros img E. unfold num_PP_of. simpl in E. rewrite E. reflexivity. }
  assert (HP : sumZ (num_P_of c) imgs = 1%Z).
  { rewrite sum_P_concat, Hone. reflexivity. }
  assert (HTPP : sumZ (num_TPP_of cal_iou thr c) imgs = 0%Z).
  { pose proof (sumZ_bounds _ _ imgs (num_TPP_of_bounds cal_iou thr c)). lia. }
  assert (HTP : sumZ (num_TP_of cal_iou thr c) imgs = 0%Z).
  { apply sumZ_zero. eapply Forall_impl; [exact Hnone|].
    intros img E. unfold num_TP_of, both_present. simpl in E. rewrite E.
    simpl. rewrite andb_false_r. reflexivity. }
  unfold make_row, swept_TP, swept_denom. rewrite HPP, HP, HTPP, HTP.
  destruct (mode =? 1)%Z; simpl; auto.
Qed.

Lemma no_prediction_row_witness :
  exists row,
    create_score_mat iou_xywh ["person"%string] (1 # 2) 1 [img_no_pred] !! 0%nat
      = Some ("person"%string, row)
    /\ col_precision row = NaN
    /\ col_recall row = Finite 0
    /\ col_gts row = 1%Z
    /\ col_dets row = 0%Z.
Proof.
  apply (no_prediction_row iou_xywh ["person"%string] (1 # 2) 1
           [img_no_pred] 0%nat "person"%string).
  - reflexivity.
  - repeat constructor.
  - reflexivity.
Defined.

(** C2, as the code has it: for a class in which the ground truths counted
    as matched (summed TP) are no more than the predictions counted as
    matching (summed TPP), the precision of mode 1 is at most the precision
    of mode 0; when the class has no prediction at all, both are nan. *)
Theorem precision_mode_order (cal_iou : xywhcp -> xywhcp -> Q)
    (names : list string) (thr : Q) (imgs : list image)
    (c : nat) (name : string) :
  names !! c = Some name ->
  (sumZ (num_TP_of cal_iou thr c) imgs
   <= sumZ (num_TPP_of cal_iou thr c) imgs)%Z ->
  exists r1 r0,
    create_score_mat cal_iou names thr 1 imgs !! c = Some (name, r1)
    /\ create_score_mat cal_iou names thr 0 imgs !! c = Some (name, r0)
    /\ (np_leb (col_precision r1) (col_precision r0) = true
        \/ (col_dets r0 = 0%Z
            /\ col_precision r1 = NaN /\ col_precision r0 = NaN)).
Proof.
  intros Hname Hle.
  do 2 eexists. split; [apply score_row_of, Hname|].
  split; [apply score_row_of, Hname|].
  pose proof (sumZ_bounds _ _ imgs (num_TPP_of_bounds cal_iou thr c)) as Hb.
  pose proof (sumZ_bounds _ _ imgs (num_TP_of_bounds cal_iou thr c)) as Ha.
  pose proof (sum_TP_zero_TPP_zero cal_iou thr c imgs) as Hz.
  unfold make_row, swept_TP, swept_denom. simpl.
  set (a := sumZ (num_TP_of cal_iou thr c) imgs) in *.
  set (b := sumZ (num_TPP_of cal_iou thr c) imgs) in *.
  set (n := sumZ (num_PP_of c) imgs) in *.
  replace (n - 0)%Z with n by lia.
  destruct (Z.eq_dec n 0%Z) as [En|En].
  - right. assert (b = 0%Z) by lia. assert (a = 0%Z) by lia.
    rewrite En. subst a b. rewrite H, H0. auto.
  - left.
    assert (Hm : (0 < n - (b - a))%Z).
    { destruct (Z.eq_dec a 0%Z) as [E|E]; [rewrite Hz by exact E|]; lia. }
    unfold true_divide.
    destruct (Z.eqb_spec (n - (b - a))%Z 0%Z) as [E|_]; [lia|].
    destruct (Z.eqb_spec n 0%Z) as [E|_]; [lia|].
    simpl. apply Qle_bool_iff, Qdiv_le_cross; [exact Hm|lia|nia].
Qed.

Lemma precision_mode_order_witness :
  exists r1 r0,
    create_score_mat iou_xywh ["person"%string] (1 # 2) 1 [img_two_preds]
      !! 0%nat = Some ("person"%string, r1)
    /\ create_score_mat iou_xywh ["person"%string] (1 # 2) 0 [img_two_preds]
      !! 0%nat = Some ("person"%string, r0)
    /\ (np_leb (col_precision r1) (col_precision r0) = true
        \/ (col_dets r0 = 0%Z
            /\ col_precision r1 = NaN /\ col_precision r0 = NaN)).
Proof.
  apply (precision_mode_order iou_xywh ["person"%string] (1 # 2)
           [img_two_preds] 0%nat "person"%string).
  - reflexivity.
  - vm_compute. discriminate.
Defined.

(** C2 fails as stated: in [img_wide] one prediction passes against two
    ground truths, so TP = 2 exceeds TPP = 1; mode 1 gives 2/3 and mode 0
    gives 1/2. *)
Lemma precision_mode_1_above_mode_0 :
  exists r1 r0,
    create_score_mat iou_xywh ["person"%string] (1 # 2) 1 [img_wide] !! 0%nat
      = Some ("person"%string, r1)
    /\ create_score_mat iou_xywh ["person"%string] (1 # 2) 0 [img_wide] !! 0%nat
      = Some ("person"%string, r0)
    /\ col_precision r1 = Finite (2 # 3)
    /\ col_precision r0 = Finite (1 # 2)
    /\ np_leb (col_precision r1) (col_precision r0) = false.
Proof.
  do 2 eexists. repeat split; vm_compute; reflexivity.
Qed.

(** ** Sorting and capping *)

Lemma insert_by_conf_perm (d : det) (l : list det) :
  Permutation (insert_by_conf d l) (d :: l).
Proof.
  induction l as [|e l IH]; simpl; [reflexivity|].
  destruct (Qle_bool (det_conf d) (det_conf e)); [reflexivity|].
  rewrite IH. apply perm_swap.
Qed.

Lemma argsort_conf_perm (l : list det) : Permutation (argsort_conf l) l.
Proof.
  induction l as [|d l IH]; simpl; [reflexivity|].
  rewrite insert_by_conf_perm. now apply perm_skip.
Qed.

Lemma sort_desc_perm (l : list det) : Permutation (sort_desc l) l.
Proof.
  unfold sort_desc. rewrite <- Permutation_rev. apply argsort_conf_perm.
Qed.

Lemma sort_desc_length (l : list det) : length (sort_desc l) = length l.
Proof. apply Permutation_length, sort_desc_perm. Qed.

Lemma sort_desc_In (l : list det) (x : det) : In x (sort_desc l) -> In x l.
Proof. apply Permutation_in, sort_desc_perm. Qed.

Lemma py_slice_from_In {A : Type} (k : Z) (l : list A) (x : A) :
  In x (py_slice_from k l) -> In x l.
Proof.
  unfold py_slice_from. intros H. apply list_elem_of_In in H.
  apply list_elem_of_In. eapply subseteq_drop. exact H.
Qed.

Lemma stack3_map {A : Type} (f : A -> Q) (g : A -> nat) (h : A -> bool)
    (l : list A) :
  stack3 (map f l) (map g l) (map h l)
  = map (fun x => mk_det (f x) (g x) (h x)) l.
Proof.
  induction l as [|x l IH]; simpl; [reflexivity|]. now rewrite IH.
Qed.

(** ** The sweep of [PR_func.__init__] *)

Section Sweep.

Variable cal_iou : xywhcp -> xywhcp -> Q.
Variable thr : Q.
Variable max_per_img : option Z.

(** The rows before the cap, one per prediction. *)
Lemma image_rows (num_gts : nat) (trues preds : list xywhcp) (x : det) :
  In x (image_detection cal_iou thr max_per_img num_gts trues preds) ->
  exists p, In p preds
    /\ x = mk_det (box_c p)
                  (argmax (map (fun t => cal_iou t p) trues) + num_gts)
                  (Qgeb (np_max (map (fun t => cal_iou t p) trues)) thr).
Proof.
  unfold image_detection, best_ious_pred, argmax_true.
  rewrite !map_map, stack3_map. cbv zeta.
  set (rows := map _ preds).
  intros H.
  assert (Hrows : In x rows).
  { destruct max_per_img as [m|]; [|exact H].
    destruct (m <? Z.of_nat (length rows))%Z; [|exact H].
    apply sort_desc_In. eapply py_slice_from_In. exact H. }
  apply in_map_iff in Hrows. destruct Hrows as (p & <- & Hp).
  exists p. auto.
Qed.

(** Every id an image records lies in the block of ids of that image. *)
Lemma class_detection_ids (c num_gts : nat) (img : image) (x : det) :
  In x (class_detection cal_iou thr max_per_img c num_gts img) ->
  (num_gts <= det_id x < num_gts + length (of_class c (xywhcp_true img)))%nat.
Proof.
  unfold class_detection. destruct (both_present c img) eqn:E;
    [|contradiction].
  apply both_present_inv in E. destruct E as [Ht _].
  intros H. apply image_rows in H. destruct H as (p & _ & ->). simpl.
  pose proof (argmax_bound
    (map (fun t => cal_iou t p) (of_class c (xywhcp_true img)))) as Hb.
  rewrite length_map in Hb.
  assert (map (fun t => cal_iou t p) (of_class c (xywhcp_true img)) <> []).
  { destruct (of_class c (xywhcp_true img)); [congruence|discriminate]. }
  specialize (Hb ltac:(assumption)). lia.
Qed.

Lemma contributions_ids_lower (c : nat) (imgs : list image) :
  forall (num_gts j : nat) (dj : list det) (x : det),
  contributions cal_iou thr max_per_img c num_gts imgs !! j = Some dj ->
  In x dj -> (num_gts <= det_id x)%nat.
Proof.
  induction imgs as [|img imgs IH]; intros g j dj x Hj Hx;
    [discriminate|].
  destruct j as [|j]; simpl in Hj.
  - injection Hj as <-. apply class_detection_ids in Hx. lia.
  - specialize (IH _ _ _ _ Hj Hx). lia.
Qed.

Lemma contributions_ids_ordered (c : nat) (imgs : list image) :
  forall (num_gts i j : nat) (di dj : list det) (a b : det),
  (i < j)%nat ->
  contributions cal_iou thr max_per_img c num_gts imgs !! i = Some di ->
  contributions cal_iou thr max_per_img c num_gts imgs !! j = Some dj ->
  In a di -> In b dj -> (det_id a < det_id b)%nat.
Proof.
  induction imgs as [|img imgs IH]; intros g i j di dj a b Hij Hi Hj Ha Hb;
    [discriminate|].
  destruct j as [|j]; [lia|]. simpl in Hj.
  destruct i as [|i]; simpl in Hi.
  - injection Hi as <-. apply class_detection_ids in Ha.
    pose proof (contributions_ids_lower c imgs _ _ _ _ Hj Hb). lia.
  - eapply (IH _ i j); eauto. lia.
Qed.

Lemma pr_class_step_same (img : image) (acc : pr_acc) (c g : nat)
    (ds : list det) :
  gts acc !! c = Some g ->
  detections acc !! c = Some ds ->
  let acc' := pr_class_step cal_iou thr max_per_img img acc c in
  gts acc' !! c = Some (g + length (of_class c (xywhcp_true img)))%nat
  /\ detections acc' !! c
     = Some (ds ++ class_detection cal_iou thr max_per_img c g img).
Proof.
  intros Hg Hds. unfold pr_class_step, class_detection, both_present.
  rewrite Hg. simpl.
  assert (Hlt : (c < length (gts acc))%nat) by (eapply lookup_lt_Some; eauto).
  destruct ((0 <? length (of_class c (xywhcp_true img)))%nat
            && (0 <? length (of_class c (xywhcp_pred img)))%nat); simpl;
    rewrite list_lookup_insert_eq by exact Hlt;
    rewrite ?list_lookup_alter_eq, ?Hds, ?app_nil_r; auto.
Qed.

Lemma pr_class_step_other (img : image) (acc : pr_acc) (a c : nat) :
  a <> c ->
  let acc' := pr_class_step cal_iou thr max_per_img img acc a in
  gts acc' !! c = gts acc !! c
  /\ detections acc' !! c = detections acc !! c.
Proof.
  intros Hne. unfold pr_class_step.
  destruct ((0 <? length (of_class a (xywhcp_true img)))%nat
            && (0 <? length (of_class a (xywhcp_pred img)))%nat); simpl;
    rewrite list_lookup_insert_ne by exact Hne;
    rewrite ?list_lookup_alter_ne by exact Hne; auto.
Qed.

Lemma pr_classes_slot (img : image) (cs : list nat) (c : nat) :
  NoDup cs ->
  forall (acc : pr_acc) (g : nat) (ds : list det),
  gts acc !! c = Some g ->
  detections acc !! c = Some ds ->
  let acc' := fold_left (pr_class_step cal_iou thr max_per_img img) cs acc in
  (In c cs ->
     gts acc' !! c = Some (g + length (of_class c (xywhcp_true img)))%nat
     /\ detections acc' !! c
        = Some (ds ++ class_detection cal_iou thr max_per_img c g img))
  /\ (~ In c cs ->
     gts acc' !! c = Some g /\ detections acc' !! c = Some ds).
Proof.
  induction 1 as [|a cs Hnotin Hnd IH]; intros acc g ds Hg Hds; simpl.
  - split; [contradiction|auto].
  - destruct (Nat.eq_dec a c) as [->|Hne].
    + destruct (pr_class_step_same img acc c g ds Hg Hds) as (Hg' & Hds').
      destruct (IH _ _ _ Hg' Hds') as [_ Hout].
      split; [intros _; apply Hout|intros Hn; exfalso; apply Hn; now left].
      intros Hin. apply Hnotin, list_elem_of_In, Hin.
    + destruct (pr_class_step_other img acc a c Hne) as (Hg' & Hds').
      rewrite <- Hg' in Hg. rewrite <- Hds' in Hds.
      destruct (IH _ _ _ Hg Hds) as [Hin Hout].
      split.
      * intros [E|Hc]; [congruence|apply Hin, Hc].
      * intros Hn. apply Hout. intros Hc. apply Hn. now right.
Qed.

Lemma pr_fold_slot (n c : nat) (imgs : list image) :
  (c < n)%nat ->
  forall (acc : pr_acc) (g : nat) (ds : list det),
  gts acc !! c = Some g ->
  detections acc !! c = Some ds ->
  let acc' := fold_left (pr_img_step cal_iou n thr max_per_img) imgs acc in
  (exists g', gts acc' !! c = Some g')
  /\ detections acc' !! c
     = Some (ds ++ concat (contributions cal_iou thr max_per_img c g imgs)).
Proof.
  intros Hc. induction imgs as [|img imgs IH]; intros acc g ds Hg Hds.
  - simpl. rewrite app_nil_r. eauto.
  - simpl.
    destruct (pr_classes_slot img (seq 0 n) c (NoDup_seq 0 n) acc g ds Hg Hds)
      as [Hin _].
    destruct Hin as (Hg' & Hds'); [apply in_seq; lia|].
    destruct (IH _ _ _ Hg' Hds') as (Hg2 & Hds2).
    split; [exact Hg2|].
    unfold pr_img_step at 2. cbv zeta in Hds2. rewrite Hds2.
    now rewrite <- app_assoc.
Qed.

(** The accumulator of a class after the sweep is the concatenation of what
    the images contributed, in order. *)
Lemma pr_sweep_detections (n c : nat) (imgs : list image) :
  (c < n)%nat ->
  detections (pr_sweep cal_iou n thr max_per_img imgs) !! c
  = Some (concat (contributions cal_iou thr max_per_img c 0 imgs)).
Proof.
  intros Hc. unfold pr_sweep.
  destruct (pr_fold_slot n c imgs Hc (pr_init n) 0%nat [])
    as (_ & H); try (simpl; apply lookup_replicate_2; exact Hc).
  exact H.
Qed.

End Sweep.

(** C7: the rows of a class after the sweep are the rows the images
    contributed, and rows contributed by two different images never carry
    the same ground-truth id. *)
Theorem matched_ids_disjoint (cal_iou : xywhcp -> xywhcp -> Q)
    (n : nat) (thr : Q) (max_per_img : option Z) (imgs : list image)
    (c : nat) :
  (c < n)%nat ->
  detections (pr_sweep cal_iou n thr max_per_img imgs) !! c
  = Some (concat (contributions cal_iou thr max_per_img c 0 imgs))
  /\ forall (i j : nat) (di dj : list det) (a b : det),
       i <> j ->
       contributions cal_iou thr max_per_img c 0 imgs !! i = Some di ->
       contributions cal_iou thr max_per_img c 0 imgs !! j = Some dj ->
       In a di -> In b dj -> det_id a <> det_id b.
Proof.
  intros Hc. split; [apply pr_sweep_detections, Hc|].
  intros i j di dj a b Hij Hi Hj Ha Hb.
  destruct (Nat.lt_total i j) as [Hlt|[E|Hlt]]; [|contradiction|].
  - pose proof (contributions_ids_ordered cal_iou thr max_per_img c imgs
                  _ _ _ _ _ _ _ Hlt Hi Hj Ha Hb). lia.
  - pose proof (contributions_ids_ordered cal_iou thr max_per_img c imgs
                  _ _ _ _ _ _ _ Hlt Hj Hi Hb Ha). lia.
Qed.

Lemma matched_ids_disjoint_witness :
  detections (pr_sweep iou_xywh 1 (1 # 2) None [img_two_preds; img_wide])
    !! 0%nat
  = Some (concat (contributions iou_xywh (1 # 2) None 0 0
                    [img_two_preds; img_wide]))
  /\ forall (i j : nat) (di dj : list det) (a b : det),
       i <> j ->
       contributions iou_xywh (1 # 2) None 0 0 [img_two_preds; img_wide] !! i
         = Some di ->
       contributions iou_xywh (1 # 2) None 0 0 [img_two_preds; img_wide] !! j
         = Some dj ->
       In a di -> In b dj -> det_id a <> det_id b.
Proof.
  apply (matched_ids_disjoint iou_xywh 1 (1 # 2) None
           [img_two_preds; img_wide] 0).
  lia.
Defined.

(** With a cap strictly between 0 and the number of rows, what the slice
    keeps is the start of the increasing order: the rows of lowest
    confidence. *)
Lemma cap_keeps_lowest (m : Z) (l : list det) :
  (0 < m < Z.of_nat (length l))%Z ->
  py_slice_from (- m) (sort_desc l)
  = rev (take (Z.to_nat m) (argsort_conf l)).
Proof.
  intros Hm. unfold py_slice_from. rewrite sort_desc_length.
  destruct (Z.ltb_spec (- m) 0) as [_|H]; [|lia].
  unfold sort_desc. rewrite skipn_rev. f_equal. f_equal.
  pose proof (Permutation_length (argsort_conf_perm l)) as Hlen.
  rewrite Hlen. lia.
Qed.

(** C1 on the code: with [max_per_img = 1] and the two predictions of
    [img_two_preds] (confidences 9/10 and 3/10), the accumulator keeps the
    row of confidence 3/10. *)
Theorem cap_retains_lower_confidence :
  detections (pr_sweep iou_xywh 1 (1 # 2) (Some 1%Z) [img_two_preds])
  = [[mk_det (3 # 10) 0 true]].
Proof. vm_compute. reflexivity. Qed.

(** ** The precision-recall sequences *)

Lemma remove_dups_length_mono (l1 l2 : list nat) :
  (length (remove_dups l1) <= length (remove_dups (l1 ++ l2)))%nat.
Proof.
  apply submseteq_length, NoDup_submseteq; [apply NoDup_remove_dups|].
  intros x. rewrite !elem_of_remove_dups, elem_of_app. auto.
Qed.

Lemma count_TP_app (l1 l2 : list det) :
  (count_TP l1 <= count_TP (l1 ++ l2))%Z.
Proof.
  unfold count_TP. rewrite List.filter_app, map_app.
  pose proof (remove_dups_length_mono
    (map det_id (List.filter det_mask l1))
    (map det_id (List.filter det_mask l2))). lia.
Qed.

(** The number of distinct matched ground truths grows with the prefix. *)
Lemma count_TP_take_mono (l : list det) (i j : nat) :
  (i <= j)%nat -> (count_TP (take i l) <= count_TP (take j l))%Z.
Proof.
  intros Hij.
  rewrite <- (take_drop i (take j l)).
  rewrite take_take, Nat.min_l by exact Hij.
  apply count_TP_app.
Qed.

Lemma count_TP_nonneg (l : list det) : (0 <= count_TP l)%Z.
Proof. unfold count_TP. lia. Qed.

(** The divisor of the precision is positive on every prefix that holds a
    row. *)
Lemma prefix_denominator_pos (det : list det) :
  det <> [] ->
  (0 < count_TP det + (Z.of_nat (length det) - count_TPP det))%Z.
Proof.
  intros Hne. unfold count_TP, count_TPP.
  pose proof (List.filter_length_le det_mask det) as Hle.
  destruct (List.filter det_mask det) as [|d f] eqn:E.
  - destruct det; [congruence|]. simpl. lia.
  - assert (Hin : det_id d ∈ remove_dups (map det_id (d :: f))).
    { apply elem_of_remove_dups. left. }
    destruct (remove_dups (map det_id (d :: f))) eqn:E2.
    + inversion Hin.
    + simpl length in *. lia.
Qed.

(** In particular on the prefix of iteration [det_i] of the inner loop. *)
Lemma curve_body_divisor_pos (detection : list det) (det_i : nat) :
  (det_i < length detection)%nat ->
  (0 < count_TP (take (det_i + 1) detection)
       + (Z.of_nat (length (take (det_i + 1) detection))
          - count_TPP (take (det_i + 1) detection)))%Z.
Proof.
  intros Hi. apply prefix_denominator_pos.
  intros E. apply (f_equal length) in E.
  rewrite length_take in E. simpl in E. lia.
Qed.

Lemma prec_at_nonneg (detection : list det) (i : nat) :
  (i < length detection)%nat -> 0 <= prec_at detection i.
Proof.
  intros Hi. unfold prec_at. cbv zeta.
  pose proof (curve_body_divisor_pos detection i Hi) as Hpos.
  pose proof (count_TP_nonneg (take (i + 1) detection)) as Hnn.
  change 0 with (inject_Z 0 / inject_Z 1).
  apply Qdiv_le_cross; lia.
Qed.

Lemma lookup_map {A B : Type} (f : A -> B) (l : list A) (i : nat) :
  map f l !! i = f <$> l !! i.
Proof.
  revert i. induction l as [|x l IH]; intros [|i]; simpl; auto.
Qed.

Lemma lookup_map_seq {B : Type} (f : nat -> B) (a n i : nat) :
  (i < n)%nat -> map f (seq a n) !! i = Some (f (a + i)%nat).
Proof.
  intros Hi. rewrite lookup_map, lookup_seq_lt by exact Hi. reflexivity.
Qed.

(** The inner loop, run over any list of ranks, when [num_gts] is not 0. *)
Lemma curve_loop_run (G : Z) (D : list det) (idxs : list nat) :
  G <> 0%Z ->
  forall st : curve_state,
  for_each idxs (curve_body G D) st
  = inr (mk_curve_state
           (cs_precisions st ++ map (prec_at D) idxs)
           (cs_recalls st ++ map (rec_at G D) idxs)
           (fold_left (fun _ i => Some (count_TP (take (i + 1) D)))
                      idxs (cs_num_TP st))).
Proof.
  intros HG. induction idxs as [|i idxs IH]; intros st; simpl.
  - rewrite !app_nil_r. destruct st; reflexivity.
  - unfold curve_body at 1, py_div.
    destruct (Z.eqb_spec G 0) as [E|_]; [contradiction|].
    simpl. rewrite IH. simpl. rewrite <- !app_assoc. reflexivity.
Qed.

Lemma loop_last_assignment {A : Type} (F : nat -> A) (k : nat) (v : option A) :
  fold_left (fun _ i => Some (F i)) (seq 0 (S k)) v = Some (F k).
Proof. rewrite seq_S, fold_left_app. reflexivity. Qed.

(** A class with rows and ground truths: the loop runs, [num_TP] is bound by
    its last iteration, and the sentinel repeats the last recall. *)
Lemma class_curve_run (num_TP : option Z) (g : nat) (D0 : list det) :
  D0 <> [] -> (0 < g)%nat ->
  let D := sort_desc D0 in
  let n := length D0 in
  class_curve num_TP g D0
  = inr (mk_curve_state
           (map (prec_at D) (seq 0 n) ++ [0])
           (map (rec_at (Z.of_nat g) D) (seq 0 n)
            ++ [rec_at (Z.of_nat g) D (n - 1)])
           (Some (count_TP (take (n - 1 + 1) D)))).
Proof.
  intros Hne Hg D n. unfold class_curve.
  rewrite curve_loop_run by lia. fold D.
  replace (length D) with n by (symmetry; apply sort_desc_length).
  subst n. destruct (length D0) as [|k] eqn:E.
  { destruct D0; [congruence|discriminate]. }
  replace (S k - 1)%nat with k by lia.
  cbn [cs_precisions cs_recalls cs_num_TP app].
  rewrite (loop_last_assignment (fun i => count_TP (take (i + 1) D))).
  unfold py_div. destruct (Z.eqb_spec (Z.of_nat g) 0) as [E0|_]; [lia|].
  reflexivity.
Qed.

Lemma rec_at_mono (G : Z) (D : list det) (i j : nat) :
  (0 < G)%Z -> (i <= j)%nat -> rec_at G D i <= rec_at G D j.
Proof.
  intros HG Hij. unfold rec_at.
  apply Qdiv_le_cross; try exact HG.
  pose proof (count_TP_take_mono D (i + 1) (j + 1)). nia.
Qed.

(** The recalls of a class with rows, sentinel included, never decrease. *)
Lemma recalls_nondecreasing (G : Z) (D : list det) (n : nat) :
  (0 < G)%Z ->
  nondecreasing (map (rec_at G D) (seq 0 n) ++ [rec_at G D (n - 1)]).
Proof.
  intros HG.
  assert (E : map (rec_at G D) (seq 0 n) ++ [rec_at G D (n - 1)]
              = map (fun k => rec_at G D (Nat.min k (n - 1))) (seq 0 (S n))).
  { rewrite seq_S, map_app. simpl. f_equal.
    - apply map_ext_in. intros k Hk. apply in_seq in Hk.
      f_equal. lia.
    - f_equal. f_equal. lia. }
  rewrite E. intros i j x y Hij Hi Hj.
  assert (Hjn : (j < S n)%nat).
  { apply lookup_lt_Some in Hj. rewrite length_map, length_seq in Hj. exact Hj. }
  rewrite lookup_map_seq in Hi by lia. rewrite lookup_map_seq in Hj by lia.
  injection Hi as <-. injection Hj as <-.
  apply rec_at_mono; [exact HG|lia].
Qed.

Lemma nondecreasing_singleton (r : Q) : nondecreasing [r].
Proof.
  intros [|i] [|j] x y _ Hi Hj; simpl in *; try discriminate.
  injection Hi as <-. injection Hj as <-. apply Qle_refl.
Qed.

(** Whatever [num_TP] holds on entry, a class whose iteration returns has
    two sequences of one length, ending in the sentinel of precision 0, with
    recalls that never decrease. *)
Lemma class_curve_shape (num_TP : option Z) (g : nat) (D0 : list det)
    (cst : curve_state) :
  class_curve num_TP g D0 = inr cst ->
  exists ps rs r,
    cs_precisions cst = ps ++ [0]
    /\ cs_recalls cst = rs ++ [r]
    /\ length ps = length D0
    /\ length rs = length D0
    /\ nondecreasing (rs ++ [r]).
Proof.
  intros H. destruct D0 as [|d D0].
  - unfold class_curve in H. simpl in H.
    destruct num_TP as [k|]; [|discriminate]. simpl in H.
    unfold py_div in H. destruct (Z.of_nat g =? 0)%Z; [discriminate|].
    simpl in H. injection H as <-. simpl.
    exists [], [], (inject_Z k / inject_Z (Z.of_nat g)).
    repeat split; auto. apply nondecreasing_singleton.
  - destruct g as [|g].
    + exfalso. unfold class_curve in H.
      pose proof (sort_desc_length (d :: D0)) as Hlen. simpl in Hlen.
      rewrite Hlen in H. simpl in H. discriminate.
    + assert (Hne : d :: D0 <> []) by congruence.
      remember (d :: D0) as DD eqn:EDD. clear EDD.
      rewrite class_curve_run in H by (assumption || lia).
      injection H as <-. cbn [cs_precisions cs_recalls].
      do 3 eexists. split; [reflexivity|]. split; [reflexivity|].
      rewrite !length_map, !length_seq.
      repeat split. apply recalls_nondecreasing. lia.
Qed.

(** The precisions of a class are never negative. *)
Lemma class_curve_precisions_nonneg (num_TP : option Z) (g : nat)
    (D0 : list det) (cst : curve_state) (p : Q) :
  class_curve num_TP g D0 = inr cst ->
  In p (cs_precisions cst) -> 0 <= p.
Proof.
  intros H Hp. destruct D0 as [|d D0].
  - unfold class_curve in H. simpl in H.
    destruct num_TP as [k|]; [|discriminate]. simpl in H.
    unfold py_div in H. destruct (Z.of_nat g =? 0)%Z; [discriminate|].
    simpl in H. injection H as <-. simpl in Hp.
    destruct Hp as [<-|[]]. apply Qle_refl.
  - destruct g as [|g].
    + exfalso. unfold class_curve in H.
      pose proof (sort_desc_length (d :: D0)) as Hlen. simpl in Hlen.
      rewrite Hlen in H. simpl in H. discriminate.
    + assert (Hne : d :: D0 <> []) by congruence.
      remember (d :: D0) as DD eqn:EDD. clear EDD.
      rewrite class_curve_run in H by (assumption || lia).
      injection H as <-. cbn [cs_precisions] in Hp.
      apply in_app_iff in Hp. destruct Hp as [Hp|[<-|[]]];
        [|apply Qle_refl].
      apply in_map_iff in Hp. destruct Hp as (i & <- & Hi).
      apply in_seq in Hi. apply prec_at_nonneg.
      rewrite sort_desc_length. lia.
Qed.

(** ** The loop over the classes *)

Lemma curves_loop_slot (acc : pr_acc) (cs : list nat) (c : nat) :
  NoDup cs ->
  forall st st' : curves,
  (c < length (all_precisions st))%nat ->
  (c < length (all_recalls st))%nat ->
  for_each cs (curves_body acc) st = inr st' ->
  length (all_precisions st') = length (all_precisions st)
  /\ length (all_recalls st') = length (all_recalls st)
  /\ (In c cs ->
      exists num_TP cst,
        class_curve num_TP (default 0%nat (gts acc !! c))
                    (default [] (detections acc !! c)) = inr cst
        /\ all_precisions st' !! c = Some (cs_precisions cst)
        /\ all_recalls st' !! c = Some (cs_recalls cst))
  /\ (~ In c cs ->
      all_precisions st' !! c = all_precisions st !! c
      /\ all_recalls st' !! c = all_recalls st !! c).
Proof.
  induction 1 as [|a cs Hnotin Hnd IH]; intros st st' Hp Hr Hrun.
  - simpl in Hrun. injection Hrun as <-.
    repeat split; auto. contradiction.
  - simpl in Hrun. unfold curves_body at 1 in Hrun.
    destruct (class_curve (live_num_TP st) (default 0%nat (gts acc !! a))
                (default [] (detections acc !! a))) as [e|cst] eqn:Ecls;
      simpl in Hrun; [discriminate|].
    apply IH in Hrun; simpl; rewrite ?length_insert; try assumption.
    simpl in Hrun. rewrite !length_insert in Hrun.
    destruct Hrun as (Hlp & Hlr & Hin & Hout).
    split; [exact Hlp|]. split; [exact Hlr|].
    destruct (Nat.eq_dec a c) as [->|Hne].
    + split.
      * intros _. exists (live_num_TP st), cst. split; [exact Ecls|].
        destruct Hout as [Hp' Hr'].
        { intros Hc. apply Hnotin, list_elem_of_In, Hc. }
        rewrite Hp', Hr', !list_lookup_insert_eq by assumption. auto.
      * intros Hn. exfalso. apply Hn. now left.
    + split.
      * intros [E|Hc]; [congruence|apply Hin, Hc].
      * intros Hn. destruct Hout as [Hp' Hr'].
        { intros Hc. apply Hn. now right. }
        rewrite Hp', Hr', !list_lookup_insert_ne by exact Hne. auto.
Qed.

(** What a constructed object holds for class [c]: the result of the
    iteration of that class on the accumulators of the sweep. *)
Lemma PR_func_init_slot (cal_iou : xywhcp -> xywhcp -> Q)
    (names : list string) (thr : Q) (max_per_img : option Z)
    (imgs : list image) (f : PR_func) (c : nat) :
  PR_func_init cal_iou names thr max_per_img imgs = inr f ->
  (c < length names)%nat ->
  let acc := pr_sweep cal_iou (length names) thr max_per_img imgs in
  exists num_TP cst,
    class_curve num_TP (default 0%nat (gts acc !! c))
                (default [] (detections acc !! c)) = inr cst
    /\ precisions f !! c = Some (cs_precisions cst)
    /\ recalls f !! c = Some (cs_recalls cst).
Proof.
  intros Hinit Hc acc. unfold PR_func_init in Hinit. fold acc in Hinit.
  destruct (for_each (seq 0 (length names)) (curves_body acc)
              (mk_curves (replicate (length names) [])
                         (replicate (length names) []) None))
    as [e|st'] eqn:Erun; simpl in Hinit; [discriminate|].
  injection Hinit as <-. simpl.
  apply (curves_loop_slot acc _ c (NoDup_seq 0 (length names))) in Erun;
    simpl; rewrite ?length_replicate; try exact Hc.
  destruct Erun as (_ & _ & Hin & _). apply Hin, in_seq. lia.
Qed.

Lemma PR_func_init_lengths (cal_iou : xywhcp -> xywhcp -> Q)
    (names : list string) (thr : Q) (max_per_img : option Z)
    (imgs : list image) (f : PR_func) :
  PR_func_init cal_iou names thr max_per_img imgs = inr f ->
  class_num f = length names
  /\ length (precisions f) = length names
  /\ length (recalls f) = length names.
Proof.
  intros Hinit. unfold PR_func_init in Hinit.
  destruct (for_each _ _ _) as [e|st'] eqn:Erun in Hinit;
    simpl in Hinit; [discriminate|].
  injection Hinit as <-. simpl.
  destruct (length names) as [|n] eqn:En.
  - simpl in Erun. injection Erun as <-. auto.
  - apply (curves_loop_slot _ _ 0%nat (NoDup_seq 0 (S n))) in Erun;
      simpl; try lia.
    destruct Erun as (Hlp & Hlr & _). simpl in Hlp, Hlr.
    rewrite length_replicate in Hlp, Hlr. auto.
Qed.

(** C3: for a class with at least one accumulated row and a positive
    ground-truth count, the iteration of the class returns whatever [num_TP]
    held before; its recalls, sentinel included, never decrease with the
    rank; the sentinel has precision 0 and repeats the last recall; and a
    constructed object holds exactly these two sequences for the class. *)
Theorem recalls_monotone_with_sentinel (cal_iou : xywhcp -> xywhcp -> Q)
    (names : list string) (thr : Q) (max_per_img : option Z)
    (imgs : list image) (c g : nat) (ds : list det) :
  let acc := pr_sweep cal_iou (length names) thr max_per_img imgs in
  (c < length names)%nat ->
  detections acc !! c = Some ds -> ds <> [] ->
  gts acc !! c = Some g -> (0 < g)%nat ->
  exists ps rs r_last,
    length ps = length ds
    /\ length rs = length ds
    /\ rs !! (length rs - 1)%nat = Some r_last
    /\ nondecreasing (rs ++ [r_last])
    /\ (forall num_TP, exists k,
          class_curve num_TP g ds
          = inr (mk_curve_state (ps ++ [0]) (rs ++ [r_last]) (Some k)))
    /\ (forall f,
          PR_func_init cal_iou names thr max_per_img imgs = inr f ->
          precisions f !! c = Some (ps ++ [0])
          /\ recalls f !! c = Some (rs ++ [r_last])).
Proof.
  intros acc Hc Hds Hne Hg Hpos.
  set (D := sort_desc ds). set (n := length ds).
  exists (map (prec_at D) (seq 0 n)),
         (map (rec_at (Z.of_nat g) D) (seq 0 n)),
         (rec_at (Z.of_nat g) D (n - 1)).
  rewrite !length_map, !length_seq.
  assert (Hn : (0 < n)%nat).
  { subst n. destruct ds; [congruence|simpl; lia]. }
  split; [reflexivity|]. split; [reflexivity|].
  split; [rewrite lookup_map_seq by lia; reflexivity|].
  split; [apply recalls_nondecreasing; lia|].
  split.
  - intros num_TP. eexists. apply class_curve_run; assumption.
  - intros f Hinit.
    destruct (PR_func_init_slot _ _ _ _ _ _ c Hinit Hc)
      as (num_TP & cst & Hcls & Hp & Hr).
    fold acc in Hcls. rewrite Hds, Hg in Hcls. simpl in Hcls.
    rewrite class_curve_run in Hcls by assumption.
    injection Hcls as <-. auto.
Qed.

Lemma recalls_monotone_with_sentinel_witness :
  exists ps rs r_last,
    length ps = 2%nat
    /\ length rs = 2%nat
    /\ rs !! (length rs - 1)%nat = Some r_last
    /\ nondecreasing (rs ++ [r_last])
    /\ (forall num_TP, exists k,
          class_curve num_TP 1
            [mk_det (9 # 10) 0 true; mk_det (3 # 10) 0 true]
          = inr (mk_curve_state (ps ++ [0]) (rs ++ [r_last]) (Some k)))
    /\ (forall f,
          PR_func_init iou_xywh ["person"%string] (1 # 2) None [img_two_preds]
          = inr f ->
          precisions f !! 0%nat = Some (ps ++ [0])
          /\ recalls f !! 0%nat = Some (rs ++ [r_last])).
Proof.
  apply (recalls_monotone_with_sentinel iou_xywh ["person"%string] (1 # 2)
           None [img_two_preds] 0 1
           [mk_det (9 # 10) 0 true; mk_det (3 # 10) 0 true]).
  - simpl. lia.
  - reflexivity.
  - discriminate.
  - reflexivity.
  - lia.
Defined.

(** C5 on the code: one class, one ground truth and no prediction; the
    class has no row, [num_TP] is still unbound when the sentinel is
    appended, and the constructor raises. *)
Theorem init_without_detection_raises :
  PR_func_init iou_xywh ["person"%string] (1 # 2) (Some 100%Z) [img_no_pred]
  = inl UnboundLocalError.
Proof. vm_compute. reflexivity. Qed.

(** When a class without rows follows a class with rows, [num_TP] still
    holds the count of the earlier class: the second class of
    [img_two_classes] has a ground truth and no prediction, and its sentinel
    gets recall 1. *)
Lemma init_reuses_earlier_num_TP :
  PR_func_init iou_xywh ["person"%string; "car"%string] (1 # 2) (Some 100%Z)
               [img_two_classes]
  = inr (mk_PR_func 2 ["person"%string; "car"%string]
                    [[1; 0]; [0]] [[1; 1]; [1]]).
Proof. vm_compute. reflexivity. Qed.

(** ** Querying a constructed object *)

(** The two sequences a constructed object holds for a class. *)
Lemma PR_func_init_sequences (cal_iou : xywhcp -> xywhcp -> Q)
    (names : list string) (thr : Q) (max_per_img : option Z)
    (imgs : list image) (f : PR_func) (k : nat) :
  PR_func_init cal_iou names thr max_per_img imgs = inr f ->
  (k < class_num f)%nat ->
  exists ps rs,
    precisions f !! k = Some ps
    /\ recalls f !! k = Some rs
    /\ length ps = length rs
    /\ (0 < length rs)%nat
    /\ nondecreasing rs.
Proof.
  intros Hinit Hk.
  destruct (PR_func_init_lengths _ _ _ _ _ _ Hinit) as (Hn & _ & _).
  rewrite Hn in Hk.
  destruct (PR_func_init_slot _ _ _ _ _ _ k Hinit Hk)
    as (num_TP & cst & Hcls & Hp & Hr).
  apply class_curve_shape in Hcls.
  destruct Hcls as (ps & rs & r & Eps & Ers & Hlp & Hlr & Hmono).
  exists (cs_precisions cst), (cs_recalls cst).
  rewrite Eps, Ers in *. rewrite !length_app. simpl.
  repeat split; auto; lia.
Qed.

(** The precisions a constructed object holds are never negative: they are
    sequences the smoothing pass is stated for. *)
Lemma PR_func_init_precisions_nonneg (cal_iou : xywhcp -> xywhcp -> Q)
    (names : list string) (thr : Q) (max_per_img : option Z)
    (imgs : list image) (f : PR_func) (k : nat) (ps : list Q) (p : Q) :
  PR_func_init cal_iou names thr max_per_img imgs = inr f ->
  precisions f !! k = Some ps -> In p ps -> 0 <= p.
Proof.
  intros Hinit Hps Hp.
  destruct (PR_func_init_lengths _ _ _ _ _ _ Hinit) as (_ & Hlp & _).
  pose proof (lookup_lt_Some _ _ _ Hps) as Hk. rewrite Hlp in Hk.
  destruct (PR_func_init_slot _ _ _ _ _ _ k Hinit Hk)
    as (num_TP & cst & Hcls & Hp' & _).
  rewrite Hp' in Hps. injection Hps as <-.
  eapply class_curve_precisions_nonneg; eassumption.
Qed.

Lemma py_index_in_range {A : Type} (l : list A) (i : Z) (k : nat) (a : A) :
  (if (i <? 0)%Z then Z.of_nat (length l) + i else i)%Z = Z.of_nat k ->
  l !! k = Some a ->
  py_index l i = inr a.
Proof.
  intros Hk Ha. unfold py_index. cbv zeta. rewrite Hk.
  destruct (Z.ltb_spec (Z.of_nat k) 0) as [H|_]; [lia|].
  rewrite Nat2Z.id, Ha. reflexivity.
Qed.

Lemma py_index_out_of_range {A : Type} (l : list A) (i : Z) :
  (i < - Z.of_nat (length l) \/ Z.of_nat (length l) <= i)%Z ->
  py_index l i = inl IndexError.
Proof.
  intros H. unfold py_index. cbv zeta.
  destruct (Z.ltb_spec i 0) as [Hneg|Hpos].
  - destruct (Z.ltb_spec (Z.of_nat (length l) + i) 0) as [_|H2];
      [reflexivity|lia].
  - destruct (Z.ltb_spec i 0) as [H2|_]; [lia|].
    rewrite (lookup_ge_None_2 l (Z.to_nat i)) by lia. reflexivity.
Qed.

(** [l[-k:]] for a [k] between 1 and the length: the last [k] entries. *)
Lemma py_slice_last {A : Type} (k : nat) (l : list A) :
  (0 < k <= length l)%nat ->
  py_slice_from (- Z.of_nat k) l = drop (length l - k) l.
Proof.
  intros Hk. unfold py_slice_from. cbv zeta.
  destruct (Z.ltb_spec (- Z.of_nat k) 0) as [_|H]; [|lia].
  f_equal. lia.
Qed.

Lemma filter_none {A : Type} (p : A -> bool) (l : list A) :
  (forall x, In x l -> p x = false) -> List.filter p l = [].
Proof.
  induction l as [|x l IH]; intros H; simpl; [reflexivity|].
  rewrite (H x) by now left. apply IH. intros y Hy. apply H. now right.
Qed.

Lemma filter_all {A : Type} (p : A -> bool) (l : list A) :
  (forall x, In x l -> p x = true) -> List.filter p l = l.
Proof.
  induction l as [|x l IH]; intros H; simpl; [reflexivity|].
  rewrite (H x) by now left. f_equal. apply IH. intros y Hy. apply H. now right.
Qed.

Lemma In_lookup {A : Type} (l : list A) (x : A) :
  In x l -> exists i, l !! i = Some x.
Proof. intros H. apply list_elem_of_lookup, list_elem_of_In, H. Qed.

Lemma lookup_In {A : Type} (l : list A) (i : nat) (x : A) :
  l !! i = Some x -> In x l.
Proof. intros H. eapply list_elem_of_In, list_elem_of_lookup_2, H. Qed.

(** On recalls that never decrease, the entries above [r] are the suffix
    that starts at the first of them. *)
Lemma count_above_from_first (r : Q) (rs : list Q) (k : nat) (rk : Q) :
  nondecreasing rs ->
  rs !! k = Some rk -> r < rk ->
  (forall i ri, (i < k)%nat -> rs !! i = Some ri -> ri <= r) ->
  length (List.filter (fun x => Qltb r x) rs) = (length rs - k)%nat.
Proof.
  intros Hmono Hk Hrk Hbefore.
  rewrite <- (take_drop k rs) at 1. rewrite List.filter_app.
  rewrite filter_none, filter_all; simpl.
  - apply length_drop.
  - intros x Hx. apply In_lookup in Hx. destruct Hx as (i & Hi).
    rewrite lookup_drop in Hi. apply Qltb_lt.
    eapply Qlt_le_trans; [exact Hrk|].
    apply (Hmono k (k + i)%nat rk x); [lia|exact Hk|exact Hi].
  - intros x Hx. apply In_lookup in Hx. destruct Hx as (i & Hi).
    apply lookup_take_Some in Hi. destruct Hi as [Hi Hlt].
    apply Qltb_ge. eapply Hbefore; eauto.
Qed.

(** A call whose index selects class [k], with the sequences of that class
    substituted. *)
Lemma PR_call_selects (f : PR_func) (r : Q) (c : Z) (k : nat) (ps rs : list Q) :
  length (precisions f) = class_num f ->
  length (recalls f) = class_num f ->
  (c < Z.of_nat (class_num f))%Z ->
  (if (c <? 0)%Z then Z.of_nat (class_num f) + c else c)%Z = Z.of_nat k ->
  precisions f !! k = Some ps ->
  recalls f !! k = Some rs ->
  PR_call f r c
  = let pc_idx := length (List.filter (fun x => Qltb r x) rs) in
    if (pc_idx =? 0)%nat then inr 0
    else match py_slice_from (- Z.of_nat pc_idx) ps with
         | [] => inl ValueError
         | x :: l => inr (np_max (x :: l))
         end.
Proof.
  intros Hlp Hlr Hc Hk Hps Hrs. unfold PR_call.
  destruct (Z.leb_spec (Z.of_nat (class_num f)) c) as [H|_]; [lia|].
  rewrite (py_index_in_range (precisions f) c k ps), (py_index_in_range (recalls f) c k rs);
    try assumption; try (rewrite ?Hlp, ?Hlr; exact Hk).
  reflexivity.
Qed.

(** C4: on a constructed object and a class index in [0, class_num), the
    call returns 0 when no recall of the class exceeds [r]; otherwise, with
    [k] the first index whose recall exceeds [r], it returns the largest
    precision among the entries from [k] to the end. *)
Theorem call_is_precision_envelope (cal_iou : xywhcp -> xywhcp -> Q)
    (names : list string) (thr : Q) (max_per_img : option Z)
    (imgs : list image) (f : PR_func) (r : Q) (c : Z) :
  PR_func_init cal_iou names thr max_per_img imgs = inr f ->
  (0 <= c < Z.of_nat (class_num f))%Z ->
  exists ps rs,
    precisions f !! Z.to_nat c = Some ps
    /\ recalls f !! Z.to_nat c = Some rs
    /\ ((forall x, In x rs -> x <= r) -> PR_call f r c = inr 0)
    /\ (forall (k : nat) (rk : Q),
          rs !! k = Some rk -> r < rk ->
          (forall i ri, (i < k)%nat -> rs !! i = Some ri -> ri <= r) ->
          exists v,
            PR_call f r c = inr v
            /\ In v (drop k ps)
            /\ forall x, In x (drop k ps) -> x <= v).
Proof.
  intros Hinit Hc.
  destruct (PR_func_init_lengths _ _ _ _ _ _ Hinit) as (Hn & Hlp & Hlr).
  rewrite <- Hn in Hlp, Hlr.
  destruct (PR_func_init_sequences _ _ _ _ _ _ (Z.to_nat c) Hinit)
    as (ps & rs & Hps & Hrs & Hlen & Hpos & Hmono); [lia|].
  exists ps, rs. split; [exact Hps|]. split; [exact Hrs|].
  assert (Hcall := PR_call_selects f r c (Z.to_nat c) ps rs Hlp Hlr
                     ltac:(lia)).
  destruct (Z.ltb_spec c 0) as [Hneg|_]; [lia|].
  specialize (Hcall ltac:(lia) Hps Hrs). cbv zeta in Hcall.
  split.
  - intros Hnone. rewrite Hcall, filter_none; [reflexivity|].
    intros x Hx. apply Qltb_ge, Hnone, Hx.
  - intros k rk Hk Hrk Hbefore.
    rewrite (count_above_from_first r rs k rk Hmono Hk Hrk Hbefore) in Hcall.
    pose proof (lookup_lt_Some _ _ _ Hk) as Hklt.
    destruct (Nat.eqb_spec (length rs - k) 0) as [E|_]; [lia|].
    rewrite py_slice_last in Hcall by lia.
    replace (length ps - (length rs - k))%nat with k in Hcall by lia.
    destruct (drop k ps) as [|x l] eqn:Edrop.
    + exfalso. apply (f_equal length) in Edrop.
      rewrite length_drop in Edrop. simpl in Edrop. lia.
    + exists (np_max (x :: l)). split; [exact Hcall|]. split.
      * apply np_max_in. discriminate.
      * intros y Hy. apply np_max_upper, Hy.
Qed.

Lemma call_is_precision_envelope_witness :
  exists ps rs,
    [[1; 1; 0]] !! Z.to_nat 0 = Some ps
    /\ [[1; 1; 1]] !! Z.to_nat 0 = Some rs
    /\ ((forall x, In x rs -> x <= 1 # 2) ->
        PR_call (mk_PR_func 1 ["person"%string] [[1; 1; 0]] [[1; 1; 1]])
                (1 # 2) 0 = inr 0)
    /\ (forall (k : nat) (rk : Q),
          rs !! k = Some rk -> 1 # 2 < rk ->
          (forall i ri, (i < k)%nat -> rs !! i = Some ri -> ri <= 1 # 2) ->
          exists v,
            PR_call (mk_PR_func 1 ["person"%string] [[1; 1; 0]] [[1; 1; 1]])
                    (1 # 2) 0 = inr v
            /\ In v (drop k ps)
            /\ forall x, In x (drop k ps) -> x <= v).
Proof.
  apply (call_is_precision_envelope iou_xywh ["person"%string] (1 # 2) None
           [img_two_preds]
           (mk_PR_func 1 ["person"%string] [[1; 1; 0]] [[1; 1; 1]])
           (1 # 2) 0%Z).
  - reflexivity.
  - simpl. lia.
Defined.

(** C6, as the code has it: on a constructed object the call raises
    [IndexError] when [class_idx] is at least [class_num] or below
    [-class_num]; for every index from [-class_num] up to [class_num - 1] it
    returns a precision, a negative index [class_idx] answering for the class
    [class_num + class_idx]. *)
Theorem call_index_error (cal_iou : xywhcp -> xywhcp -> Q)
    (names : list string) (thr : Q) (max_per_img : option Z)
    (imgs : list image) (f : PR_func) (r : Q) (c : Z) :
  PR_func_init cal_iou names thr max_per_img imgs = inr f ->
  ((Z.of_nat (class_num f) <= c \/ c < - Z.of_nat (class_num f))%Z ->
     PR_call f r c = inl IndexError)
  /\ ((- Z.of_nat (class_num f) <= c < Z.of_nat (class_num f))%Z ->
     exists v, PR_call f r c = inr v)
  /\ ((- Z.of_nat (class_num f) <= c < 0)%Z ->
     PR_call f r c = PR_call f r (Z.of_nat (class_num f) + c)).
Proof.
  intros Hinit.
  destruct (PR_func_init_lengths _ _ _ _ _ _ Hinit) as (Hn & Hlp & Hlr).
  rewrite <- Hn in Hlp, Hlr.
  assert (Hsel : forall c' : Z,
            (- Z.of_nat (class_num f) <= c' < Z.of_nat (class_num f))%Z ->
            exists k ps rs,
              (if (c' <? 0)%Z then Z.of_nat (class_num f) + c' else c')%Z
              = Z.of_nat k
              /\ precisions f !! k = Some ps /\ recalls f !! k = Some rs
              /\ length ps = length rs /\ (0 < length rs)%nat).
  { intros c' Hin.
    exists (Z.to_nat (if (c' <? 0)%Z then Z.of_nat (class_num f) + c' else c')).
    destruct (PR_func_init_sequences _ _ _ _ _ _
                (Z.to_nat (if (c' <? 0)%Z
                           then Z.of_nat (class_num f) + c' else c')) Hinit)
      as (ps & rs & Hps & Hrs & Hlen & Hpos & _).
    { destruct (Z.ltb_spec c' 0); lia. }
    exists ps, rs. repeat split; auto.
    destruct (Z.ltb_spec c' 0); lia. }
  split; [|split].
  - intros Hout. unfold PR_call.
    destruct (Z.leb_spec (Z.of_nat (class_num f)) c) as [_|Hlt];
      [reflexivity|].
    rewrite py_index_out_of_range by (rewrite Hlp; lia). reflexivity.
  - intros Hin.
    destruct (Hsel c Hin) as (k & ps & rs & Hk & Hps & Hrs & Hlen & Hpos).
    rewrite (PR_call_selects f r c k ps rs Hlp Hlr ltac:(lia) Hk Hps Hrs).
    cbv zeta.
    pose proof (List.filter_length_le (fun x => Qltb r x) rs) as Hle.
    destruct (Nat.eqb_spec (length (List.filter (fun x => Qltb r x) rs)) 0)
      as [_|Hnz]; [eauto|].
    rewrite py_slice_last by lia.
    destruct (drop _ ps) as [|x l] eqn:Edrop; [|eauto].
    exfalso. apply (f_equal length) in Edrop.
    rewrite length_drop in Edrop. simpl in Edrop. lia.
  - intros Hneg.
    destruct (Hsel c ltac:(lia)) as (k & ps & rs & Hk & Hps & Hrs & _).
    rewrite (PR_call_selects f r c k ps rs Hlp Hlr ltac:(lia) Hk Hps Hrs).
    rewrite (PR_call_selects f r (Z.of_nat (class_num f) + c) k ps rs
               Hlp Hlr ltac:(lia)); try assumption; [reflexivity|].
    destruct (Z.ltb_spec c 0) as [_|H]; [|lia].
    destruct (Z.ltb_spec (Z.of_nat (class_num f) + c) 0) as [H|_]; lia.
Qed.

Lemma call_index_error_witness :
  ((Z.of_nat 1 <= -1 \/ -1 < - Z.of_nat 1)%Z ->
     PR_call (mk_PR_func 1 ["person"%string] [[1; 1; 0]] [[1; 1; 1]])
             (1 # 2) (-1) = inl IndexError)
  /\ ((- Z.of_nat 1 <= -1 < Z.of_nat 1)%Z ->
     exists v,
       PR_call (mk_PR_func 1 ["person"%string] [[1; 1; 0]] [[1; 1; 1]])
               (1 # 2) (-1) = inr v)
  /\ ((- Z.of_nat 1 <= -1 < 0)%Z ->
     PR_call (mk_PR_func 1 ["person"%string] [[1; 1; 0]] [[1; 1; 1]])
             (1 # 2) (-1)
     = PR_call (mk_PR_func 1 ["person"%string] [[1; 1; 0]] [[1; 1; 1]])
               (1 # 2) (Z.of_nat 1 + -1)).
Proof.
  apply (call_index_error iou_xywh ["person"%string] (1 # 2) None
           [img_two_preds]
           (mk_PR_func 1 ["person"%string] [[1; 1; 0]] [[1; 1; 1]])
           (1 # 2) (-1)%Z).
  reflexivity.
Defined.

(** C6 fails as stated: on the object built from [img_two_preds] (one
    class) the index -1 lies outside [0, class_num), yet the call returns the
    precision of the last class and raises nothing. *)
Lemma call_negative_index_returns :
  exists f,
    PR_func_init iou_xywh ["person"%string] (1 # 2) None [img_two_preds]
    = inr f
    /\ class_num f = 1%nat
    /\ PR_call f (1 # 2) (-1) = inr 1
    /\ PR_call f (1 # 2) (-1) <> inl IndexError.
Proof.
  eexists. split; [vm_compute; reflexivity|].
  split; [reflexivity|]. split; [reflexivity|]. discriminate.
Qed.

(** ** Smoothing *)

Lemma running_max_fst_length (l : list Q) (m : Q) :
  length (fst (running_max l m)) = length l.
Proof.
  induction l as [|p l IH]; simpl; [reflexivity|].
  destruct (running_max l m) as [out m']. simpl in IH.
  destruct (Qltb m' p); simpl; now rewrite IH.
Qed.

Lemma running_max_snoc (l : list Q) (x m : Q) :
  running_max (l ++ [x]) m
  = let x' := if Qltb m x then x else m in
    (fst (running_max l x') ++ [x'], snd (running_max l x')).
Proof.
  induction l as [|p l IH]; simpl.
  - destruct (Qltb m x); reflexivity.
  - rewrite IH. cbv zeta.
    destruct (running_max l (if Qltb m x then x else m)) as [out m'].
    simpl. destruct (Qltb m' p); reflexivity.
Qed.

(** The index loop only touches the part of the array it ranges over. *)
Lemma smooth_loop_prefix (l : list Q) :
  forall (tail : list Q) (m : Q),
  fold_left smooth_body (rev (seq 0 (length l))) (l ++ tail, m)
  = (fst (running_max l m) ++ tail, snd (running_max l m)).
Proof.
  induction l as [|x l IH] using rev_ind; intros tail m.
  - reflexivity.
  - rewrite length_app, Nat.add_comm. simpl length.
    rewrite seq_S, rev_app_distr. simpl.
    rewrite <- app_assoc. simpl.
    rewrite (list_lookup_middle l tail x (length l) eq_refl).
    rewrite running_max_snoc. cbv zeta.
    destruct (Qltb m x) eqn:E.
    + rewrite IH. simpl. rewrite <- app_assoc. reflexivity.
    + rewrite insert_app_r_alt by lia.
      rewrite Nat.sub_diag. simpl.
      rewrite IH. simpl. rewrite <- app_assoc. reflexivity.
Qed.

(** The loop of the source computes the traversal from the right. *)
Lemma smooth_running_max (ps : list Q) : smooth ps = fst (running_max ps 0).
Proof.
  unfold smooth.
  pose proof (smooth_loop_prefix ps [] 0) as H.
  rewrite !app_nil_r in H. rewrite H. reflexivity.
Qed.

Lemma running_max_snd_ge_init (l : list Q) (m : Q) :
  m <= snd (running_max l m).
Proof.
  induction l as [|p l IH]; simpl; [apply Qle_refl|].
  destruct (running_max l m) as [out m']. simpl in IH.
  destruct (Qltb m' p) eqn:E; simpl; [|exact IH].
  eapply Qle_trans; [exact IH|]. apply Qlt_le_weak, Qltb_lt, E.
Qed.

Lemma running_max_snd_cons (p : Q) (l : list Q) (m : Q) :
  snd (running_max l m) <= snd (running_max (p :: l) m)
  /\ p <= snd (running_max (p :: l) m).
Proof.
  simpl. destruct (running_max l m) as [out m']. simpl.
  destruct (Qltb m' p) eqn:E; simpl.
  - split; [apply Qlt_le_weak, Qltb_lt, E|apply Qle_refl].
  - split; [apply Qle_refl|apply Qltb_ge, E].
Qed.

Lemma running_max_snd_upper (l : list Q) (m x : Q) :
  In x l -> x <= snd (running_max l m).
Proof.
  induction l as [|p l IH]; [contradiction|].
  destruct (running_max_snd_cons p l m) as [Hrest Hhead].
  intros [->|Hin]; [exact Hhead|].
  eapply Qle_trans; [apply IH, Hin|exact Hrest].
Qed.

Lemma running_max_snd_in (l : list Q) (m : Q) :
  snd (running_max l m) = m \/ In (snd (running_max l m)) l.
Proof.
  induction l as [|p l IH]; simpl; [now left|].
  destruct (running_max l m) as [out m']. simpl in IH.
  destruct (Qltb m' p); simpl; [right; now left|].
  destruct IH as [E|Hin]; auto.
Qed.

(** Entry [i] of the result is the running maximum of the suffix at [i]. *)
Lemma running_max_lookup (l : list Q) (m : Q) (i : nat) (v : Q) :
  fst (running_max l m) !! i = Some v ->
  v = snd (running_max (drop i l) m).
Proof.
  revert i. induction l as [|p l IH]; intros i H; [discriminate|].
  destruct i as [|i].
  - simpl in *. destruct (running_max l m) as [out m'].
    destruct (Qltb m' p); simpl in *; congruence.
  - simpl drop. apply IH. simpl in H.
    destruct (running_max l m) as [out m'].
    destruct (Qltb m' p); simpl in *; exact H.
Qed.

Lemma running_max_suffix_mono (l : list Q) (m : Q) (i j : nat) :
  (i <= j)%nat ->
  snd (running_max (drop j l) m) <= snd (running_max (drop i l) m).
Proof.
  induction 1 as [|j Hij IH]; [apply Qle_refl|].
  eapply Qle_trans; [|exact IH].
  destruct (l !! j) as [x|] eqn:E.
  - rewrite (drop_S l x j E). apply running_max_snd_cons.
  - apply lookup_ge_None in E.
    rewrite !drop_ge by lia. apply Qle_refl.
Qed.

(** C9: the smoothing pass keeps the length; on a sequence of precisions
    (entries at least 0) entry [i] of the result is the maximum of the
    original entries from [i] to the end; and the result never increases with
    the index, so it never decreases towards rank 0. *)
Theorem smoothing_is_suffix_maximum (ps : list Q) :
  (forall p, In p ps -> 0 <= p) ->
  length (smooth ps) = length ps
  /\ (forall (i : nat) (v : Q),
        smooth ps !! i = Some v ->
        (forall x, In x (drop i ps) -> x <= v)
        /\ exists x, In x (drop i ps) /\ x == v)
  /\ (forall (i j : nat) (x y : Q),
        (i <= j)%nat ->
        smooth ps !! i = Some x -> smooth ps !! j = Some y -> y <= x).
Proof.
  intros Hnonneg. rewrite smooth_running_max.
  split; [apply running_max_fst_length|]. split.
  - intros i v Hv.
    pose proof (lookup_lt_Some _ _ _ Hv) as Hi.
    rewrite running_max_fst_length in Hi.
    apply running_max_lookup in Hv. subst v. split.
    + intros x Hx. apply running_max_snd_upper, Hx.
    + destruct (running_max_snd_in (drop i ps) 0) as [E|Hin].
      * destruct (drop i ps) as [|x l] eqn:Edrop.
        { apply (f_equal length) in Edrop. rewrite length_drop in Edrop.
          simpl in Edrop. lia. }
        exists x. split; [now left|].
        rewrite E. apply Qle_antisym.
        -- rewrite <- E. apply running_max_snd_upper. now left.
        -- apply Hnonneg. apply (lookup_In ps i).
           rewrite <- (Nat.add_0_r i), <- lookup_drop, Edrop. reflexivity.
      * exists (snd (running_max (drop i ps) 0)). split; [exact Hin|].
        apply Qeq_refl.
  - intros i j x y Hij Hx Hy.
    apply running_max_lookup in Hx, Hy. subst x y.
    apply running_max_suffix_mono, Hij.
Qed.

Lemma smoothing_is_suffix_maximum_witness :
  length (smooth [1 # 2; 1 # 3; 3 # 4; 1 # 5; 0])
  = length [1 # 2; 1 # 3; 3 # 4; 1 # 5; 0]
  /\ (forall (i : nat) (v : Q),
        smooth [1 # 2; 1 # 3; 3 # 4; 1 # 5; 0] !! i = Some v ->
        (forall x, In x (drop i [1 # 2; 1 # 3; 3 # 4; 1 # 5; 0]) -> x <= v)
        /\ exists x, In x (drop i [1 # 2; 1 # 3; 3 # 4; 1 # 5; 0]) /\ x == v)
  /\ (forall (i j : nat) (x y : Q),
        (i <= j)%nat ->
        smooth [1 # 2; 1 # 3; 3 # 4; 1 # 5; 0] !! i = Some x ->
        smooth [1 # 2; 1 # 3; 3 # 4; 1 # 5; 0] !! j = Some y -> y <= x).
Proof.
  apply (smoothing_is_suffix_maximum [1 # 2; 1 # 3; 3 # 4; 1 # 5; 0]).
  intros p Hp. simpl in Hp.
  repeat (destruct Hp as [<-|Hp]; [discriminate|]). contradiction.
Defined.

(** ** Average precision by area *)

Lemma for_each_ext {S : Type} (idxs : list nat)
    (body body' : S -> nat -> result S) (st : S) :
  (forall s i, In i idxs -> body s i = body' s i) ->
  for_each idxs body st = for_each idxs body' st.
Proof.
  revert st. induction idxs as [|i idxs IH]; intros st H; simpl;
    [reflexivity|].
  rewrite (H st i) by now left.
  destruct (body' st i) as [e|st']; simpl; [reflexivity|].
  apply IH. intros s j Hj. apply H. now right.
Qed.

Lemma for_each_shift {S : Type} (idxs : list nat)
    (body : S -> nat -> result S) (st : S) :
  for_each (map Datatypes.S idxs) body st
  = for_each idxs (fun s i => body s (Datatypes.S i)) st.
Proof.
  revert st. induction idxs as [|i idxs IH]; intros st; simpl;
    [reflexivity|].
  destruct (body st (Datatypes.S i)) as [e|st']; simpl; [reflexivity|].
  apply IH.
Qed.

(** The loop of the source, started at [ap], adds the trapezoid sum. *)
Lemma area_loop_trapezoid (ps : list Q) :
  forall (rs : list Q) (ap : Q),
  length ps = length rs ->
  exists v,
    for_each (seq 0 (length ps - 1)) (area_body ps rs) ap = inr v
    /\ v == ap + trapezoid rs ps.
Proof.
  induction ps as [|p0 ps IH]; intros rs ap Hlen.
  - exists ap. split; [reflexivity|].
    destruct rs; [|discriminate]. simpl. ring.
  - destruct rs as [|r0 rs]; [discriminate|].
    destruct ps as [|p1 ps].
    + exists ap. split; [reflexivity|].
      destruct rs; [|discriminate]. simpl. ring.
    + destruct rs as [|r1 rs]; [discriminate|].
      replace (length (p0 :: p1 :: ps) - 1)%nat
        with (Datatypes.S (length (p1 :: ps) - 1)) by (simpl; lia).
      rewrite <- cons_seq, <- seq_shift.
      cbn [for_each]. unfold area_body at 1. cbn [np_get lookup list_lookup
        Nat.add bind ret].
      rewrite for_each_shift.
      rewrite (for_each_ext _ _ (area_body (p1 :: ps) (r1 :: rs)))
        by (intros s i _; unfold area_body; reflexivity).
      destruct (IH (r1 :: rs) (ap + (r1 - r0) * ((p1 - p0) / 2 + p0)))
        as (v & Hv & Ev); [simpl in *; lia|].
      exists v. split; [exact Hv|].
      rewrite Ev. cbn [trapezoid]. field.
Qed.

Lemma for_each_fill {A : Type} (g : nat -> result A) (h : nat -> A)
    (cs : list nat) :
  NoDup cs ->
  forall init : list A,
  (forall i, In i cs -> (i < length init)%nat /\ g i = inr (h i)) ->
  exists out,
    for_each cs (fun aps i => ap <- g i; ret (<[i := ap]> aps)) init = inr out
    /\ length out = length init
    /\ (forall i, In i cs -> out !! i = Some (h i))
    /\ (forall i, ~ In i cs -> out !! i = init !! i).
Proof.
  induction 1 as [|a cs Hnotin Hnd IH]; intros init Hg.
  - exists init. simpl. repeat split; auto. contradiction.
  - destruct (Hg a ltac:(now left)) as [Ha Ega].
    destruct (IH (<[a := h a]> init)) as (out & Hrun & Hlen & Hin & Hout).
    { intros i Hi. rewrite length_insert. apply Hg. now right. }
    exists out. simpl. rewrite Ega. simpl. split; [exact Hrun|].
    rewrite length_insert in Hlen. split; [exact Hlen|]. split.
    + intros i [<-|Hi]; [|apply Hin, Hi].
      rewrite Hout by (intros Hc; apply Hnotin, list_elem_of_In, Hc).
      apply list_lookup_insert_eq, Ha.
    + intros i Hi. rewrite Hout by (intros Hc; apply Hi; now right).
      apply list_lookup_insert_ne. intros ->. apply Hi. now left.
Qed.

Lemma class_ap_area (f : PR_func) (c : nat) (ps rs : list Q) :
  precisions f !! c = Some ps ->
  recalls f !! c = Some rs ->
  length ps = length rs ->
  exists ap, class_ap f area c = inr ap /\ ap == trapezoid rs ps.
Proof.
  intros Hps Hrs Hlen. unfold class_ap.
  rewrite (py_index_in_range (precisions f) (Z.of_nat c) c ps),
          (py_index_in_range (recalls f) (Z.of_nat c) c rs);
    try assumption;
    try (destruct (Z.ltb_spec (Z.of_nat c) 0); [lia|reflexivity]).
  simpl. unfold area_class.
  destruct (area_loop_trapezoid ps rs 0 Hlen) as (v & Hv & Ev).
  exists v. split; [exact Hv|]. rewrite Ev. ring.
Qed.

(** C8: on an object with at least one class, [get_map] in mode "area"
    returns a table whose row for each class holds the trapezoid sum of the
    raw sequence of the class: the sum over consecutive points of the step of
    recall times the average of the two precisions.  On the two points
    (recall 0, precision 1) and (recall 1, precision 1) the average precision
    equals 1. *)
Theorem area_is_trapezoid_sum (f : PR_func) :
  PR_wf f -> (0 < class_num f)%nat ->
  (exists table,
     get_map f area = inr table
     /\ forall (c : nat) (name : string) (ps rs : list Q),
          class_names f !! c = Some name ->
          precisions f !! c = Some ps ->
          recalls f !! c = Some rs ->
          exists ap, table !! c = Some (name, ap) /\ ap == trapezoid rs ps)
  /\ exists ap mAP,
       get_map two_point_curve area
       = inr [("person"%string, ap); ("mAP"%string, mAP)]
       /\ ap == 1 /\ mAP == 1.
Proof.
  intros (Hnames & Hlp & Hlr & Hlens) Hpos. split.
  - set (h := fun c => match class_ap f area c with
                       | inr v => v
                       | inl _ => 0
                       end).
    destruct (for_each_fill (class_ap f area) h (seq 0 (class_num f))
                (NoDup_seq 0 (class_num f)) (replicate (class_num f) 0))
      as (out & Hrun & Hlen & Hin & _).
    { intros i Hi. apply in_seq in Hi. rewrite length_replicate.
      split; [lia|].
      destruct (lookup_lt_is_Some_2 (precisions f) i ltac:(lia)) as [ps Hps].
      destruct (lookup_lt_is_Some_2 (recalls f) i ltac:(lia)) as [rs Hrs].
      destruct (class_ap_area f i ps rs Hps Hrs (Hlens _ _ _ Hps Hrs))
        as (ap & Hap & _).
      unfold h. rewrite Hap. reflexivity. }
    rewrite length_replicate in Hlen.
    unfold get_map. rewrite Hrun. simpl.
    destruct (Nat.eqb_spec (length out) 0) as [E|_]; [lia|].
    eexists. split; [reflexivity|].
    intros c name ps rs Hname Hps Hrs.
    pose proof (lookup_lt_Some _ _ _ Hname) as Hc. rewrite Hnames in Hc.
    destruct (class_ap_area f c ps rs Hps Hrs (Hlens _ _ _ Hps Hrs))
      as (ap & Hap & Eap).
    exists ap. split; [|exact Eap].
    rewrite lookup_zip_with.
    rewrite (lookup_app_l_Some _ _ _ _ Hname). simpl.
    rewrite (lookup_app_l_Some _ _ c (h c)).
    + unfold h. rewrite Hap. reflexivity.
    + apply Hin, in_seq. lia.
  - do 2 eexists. split; [vm_compute; reflexivity|].
    split; reflexivity.
Qed.

Lemma area_is_trapezoid_sum_witness :
  (exists table,
     get_map two_point_curve area = inr table
     /\ forall (c : nat) (name : string) (ps rs : list Q),
          class_names two_point_curve !! c = Some name ->
          precisions two_point_curve !! c = Some ps ->
          recalls two_point_curve !! c = Some rs ->
          exists ap, table !! c = Some (name, ap) /\ ap == trapezoid rs ps)
  /\ exists ap mAP,
       get_map two_point_curve area
       = inr [("person"%string, ap); ("mAP"%string, mAP)]
       /\ ap == 1 /\ mAP == 1.
Proof.
  apply (area_is_trapezoid_sum two_point_curve).
  - repeat split.
    intros [|[|c]] ps rs Hps Hrs; simpl in Hps, Hrs; try discriminate.
    injection Hps as <-. injection Hrs as <-. reflexivity.
  - simpl. lia.
Defined.

(** * Further properties of the score table *)

Section ScoreRows.

Variable cal_iou : xywhcp -> xywhcp -> Q.
Variable thr : Q.

(** A row of the table is the row of its class. *)
Lemma table_row_inv (names : list string) (mode : Z) (imgs : list image)
    (c : nat) (name : string) (row : score_row) :
  create_score_mat cal_iou names thr mode imgs !! c = Some (name, row) ->
  names !! c = Some name
  /\ row = make_row (swept_TP cal_iou thr mode c imgs)
                    (swept_denom cal_iou thr mode c imgs)
                    (sumZ (num_PP_of c) imgs).
Proof.
  intros Hrow.
  assert (Hname : names !! c = Some name).
  { unfold create_score_mat in Hrow. cbv zeta in Hrow.
    apply lookup_zip_with_Some in Hrow.
    destruct Hrow as (x & y & E & Hx & _). congruence. }
  split; [exact Hname|].
  rewrite (score_row_of cal_iou thr mode names imgs c name Hname) in Hrow.
  congruence.
Qed.

Lemma some_TP_some_TPP (trues preds : list xywhcp) :
  preds <> [] ->
  (0 < count_ge thr (best_ious_true cal_iou trues preds))%nat ->
  (0 < count_ge thr (best_ious_pred cal_iou trues preds))%nat.
Proof.
  intros Hne. rewrite !count_ge_pos.
  intros (v & Hin & Hv). unfold best_ious_true in Hin.
  apply in_map_iff in Hin. destruct Hin as (t & <- & Ht).
  apply np_max_passes in Hv.
  2:{ destruct preds; [congruence|discriminate]. }
  destruct Hv as (x & Hx & Hthr).
  apply in_map_iff in Hx. destruct Hx as (p & <- & Hp).
  exists (np_max (map (fun t0 => cal_iou t0 p) trues)). split.
  - unfold best_ious_pred. apply in_map_iff. exists p. auto.
  - apply np_max_passes.
    + destruct trues; [contradiction|discriminate].
    + exists (cal_iou t p). split; [|exact Hthr].
      apply in_map_iff. exists t. auto.
Qed.

Lemma num_TPP_zero_TP_zero (c : nat) (img : image) :
  num_TPP_of cal_iou thr c img = 0%Z -> num_TP_of cal_iou thr c img = 0%Z.
Proof.
  unfold num_TP_of, num_TPP_of.
  destruct (both_present c img) eqn:E; [|reflexivity].
  apply both_present_inv in E. destruct E as [_ Hp].
  intros H0.
  pose proof (some_TP_some_TPP (of_class c (xywhcp_true img))
                (of_class c (xywhcp_pred img)) Hp).
  lia.
Qed.

Lemma sum_TPP_zero_TP_zero (c : nat) (imgs : list image) :
  sumZ (num_TPP_of cal_iou thr c) imgs = 0%Z ->
  sumZ (num_TP_of cal_iou thr c) imgs = 0%Z.
Proof.
  induction imgs as [|img imgs IH]; simpl; [reflexivity|].
  pose proof (num_TPP_of_bounds cal_iou thr c img).
  pose proof (sumZ_bounds (num_TPP_of cal_iou thr c) (num_PP_of c) imgs
                (num_TPP_of_bounds cal_iou thr c)).
  intros Hs.
  rewrite (num_TPP_zero_TP_zero c img) by lia. rewrite IH by lia. reflexivity.
Qed.

Lemma sum_PP_concat (c : nat) (imgs : list image) :
  sumZ (num_PP_of c) imgs
  = Z.of_nat (length (of_class c (concat (map xywhcp_pred imgs)))).
Proof.
  induction imgs as [|img imgs IH]; simpl; [reflexivity|].
  unfold of_class in *. rewrite List.filter_app, length_app, IH.
  unfold num_PP_of, of_class. lia.
Qed.

End ScoreRows.

(** A quotient of two integers [0 <= a <= m], [0 < m], lies in [0, 1]. *)
Lemma ratio_in_unit (a m : Z) :
  (0 <= a <= m)%Z -> (0 < m)%Z ->
  0 <= inject_Z a / inject_Z m /\ inject_Z a / inject_Z m <= 1.
Proof.
  intros Ha Hm. split.
  - change 0 with (inject_Z 0 / inject_Z 1). apply Qdiv_le_cross; lia.
  - change 1 with (inject_Z 1 / inject_Z 1). apply Qdiv_le_cross; lia.
Qed.

(** X1: the columns gts and dets of a class are the numbers of ground truths
    and of predictions of that class in the whole data set, whatever the
    threshold, the precision mode and the overlaps. *)
Theorem score_counts_are_totals (cal_iou : xywhcp -> xywhcp -> Q)
    (names : list string) (thr : Q) (mode : Z) (imgs : list image)
    (c : nat) (name : string) (row : score_row) :
  create_score_mat cal_iou names thr mode imgs !! c = Some (name, row) ->
  col_gts row
  = Z.of_nat (length (of_class c (concat (map xywhcp_true imgs))))
  /\ col_dets row
     = Z.of_nat (length (of_class c (concat (map xywhcp_pred imgs)))).
Proof.
  intros Hrow. apply table_row_inv in Hrow. destruct Hrow as [_ ->].
  unfold make_row, swept_denom. simpl.
  rewrite sum_P_concat, sum_PP_concat. auto.
Qed.

Lemma score_counts_are_totals_witness :
  col_gts (mk_score_row (Finite (2 # 3)) (Finite (2 # 2)) (Finite (48 # 60)) 2 2)
  = Z.of_nat (length (of_class 0 (concat (map xywhcp_true [img_wide]))))
  /\ col_dets
       (mk_score_row (Finite (2 # 3)) (Finite (2 # 2)) (Finite (48 # 60)) 2 2)
     = Z.of_nat (length (of_class 0 (concat (map xywhcp_pred [img_wide])))).
Proof.
  apply (score_counts_are_totals iou_xywh ["person"%string] (1 # 2) 1
           [img_wide] 0 "person"%string).
  reflexivity.
Defined.

(** X2: the precision of a class is nan exactly when the class has no
    prediction in the data set; otherwise it is a number between 0 and 1, in
    either precision mode. *)
Theorem score_precision_range (cal_iou : xywhcp -> xywhcp -> Q)
    (names : list string) (thr : Q) (mode : Z) (imgs : list image)
    (c : nat) (name : string) (row : score_row) :
  create_score_mat cal_iou names thr mode imgs !! c = Some (name, row) ->
  (col_dets row = 0%Z -> col_precision row = NaN)
  /\ (col_dets row <> 0%Z ->
      exists q, col_precision row = Finite q /\ 0 <= q /\ q <= 1).
Proof.
  intros Hrow. apply table_row_inv in Hrow. destruct Hrow as [_ ->].
  pose proof (sumZ_bounds _ _ imgs (num_TPP_of_bounds cal_iou thr c)) as Hb.
  pose proof (sumZ_bounds _ _ imgs (num_TP_of_bounds cal_iou thr c)) as Ha.
  pose proof (sum_TP_zero_TPP_zero cal_iou thr c imgs) as Hz.
  pose proof (sum_TPP_zero_TP_zero cal_iou thr c imgs) as Hz'.
  unfold make_row, swept_TP, swept_denom. simpl.
  set (a := sumZ (num_TP_of cal_iou thr c) imgs) in *.
  set (b := sumZ (num_TPP_of cal_iou thr c) imgs) in *.
  set (n := sumZ (num_PP_of c) imgs) in *.
  split.
  - intros En. assert (Eb : b = 0%Z) by lia.
    rewrite En, Eb, (Hz' Eb). destruct (mode =? 1)%Z; reflexivity.
  - intros En. unfold true_divide.
    destruct (mode =? 1)%Z.
    + assert (Hm : (0 < n - (b - a))%Z).
      { destruct (Z.eq_dec a 0%Z) as [E|E]; [rewrite Hz by exact E|]; lia. }
      destruct (Z.eqb_spec (n - (b - a))%Z 0%Z) as [E|_]; [lia|].
      eexists. split; [reflexivity|]. apply ratio_in_unit; lia.
    + replace (n - 0)%Z with n by lia.
      destruct (Z.eqb_spec n 0%Z) as [E|_]; [lia|].
      eexists. split; [reflexivity|]. apply ratio_in_unit; lia.
Qed.

Lemma score_precision_range_witness :
  (col_dets (mk_score_row (Finite (2 # 3)) (Finite (2 # 2)) (Finite (48 # 60)) 2 2)
   = 0%Z ->
   col_precision
     (mk_score_row (Finite (2 # 3)) (Finite (2 # 2)) (Finite (48 # 60)) 2 2)
   = NaN)
  /\ (col_dets
        (mk_score_row (Finite (2 # 3)) (Finite (2 # 2)) (Finite (48 # 60)) 2 2)
      <> 0%Z ->
      exists q,
        col_precision
          (mk_score_row (Finite (2 # 3)) (Finite (2 # 2)) (Finite (48 # 60)) 2 2)
        = Finite q /\ 0 <= q /\ q <= 1).
Proof.
  apply (score_precision_range iou_xywh ["person"%string] (1 # 2) 1
           [img_wide] 0 "person"%string).
  reflexivity.
Defined.

(** X3: the recall of a class is nan exactly when the class has no ground
    truth in the data set; otherwise it is a number between 0 and 1. *)
Theorem score_recall_range (cal_iou : xywhcp -> xywhcp -> Q)
    (names : list string) (thr : Q) (mode : Z) (imgs : list image)
    (c : nat) (name : string) (row : score_row) :
  create_score_mat cal_iou names thr mode imgs !! c = Some (name, row) ->
  (col_gts row = 0%Z -> col_recall row = NaN)
  /\ (col_gts row <> 0%Z ->
      exists q, col_recall row = Finite q /\ 0 <= q /\ q <= 1).
Proof.
  intros Hrow. apply table_row_inv in Hrow. destruct Hrow as [_ ->].
  pose proof (sumZ_bounds _ _ imgs (num_TP_of_bounds cal_iou thr c)) as Ha.
  unfold make_row, swept_TP, swept_denom. simpl.
  set (a := sumZ (num_TP_of cal_iou thr c) imgs) in *.
  set (g := sumZ (num_P_of c) imgs) in *.
  split.
  - intros Eg. assert (Ea : a = 0%Z) by lia. rewrite Eg, Ea. reflexivity.
  - intros Eg. unfold true_divide.
    destruct (Z.eqb_spec g 0%Z) as [E|_]; [lia|].
    eexists. split; [reflexivity|]. apply ratio_in_unit; lia.
Qed.

Lemma score_recall_range_witness :
  (col_gts (mk_score_row (Finite (2 # 3)) (Finite (2 # 2)) (Finite (48 # 60)) 2 2)
   = 0%Z ->
   col_recall
     (mk_score_row (Finite (2 # 3)) (Finite (2 # 2)) (Finite (48 # 60)) 2 2)
   = NaN)
  /\ (col_gts
        (mk_score_row (Finite (2 # 3)) (Finite (2 # 2)) (Finite (48 # 60)) 2 2)
      <> 0%Z ->
      exists q,
        col_recall
          (mk_score_row (Finite (2 # 3)) (Finite (2 # 2)) (Finite (48 # 60)) 2 2)
        = Finite q /\ 0 <= q /\ q <= 1).
Proof.
  apply (score_recall_range iou_xywh ["person"%string] (1 # 2) 1
           [img_wide] 0 "person"%string).
  reflexivity.
Defined.

(** X4: the columns recall, gts and dets do not depend on the precision
    mode; only the precision (and with it the F1 score) does. *)
Theorem score_recall_mode_independent (cal_iou : xywhcp -> xywhcp -> Q)
    (names : list string) (thr : Q) (mode mode' : Z) (imgs : list image)
    (c : nat) (name name' : string) (row row' : score_row) :
  create_score_mat cal_iou names thr mode imgs !! c = Some (name, row) ->
  create_score_mat cal_iou names thr mode' imgs !! c = Some (name', row') ->
  name = name'
  /\ col_recall row = col_recall row'
  /\ col_gts row = col_gts row'
  /\ col_dets row = col_dets row'.
Proof.
  intros Hrow Hrow'.
  apply table_row_inv in Hrow, Hrow'.
  destruct Hrow as [Hn ->]. destruct Hrow' as [Hn' ->].
  split; [congruence|]. unfold make_row. simpl. auto.
Qed.

Lemma score_recall_mode_independent_witness :
  "person"%string = "person"%string
  /\ col_recall
       (mk_score_row (Finite (2 # 3)) (Finite (2 # 2)) (Finite (48 # 60)) 2 2)
     = col_recall
         (mk_score_row (Finite (1 # 2)) (Finite (2 # 2)) (Finite (16 # 24)) 2 2)
  /\ col_gts
       (mk_score_row (Finite (2 # 3)) (Finite (2 # 2)) (Finite (48 # 60)) 2 2)
     = col_gts
         (mk_score_row (Finite (1 # 2)) (Finite (2 # 2)) (Finite (16 # 24)) 2 2)
  /\ col_dets
       (mk_score_row (Finite (2 # 3)) (Finite (2 # 2)) (Finite (48 # 60)) 2 2)
     = col_dets
         (mk_score_row (Finite (1 # 2)) (Finite (2 # 2)) (Finite (16 # 24)) 2 2).
Proof.
  apply (score_recall_mode_independent iou_xywh ["person"%string] (1 # 2) 1 0
           [img_wide] 0 "person"%string "person"%string);
    reflexivity.
Defined.

Lemma true_divide_unit (x y : Z) (q : Q) :
  (0 <= x <= y)%Z -> true_divide x y = Finite q -> 0 <= q /\ q <= 1.
Proof.
  intros Hxy. unfold true_divide.
  destruct (Z.eqb_spec y 0%Z) as [E|E].
  - destruct (x =? 0)%Z; [discriminate|].
    destruct (0 <? x)%Z; discriminate.
  - intros [= <-]. apply ratio_in_unit; lia.
Qed.

Lemma true_divide_cases (x y : Z) :
  (0 <= x <= y)%Z ->
  true_divide x y = NaN \/ exists q, true_divide x y = Finite q.
Proof.
  intros Hxy. unfold true_divide.
  destruct (Z.eqb_spec y 0%Z) as [E|E]; [|eauto].
  destruct (Z.eqb_spec x 0%Z) as [E'|E']; [auto|lia].
Qed.

(** The harmonic mean of two numbers of [0, 1] that are not both 0. *)
Lemma harmonic_in_unit (p r : Q) :
  0 <= p -> p <= 1 -> 0 <= r -> r <= 1 -> ~ p + r == 0 ->
  0 <= 2 * p * r / (p + r) /\ 2 * p * r / (p + r) <= 1.
Proof.
  intros Hp0 Hp1 Hr0 Hr1 Hne.
  assert (Hpos : 0 < p + r).
  { apply Qle_lteq in Hp0. apply Qle_lteq in Hr0.
    destruct Hp0 as [Hp0|Hp0], Hr0 as [Hr0|Hr0]; lra. }
  assert (Hpr : 0 <= p * r) by (apply Qmult_le_0_compat; assumption).
  assert (H1 : 0 <= p * (1 - r)) by (apply Qmult_le_0_compat; lra).
  assert (H2 : 0 <= r * (1 - p)) by (apply Qmult_le_0_compat; lra).
  split.
  - apply Qle_shift_div_l; [exact Hpos|]. lra.
  - apply Qle_shift_div_r; [exact Hpos|]. lra.
Qed.

(** X5: the F1 score of a row is nan when the precision or the recall is
    nan, and when both are 0; otherwise it is their harmonic mean
    2pr/(p+r), a number between 0 and 1.  It is never infinite. *)
Theorem score_F1_cases (cal_iou : xywhcp -> xywhcp -> Q)
    (names : list string) (thr : Q) (mode : Z) (imgs : list image)
    (c : nat) (name : string) (row : score_row) :
  create_score_mat cal_iou names thr mode imgs !! c = Some (name, row) ->
  (col_precision row = NaN \/ col_recall row = NaN ->
   col_F1_score row = NaN)
  /\ (forall p r,
        col_precision row = Finite p -> col_recall row = Finite r ->
        (p + r == 0 -> col_F1_score row = NaN)
        /\ (~ p + r == 0 ->
            col_F1_score row = Finite (2 * p * r / (p + r))
            /\ 0 <= 2 * p * r / (p + r) /\ 2 * p * r / (p + r) <= 1))
  /\ (col_F1_score row = NaN \/ exists q, col_F1_score row = Finite q).
Proof.
  intros Hrow. apply table_row_inv in Hrow. destruct Hrow as [_ ->].
  pose proof (sumZ_bounds _ _ imgs (num_TPP_of_bounds cal_iou thr c)) as Hb.
  pose proof (sumZ_bounds _ _ imgs (num_TP_of_bounds cal_iou thr c)) as Ha.
  unfold make_row. cbn [col_precision col_recall col_F1_score].
  set (tp := swept_TP cal_iou thr mode c imgs).
  set (dn := swept_denom cal_iou thr mode c imgs).
  assert (Hp : (0 <= tp.1 <= dn.1)%Z).
  { subst tp dn. unfold swept_TP, swept_denom. simpl.
    destruct (mode =? 1)%Z; lia. }
  assert (Hr : (0 <= tp.2 <= dn.2)%Z).
  { subst tp dn. unfold swept_TP, swept_denom. simpl. lia. }
  assert (Hfin : forall p r,
            true_divide tp.1 dn.1 = Finite p ->
            true_divide tp.2 dn.2 = Finite r ->
            (p + r == 0 ->
             np_div (np_mul (np_mul (Finite 2) (Finite p)) (Finite r))
                    (np_add (Finite p) (Finite r)) = NaN)
            /\ (~ p + r == 0 ->
                np_div (np_mul (np_mul (Finite 2) (Finite p)) (Finite r))
                       (np_add (Finite p) (Finite r))
                = Finite (2 * p * r / (p + r))
                /\ 0 <= 2 * p * r / (p + r) /\ 2 * p * r / (p + r) <= 1)).
  { intros p r Ep Er.
    destruct (true_divide_unit _ _ _ Hp Ep) as [Hp0 Hp1].
    destruct (true_divide_unit _ _ _ Hr Er) as [Hr0 Hr1].
    simpl. split.
    - intros E0.
      assert (Eb : Qeq_bool (p + r) 0 = true) by (apply Qeq_bool_iff, E0).
      rewrite Eb.
      assert (Ep0 : p == 0) by lra.
      assert (Eb' : Qeq_bool (2 * p * r) 0 = true).
      { apply Qeq_bool_iff. rewrite Ep0. ring. }
      rewrite Eb'. reflexivity.
    - intros Hne.
      destruct (Qeq_bool (p + r) 0) eqn:Eb.
      + exfalso. apply Hne, Qeq_bool_iff, Eb.
      + split; [reflexivity|]. apply harmonic_in_unit; assumption. }
  split; [|split].
  - intros [E|E]; rewrite E; [reflexivity|].
    destruct (true_divide tp.1 dn.1); reflexivity.
  - intros p r Ep Er. rewrite Ep, Er. apply Hfin; assumption.
  - destruct (true_divide_cases _ _ Hp) as [Ep|[p Ep]];
      [rewrite Ep; now left|].
    destruct (true_divide_cases _ _ Hr) as [Er|[r Er]].
    { rewrite Er. left. destruct (true_divide tp.1 dn.1); reflexivity. }
    rewrite Ep, Er. destruct (Hfin p r Ep Er) as [H0 H1].
    destruct (Qeq_dec (p + r) 0) as [E|E].
    + left. apply H0, E.
    + right. eexists. apply H1, E.
Qed.

Lemma score_F1_cases_witness :
  let row :=
    mk_score_row (Finite (2 # 3)) (Finite (2 # 2)) (Finite (48 # 60)) 2 2 in
  (col_precision row = NaN \/ col_recall row = NaN ->
   col_F1_score row = NaN)
  /\ (forall p r,
        col_precision row = Finite p -> col_recall row = Finite r ->
        (p + r == 0 -> col_F1_score row = NaN)
        /\ (~ p + r == 0 ->
            col_F1_score row = Finite (2 * p * r / (p + r))
            /\ 0 <= 2 * p * r / (p + r) /\ 2 * p * r / (p + r) <= 1))
  /\ (col_F1_score row = NaN \/ exists q, col_F1_score row = Finite q).
Proof.
  apply (score_F1_cases iou_xywh ["person"%string] (1 # 2) 1
           [img_wide] 0 "person"%string).
  reflexivity.
Defined.

Lemma sumZ_perm (f : image -> Z) (imgs imgs' : list image) :
  Permutation imgs imgs' -> sumZ f imgs = sumZ f imgs'.
Proof.
  induction 1 as [|x l l' _ IH|x y l|l l' l'' _ IH1 _ IH2]; simpl; lia.
Qed.

(** X6: the table does not depend on the order of the images. *)
Theorem score_table_order_independent (cal_iou : xywhcp -> xywhcp -> Q)
    (names : list string) (thr : Q) (mode : Z) (imgs imgs' : list image) :
  Permutation imgs imgs' ->
  create_score_mat cal_iou names thr mode imgs
  = create_score_mat cal_iou names thr mode imgs'.
Proof.
  intros Hperm. apply list_eq. intros c.
  destruct (names !! c) as [name|] eqn:Hname.
  - rewrite !(score_row_of cal_iou thr mode names _ c name Hname).
    unfold swept_TP, swept_denom.
    rewrite !(sumZ_perm _ imgs imgs' Hperm). reflexivity.
  - unfold create_score_mat. cbv zeta.
    rewrite !lookup_zip_with, Hname. reflexivity.
Qed.

Lemma score_table_order_independent_witness :
  create_score_mat iou_xywh ["person"%string] (1 # 2) 1
                   [img_two_preds; img_wide]
  = create_score_mat iou_xywh ["person"%string] (1 # 2) 1
                     [img_wide; img_two_preds].
Proof.
  apply (score_table_order_independent iou_xywh ["person"%string] (1 # 2) 1
           [img_two_preds; img_wide] [img_wide; img_two_preds]).
  apply perm_swap.
Defined.

(** * Further properties of the sweep of [PR_func.__init__] *)

Section SweepMore.

Variable cal_iou : xywhcp -> xywhcp -> Q.
Variable thr : Q.
Variable max_per_img : option Z.

Lemma pr_fold_gts (n c : nat) (imgs : list image) :
  (c < n)%nat ->
  forall (acc : pr_acc) (g : nat) (ds : list det),
  gts acc !! c = Some g ->
  detections acc !! c = Some ds ->
  gts (fold_left (pr_img_step cal_iou n thr max_per_img) imgs acc) !! c
  = Some (g + length (of_class c (concat (map xywhcp_true imgs))))%nat.
Proof.
  intros Hc. induction imgs as [|img imgs IH]; intros acc g ds Hg Hds.
  - simpl. rewrite Hg. f_equal. lia.
  - simpl fold_left.
    destruct (pr_classes_slot cal_iou thr max_per_img img (seq 0 n) c
                (NoDup_seq 0 n) acc g ds Hg Hds) as [Hin _].
    destruct Hin as (Hg' & Hds'); [apply in_seq; lia|].
    unfold pr_img_step at 2. rewrite (IH _ _ _ Hg' Hds').
    simpl. unfold of_class. rewrite List.filter_app, length_app.
    f_equal. lia.
Qed.

Lemma contributions_length (c : nat) (imgs : list image) :
  forall g : nat,
  length (contributions cal_iou thr max_per_img c g imgs) = length imgs.
Proof.
  induction imgs as [|img imgs IH]; intros g; simpl; [reflexivity|].
  now rewrite IH.
Qed.

(** The rows of one image before the cap: one per prediction. *)
Lemma image_detection_uncapped_length (g : nat) (trues preds : list xywhcp) :
  length (image_detection cal_iou thr None g trues preds) = length preds.
Proof.
  unfold image_detection, best_ious_pred, argmax_true.
  rewrite !map_map, stack3_map, length_map. reflexivity.
Qed.

Lemma py_slice_from_length_le {A : Type} (k : Z) (l : list A) :
  (length (py_slice_from k l) <= length l)%nat.
Proof. unfold py_slice_from. rewrite length_drop. lia. Qed.

Lemma image_detection_length_le (g : nat) (trues preds : list xywhcp) :
  (length (image_detection cal_iou thr max_per_img g trues preds)
   <= length preds)%nat.
Proof.
  rewrite <- (image_detection_uncapped_length g trues preds).
  unfold image_detection. cbv zeta.
  destruct max_per_img as [m|]; [|lia].
  destruct (m <? _)%Z; [|lia].
  etransitivity; [apply py_slice_from_length_le|].
  rewrite sort_desc_length. lia.
Qed.

End SweepMore.

(** X7: after the sweep the counter of a class holds the number of ground
    truths of that class in the whole data set, whatever the predictions,
    the threshold and the cap. *)
Theorem sweep_gts_total (cal_iou : xywhcp -> xywhcp -> Q)
    (n : nat) (thr : Q) (max_per_img : option Z) (imgs : list image)
    (c : nat) :
  (c < n)%nat ->
  gts (pr_sweep cal_iou n thr max_per_img imgs) !! c
  = Some (length (of_class c (concat (map xywhcp_true imgs)))).
Proof.
  intros Hc. unfold pr_sweep.
  rewrite (pr_fold_gts cal_iou thr max_per_img n c imgs Hc (pr_init n) 0%nat []);
    try (simpl; apply lookup_replicate_2; exact Hc).
  reflexivity.
Qed.

Lemma sweep_gts_total_witness :
  gts (pr_sweep iou_xywh 1 (1 # 2) (Some 1%Z) [img_two_preds; img_wide])
    !! 0%nat
  = Some (length (of_class 0
            (concat (map xywhcp_true [img_two_preds; img_wide])))).
Proof.
  apply (sweep_gts_total iou_xywh 1 (1 # 2) (Some 1%Z)
           [img_two_preds; img_wide] 0).
  lia.
Defined.

Lemma preds_beside_truth_cons (c : nat) (img : image) (imgs : list image) :
  preds_beside_truth c (img :: imgs)
  = (if (0 <? length (of_class c (xywhcp_true img)))%nat
     then of_class c (xywhcp_pred img) else [])
    ++ preds_beside_truth c imgs.
Proof.
  unfold preds_beside_truth. cbn [List.filter].
  destruct (0 <? length (of_class c (xywhcp_true img)))%nat; [|reflexivity].
  cbn [map concat]. unfold of_class. apply List.filter_app.
Qed.

Lemma class_detection_length (cal_iou : xywhcp -> xywhcp -> Q) (thr : Q)
    (max_per_img : option Z) (c g : nat) (img : image) :
  let beside :=
    if (0 <? length (of_class c (xywhcp_true img)))%nat
    then of_class c (xywhcp_pred img) else [] in
  (length (class_detection cal_iou thr max_per_img c g img)
   <= length beside)%nat
  /\ (max_per_img = None ->
      length (class_detection cal_iou thr max_per_img c g img)
      = length beside).
Proof.
  cbv zeta. unfold class_detection, both_present.
  destruct (0 <? length (of_class c (xywhcp_true img)))%nat; cbn [andb].
  - destruct (0 <? length (of_class c (xywhcp_pred img)))%nat eqn:Ep.
    + split; [apply image_detection_length_le|].
      intros ->. apply image_detection_uncapped_length.
    + apply Nat.ltb_ge in Ep. simpl. split; lia.
  - simpl. split; [lia|reflexivity].
Qed.

(** X8: a class accumulates rows only from images that hold a ground truth
    of the class: the number of its rows is at most the number of its
    predictions in those images, and equal to it when there is no cap.
    Predictions in an image without a ground truth of their class leave no
    row. *)
Theorem sweep_rows_beside_truth (cal_iou : xywhcp -> xywhcp -> Q)
    (n : nat) (thr : Q) (max_per_img : option Z) (imgs : list image)
    (c : nat) :
  (c < n)%nat ->
  exists ds,
    detections (pr_sweep cal_iou n thr max_per_img imgs) !! c = Some ds
    /\ (length ds <= length (preds_beside_truth c imgs))%nat
    /\ (max_per_img = None ->
        length ds = length (preds_beside_truth c imgs)).
Proof.
  intros Hc. eexists. split; [apply pr_sweep_detections, Hc|].
  generalize 0%nat as g.
  induction imgs as [|img imgs IH]; intros g.
  - simpl. split; [lia|reflexivity].
  - destruct (IH (g + length (of_class c (xywhcp_true img)))%nat)
      as [IHle IHeq].
    destruct (class_detection_length cal_iou thr max_per_img c g img)
      as [Hle Heq].
    cbn [contributions concat].
    rewrite preds_beside_truth_cons, !length_app.
    split; [lia|]. intros Hn. rewrite (Heq Hn), (IHeq Hn). reflexivity.
Qed.

Lemma sweep_rows_beside_truth_witness :
  exists ds,
    detections (pr_sweep iou_xywh 1 (1 # 2) None [img_two_preds; img_wide])
      !! 0%nat = Some ds
    /\ (length ds
        <= length (preds_beside_truth 0 [img_two_preds; img_wide]))%nat
    /\ (@None Z = None ->
        length ds = length (preds_beside_truth 0 [img_two_preds; img_wide])).
Proof.
  apply (sweep_rows_beside_truth iou_xywh 1 (1 # 2) None
           [img_two_preds; img_wide] 0).
  lia.
Defined.

Lemma py_slice_tail_length {A : Type} (m : Z) (l : list A) :
  (0 < m < Z.of_nat (length l))%Z ->
  length (py_slice_from (- m) l) = Z.to_nat m.
Proof.
  intros Hm. unfold py_slice_from. cbv zeta.
  destruct (Z.ltb_spec (- m) 0) as [_|H]; [|lia].
  rewrite length_drop. lia.
Qed.

Lemma image_detection_capped_length (cal_iou : xywhcp -> xywhcp -> Q)
    (thr : Q) (m : Z) (g : nat) (trues preds : list xywhcp) :
  (0 < m)%Z ->
  (Z.of_nat (length (image_detection cal_iou thr (Some m) g trues preds))
   <= m)%Z.
Proof.
  intros Hm. unfold image_detection. cbv zeta.
  destruct (Z.ltb_spec m (Z.of_nat (length (stack3 (map box_c preds)
              (map (fun k => (k + g)%nat) (argmax_true cal_iou trues preds))
              (map (fun v => Qgeb v thr)
                   (best_ious_pred cal_iou trues preds)))))) as [Hlt|Hge].
  - rewrite py_slice_tail_length; rewrite ?sort_desc_length; lia.
  - exact Hge.
Qed.

(** X9: with a positive cap no image gives a class more than [max_per_img]
    rows, so a class holds at most [max_per_img] rows per image of the data
    set. *)
Theorem cap_bounds_rows (cal_iou : xywhcp -> xywhcp -> Q)
    (n : nat) (thr : Q) (m : Z) (imgs : list image) (c : nat) :
  (c < n)%nat -> (0 < m)%Z ->
  (forall i di,
     contributions cal_iou thr (Some m) c 0 imgs !! i = Some di ->
     (Z.of_nat (length di) <= m)%Z)
  /\ exists ds,
       detections (pr_sweep cal_iou n thr (Some m) imgs) !! c = Some ds
       /\ (Z.of_nat (length ds) <= m * Z.of_nat (length imgs))%Z.
Proof.
  intros Hc Hm.
  assert (Hone : forall g img,
            (Z.of_nat (length (class_detection cal_iou thr (Some m) c g img))
             <= m)%Z).
  { intros g img. unfold class_detection.
    destruct (both_present c img); [|simpl; lia].
    apply image_detection_capped_length, Hm. }
  split.
  - generalize 0%nat as g.
    induction imgs as [|img imgs IH]; intros g i di Hi; [discriminate|].
    destruct i as [|i]; simpl in Hi.
    + injection Hi as <-. apply Hone.
    + eapply IH, Hi.
  - eexists. split; [apply pr_sweep_detections, Hc|].
    generalize 0%nat as g.
    induction imgs as [|img imgs IH]; intros g; [simpl; lia|].
    cbn [contributions concat]. rewrite length_app.
    specialize (IH (g + length (of_class c (xywhcp_true img)))%nat).
    specialize (Hone g img). simpl length. lia.
Qed.

Lemma cap_bounds_rows_witness :
  (forall i di,
     contributions iou_xywh (1 # 2) (Some 1%Z) 0 0 [img_two_preds; img_wide]
       !! i = Some di ->
     (Z.of_nat (length di) <= 1)%Z)
  /\ exists ds,
       detections (pr_sweep iou_xywh 1 (1 # 2) (Some 1%Z)
                            [img_two_preds; img_wide]) !! 0%nat = Some ds
       /\ (Z.of_nat (length ds)
           <= 1 * Z.of_nat (length [img_two_preds; img_wide]))%Z.
Proof.
  apply (cap_bounds_rows iou_xywh 1 (1 # 2) 1 [img_two_preds; img_wide] 0);
    lia.
Defined.

Lemma image_detection_cap_0 (cal_iou : xywhcp -> xywhcp -> Q)
    (thr : Q) (g : nat) (trues preds : list xywhcp) :
  Permutation (image_detection cal_iou thr (Some 0%Z) g trues preds)
              (image_detection cal_iou thr None g trues preds).
Proof.
  unfold image_detection. cbv zeta.
  destruct (0 <? Z.of_nat (length _))%Z; [|reflexivity].
  unfold py_slice_from. cbv zeta. simpl Z.opp.
  destruct (Z.ltb_spec 0 0) as [H|_]; [lia|].
  rewrite Z.min_l by lia. simpl. apply sort_desc_perm.
Qed.

(** X10: a cap of 0 limits nothing: the class accumulates the same rows as
    without a cap, up to their order. *)
Theorem cap_zero_keeps_all (cal_iou : xywhcp -> xywhcp -> Q)
    (n : nat) (thr : Q) (imgs : list image) (c : nat) :
  (c < n)%nat ->
  exists ds0 ds,
    detections (pr_sweep cal_iou n thr (Some 0%Z) imgs) !! c = Some ds0
    /\ detections (pr_sweep cal_iou n thr None imgs) !! c = Some ds
    /\ Permutation ds0 ds.
Proof.
  intros Hc. do 2 eexists.
  split; [apply pr_sweep_detections, Hc|].
  split; [apply pr_sweep_detections, Hc|].
  generalize 0%nat as g.
  induction imgs as [|img imgs IH]; intros g; [reflexivity|].
  cbn [contributions concat]. apply Permutation_app; [|apply IH].
  unfold class_detection. destruct (both_present c img); [|reflexivity].
  apply image_detection_cap_0.
Qed.

Lemma cap_zero_keeps_all_witness :
  exists ds0 ds,
    detections (pr_sweep iou_xywh 1 (1 # 2) (Some 0%Z) [img_two_preds])
      !! 0%nat = Some ds0
    /\ detections (pr_sweep iou_xywh 1 (1 # 2) None [img_two_preds])
      !! 0%nat = Some ds
    /\ Permutation ds0 ds.
Proof.
  apply (cap_zero_keeps_all iou_xywh 1 (1 # 2) [img_two_preds] 0). lia.
Defined.

Lemma conf_le_trans (a b c : det) : conf_le a b -> conf_le b c -> conf_le a c.
Proof. unfold conf_le. apply Qle_trans. Qed.

Lemma insert_by_conf_sorted (d : det) (l : list det) :
  StronglySorted conf_le l -> StronglySorted conf_le (insert_by_conf d l).
Proof.
  induction 1 as [|e l Hs IH Hall]; simpl.
  - repeat constructor.
  - destruct (Qle_bool (det_conf d) (det_conf e)) eqn:E.
    + apply Qle_bool_iff in E. constructor; [constructor; assumption|].
      constructor; [exact E|].
      eapply Forall_impl; [exact Hall|].
      intros x Hx. eapply conf_le_trans; [exact E|exact Hx].
    + constructor; [exact IH|].
      apply Forall_forall. intros x Hx.
      apply list_elem_of_In in Hx.
      apply (Permutation_in _ (insert_by_conf_perm d l)) in Hx.
      destruct Hx as [<-|Hx].
      * unfold conf_le. apply Qlt_le_weak, Qnot_le_lt.
        intros Hle. apply Qle_bool_iff in Hle. congruence.
      * rewrite Forall_forall in Hall. apply Hall, list_elem_of_In, Hx.
Qed.

Lemma argsort_conf_sorted (l : list det) :
  StronglySorted conf_le (argsort_conf l).
Proof.
  induction l as [|d l IH]; simpl; [constructor|].
  apply insert_by_conf_sorted, IH.
Qed.

Lemma sorted_app_le (l1 l2 : list det) :
  StronglySorted conf_le (l1 ++ l2) ->
  forall a b, In a l1 -> In b l2 -> conf_le a b.
Proof.
  induction l1 as [|x l1 IH]; intros Hs a b Ha Hb; [contradiction|].
  simpl in Hs. inversion Hs as [|? ? Hs' Hall]; subst.
  destruct Ha as [<-|Ha].
  - rewrite Forall_forall in Hall. apply Hall, list_elem_of_In.
    apply in_or_app. now right.
  - apply IH; assumption.
Qed.

(** X11: when an image has more rows of a class than a positive cap
    [max_per_img], the cap keeps exactly [max_per_img] of them, and the rows
    it keeps are those of lowest confidence: every kept row has a
    confidence no larger than that of every dropped row. *)
Theorem cap_keeps_lowest_rows (cal_iou : xywhcp -> xywhcp -> Q)
    (thr : Q) (m : Z) (g : nat) (trues preds : list xywhcp) :
  let rows := image_detection cal_iou thr None g trues preds in
  let kept := image_detection cal_iou thr (Some m) g trues preds in
  (0 < m < Z.of_nat (length rows))%Z ->
  length kept = Z.to_nat m
  /\ exists dropped,
       Permutation (kept ++ dropped) rows
       /\ forall k d, In k kept -> In d dropped ->
            det_conf k <= det_conf d.
Proof.
  intros rows kept Hm.
  assert (Ekept : kept = rev (take (Z.to_nat m) (argsort_conf rows))).
  { subst kept rows. unfold image_detection in *. cbv zeta in *.
    destruct (Z.ltb_spec m (Z.of_nat (length (stack3 (map box_c preds)
              (map (fun k => (k + g)%nat) (argmax_true cal_iou trues preds))
              (map (fun v => Qgeb v thr)
                   (best_ious_pred cal_iou trues preds)))))) as [_|H];
      [|lia].
    apply cap_keeps_lowest. exact Hm. }
  pose proof (Permutation_length (argsort_conf_perm rows)) as Hlen.
  split.
  - rewrite Ekept, length_rev, length_take. lia.
  - exists (drop (Z.to_nat m) (argsort_conf rows)). split.
    + rewrite Ekept, <- Permutation_rev, take_drop.
      apply argsort_conf_perm.
    + intros k d Hk Hd. rewrite Ekept in Hk. apply in_rev in Hk.
      apply (sorted_app_le (take (Z.to_nat m) (argsort_conf rows))
               (drop (Z.to_nat m) (argsort_conf rows))); try assumption.
      rewrite take_drop. apply argsort_conf_sorted.
Qed.

Lemma cap_keeps_lowest_rows_witness :
  let rows := image_detection iou_xywh (1 # 2) None 0 [gt_a] [pred_hi; pred_lo] in
  let kept :=
    image_detection iou_xywh (1 # 2) (Some 1%Z) 0 [gt_a] [pred_hi; pred_lo] in
  length kept = Z.to_nat 1
  /\ exists dropped,
       Permutation (kept ++ dropped) rows
       /\ forall k d, In k kept -> In d dropped ->
            det_conf k <= det_conf d.
Proof.
  apply (cap_keeps_lowest_rows iou_xywh (1 # 2) 1 0 [gt_a] [pred_hi; pred_lo]).
  simpl. lia.
Defined.

(** * Further properties of the constructor *)

(** A class iteration that returns had a ground truth to divide by. *)
Lemma class_curve_inr_gts (num_TP : option Z) (g : nat) (D : list det)
    (cst : curve_state) :
  class_curve num_TP g D = inr cst -> (0 < g)%nat.
Proof.
  unfold class_curve. cbv zeta.
  destruct (for_each _ _ _) as [e|st]; simpl; [discriminate|].
  destruct (cs_num_TP st) as [k|]; [|discriminate].
  unfold py_div. destruct (Z.eqb_spec (Z.of_nat g) 0%Z) as [E|E];
    simpl; [discriminate|]. lia.
Qed.

(** Without rows and with [num_TP] unbound, the sentinel cannot be built. *)
Lemma class_curve_unbound (g : nat) :
  class_curve None g [] = inl UnboundLocalError.
Proof. reflexivity. Qed.

(** Without a ground truth the first division that is reached fails. *)
Lemma class_curve_zero_gts (num_TP : option Z) (D : list det) :
  D <> [] \/ num_TP <> None ->
  class_curve num_TP 0 D = inl ZeroDivisionError.
Proof.
  intros H. unfold class_curve. cbv zeta.
  destruct (length (sort_desc D)) as [|m] eqn:Elen.
  - rewrite sort_desc_length in Elen.
    destruct D; [|discriminate]. simpl.
    destruct H as [H|H]; [congruence|].
    destruct num_TP; [reflexivity|congruence].
  - reflexivity.
Qed.

(** With a ground truth, and rows or a bound [num_TP], the iteration returns
    and leaves [num_TP] bound. *)
Lemma class_curve_returns (num_TP : option Z) (g : nat) (D : list det) :
  (0 < g)%nat -> D <> [] \/ num_TP <> None ->
  exists cst k, class_curve num_TP g D = inr cst /\ cs_num_TP cst = Some k.
Proof.
  intros Hg H. destruct D as [|d D].
  - destruct H as [H|H]; [congruence|].
    destruct num_TP as [k|]; [|congruence].
    unfold class_curve. simpl. unfold py_div.
    destruct (Z.eqb_spec (Z.of_nat g) 0%Z) as [E|_]; [lia|].
    simpl. eauto.
  - assert (Hne : d :: D <> []) by congruence.
    rewrite class_curve_run by assumption. eauto.
Qed.

Section ClassLoop.

Variable acc : pr_acc.

(** The classes after the first one that had rows: the loop returns when
    every class has a ground truth and raises [ZeroDivisionError] at the
    first class that has none. *)
Lemma curves_loop_bound (cs : list nat) :
  forall st : curves,
  live_num_TP st <> None ->
  ((forall c, In c cs -> (0 < default 0%nat (gts acc !! c))%nat) ->
   exists st', for_each cs (curves_body acc) st = inr st')
  /\ ((exists c, In c cs /\ default 0%nat (gts acc !! c) = 0%nat) ->
      for_each cs (curves_body acc) st = inl ZeroDivisionError).
Proof.
  induction cs as [|a cs IH]; intros st Hlive.
  - split; [eauto|]. intros (c & [] & _).
  - simpl for_each. unfold curves_body at 1 3.
    destruct (default 0%nat (gts acc !! a)) as [|g] eqn:Eg.
    + rewrite class_curve_zero_gts by (right; exact Hlive). simpl.
      split; [|reflexivity].
      intros Hall. specialize (Hall a ltac:(now left)). rewrite Eg in Hall.
      lia.
    + destruct (class_curve_returns (live_num_TP st) (S g)
                  (default [] (detections acc !! a)) ltac:(lia)
                  ltac:(right; exact Hlive)) as (cst & k & Hrun & Hk).
      rewrite Hrun. simpl.
      match goal with
      | |- context [for_each cs (curves_body acc) ?s] =>
          destruct (IH s) as [IHok IHbad]
      end.
      { simpl. rewrite Hk. discriminate. }
      split.
      * intros Hall. apply IHok. intros c Hc. apply Hall. now right.
      * intros (c & [<-|Hc] & E0); [rewrite Eg in E0; discriminate|].
        apply IHbad. eauto.
Qed.

End ClassLoop.

(** X12: the three outcomes of the constructor when there is at least one
    class.  If the first class accumulated no row, it raises
    [UnboundLocalError].  If the first class has rows but some class has no
    ground truth in the data set, it raises [ZeroDivisionError].  If the
    first class has rows and every class has a ground truth, it returns an
    object. *)
Theorem init_outcome (cal_iou : xywhcp -> xywhcp -> Q)
    (names : list string) (thr : Q) (max_per_img : option Z)
    (imgs : list image) (rows0 : list det) :
  names <> [] ->
  detections (pr_sweep cal_iou (length names) thr max_per_img imgs) !! 0%nat
  = Some rows0 ->
  (rows0 = [] ->
   PR_func_init cal_iou names thr max_per_img imgs = inl UnboundLocalError)
  /\ (rows0 <> [] ->
      (exists c, (c < length names)%nat
                 /\ of_class c (concat (map xywhcp_true imgs)) = []) ->
      PR_func_init cal_iou names thr max_per_img imgs
      = inl ZeroDivisionError)
  /\ (rows0 <> [] ->
      (forall c, (c < length names)%nat ->
                 of_class c (concat (map xywhcp_true imgs)) <> []) ->
      exists f, PR_func_init cal_iou names thr max_per_img imgs = inr f).
Proof.
  intros Hnames Hrows.
  unfold PR_func_init. cbv zeta.
  set (n := length names) in *.
  set (acc := pr_sweep cal_iou n thr max_per_img imgs) in *.
  assert (Hgts : forall c, (c < n)%nat ->
            default 0%nat (gts acc !! c)
            = length (of_class c (concat (map xywhcp_true imgs)))).
  { intros c Hc. subst acc. unfold pr_sweep.
    rewrite (pr_fold_gts cal_iou thr max_per_img n c imgs Hc (pr_init n)
               0%nat []);
      try (simpl; apply lookup_replicate_2; exact Hc).
    reflexivity. }
  destruct n as [|n'] eqn:En.
  { destruct names; [congruence|discriminate]. }
  rewrite <- cons_seq. cbn [for_each]. unfold curves_body at 1 3 5.
  cbn [live_num_TP]. rewrite Hrows.
  change (default [] (Some rows0)) with rows0.
  split; [|split].
  - intros ->. rewrite class_curve_unbound. reflexivity.
  - intros Hne (c & Hc & Enone).
    destruct (default 0%nat (gts acc !! 0%nat)) as [|g0] eqn:Eg0.
    + rewrite class_curve_zero_gts by (left; exact Hne). reflexivity.
    + destruct (class_curve_returns None (S g0) rows0 ltac:(lia)
                  ltac:(left; exact Hne)) as (cst & k & Hrun & Hk).
      rewrite Hrun. simpl.
      match goal with
      | |- context [for_each (seq 1 n') (curves_body acc) ?s] =>
          destruct (curves_loop_bound acc (seq 1 n') s) as [_ Hbad]
      end.
      { simpl. rewrite Hk. discriminate. }
      rewrite Hbad; [reflexivity|].
      exists c. split.
      * apply in_seq. destruct c as [|c]; [|lia].
        rewrite Hgts, Enone in Eg0 by lia. discriminate.
      * rewrite Hgts by exact Hc. rewrite Enone. reflexivity.
  - intros Hne Hall.
    assert (Hpos : forall c, (c < S n')%nat ->
              (0 < default 0%nat (gts acc !! c))%nat).
    { intros c Hc. rewrite Hgts by exact Hc.
      specialize (Hall c Hc).
      destruct (of_class c (concat (map xywhcp_true imgs)));
        [congruence|simpl; lia]. }
    destruct (class_curve_returns None (default 0%nat (gts acc !! 0%nat))
                rows0 (Hpos 0%nat ltac:(lia)) ltac:(left; exact Hne))
      as (cst & k & Hrun & Hk).
    rewrite Hrun. simpl.
    match goal with
    | |- context [for_each (seq 1 n') (curves_body acc) ?s] =>
        destruct (curves_loop_bound acc (seq 1 n') s) as [Hok _]
    end.
    { simpl. rewrite Hk. discriminate. }
    destruct Hok as (st' & Hst').
    { intros c Hc. apply in_seq in Hc. apply Hpos. lia. }
    rewrite Hst'. simpl. eauto.
Qed.

Lemma init_outcome_witness :
  ([mk_det (9 # 10) 0 true; mk_det (3 # 10) 0 true] = [] ->
   PR_func_init iou_xywh ["person"%string] (1 # 2) None [img_two_preds]
   = inl UnboundLocalError)
  /\ ([mk_det (9 # 10) 0 true; mk_det (3 # 10) 0 true] <> [] ->
      (exists c, (c < length ["person"%string])%nat
                 /\ of_class c (concat (map xywhcp_true [img_two_preds])) = []) ->
      PR_func_init iou_xywh ["person"%string] (1 # 2) None [img_two_preds]
      = inl ZeroDivisionError)
  /\ ([mk_det (9 # 10) 0 true; mk_det (3 # 10) 0 true] <> [] ->
      (forall c, (c < length ["person"%string])%nat ->
                 of_class c (concat (map xywhcp_true [img_two_preds])) <> []) ->
      exists f,
        PR_func_init iou_xywh ["person"%string] (1 # 2) None [img_two_preds]
        = inr f).
Proof.
  apply (init_outcome iou_xywh ["person"%string] (1 # 2) None [img_two_preds]
           [mk_det (9 # 10) 0 true; mk_det (3 # 10) 0 true]).
  - discriminate.
  - reflexivity.
Defined.

Lemma pr_sweep_detections_length (cal_iou : xywhcp -> xywhcp -> Q)
    (n : nat) (thr : Q) (max_per_img : option Z) (imgs : list image) :
  length (detections (pr_sweep cal_iou n thr max_per_img imgs)) = n.
Proof.
  unfold pr_sweep.
  assert (Hlen : forall l acc,
            length (detections
              (fold_left (pr_img_step cal_iou n thr max_per_img) l acc))
            = length (detections acc)).
  { induction l as [|img l IH]; intros acc; [reflexivity|].
    simpl. rewrite IH. unfold pr_img_step.
    generalize (seq 0 n). intros cs. revert acc.
    induction cs as [|a cs IHc]; intros acc; [reflexivity|].
    simpl. rewrite IHc. unfold pr_class_step.
    destruct (_ && _); simpl; rewrite ?length_alter; reflexivity. }
  rewrite Hlen. simpl. apply length_replicate.
Qed.

(** X13: what a constructed object holds.  It keeps the class names, has
    one precision sequence and one recall sequence per class, and for every
    class the two sequences have one entry per accumulated row plus the
    sentinel, whose precision is 0. *)
Theorem init_object_shape (cal_iou : xywhcp -> xywhcp -> Q)
    (names : list string) (thr : Q) (max_per_img : option Z)
    (imgs : list image) (f : PR_func) :
  PR_func_init cal_iou names thr max_per_img imgs = inr f ->
  class_names f = names
  /\ PR_wf f
  /\ forall c ds,
       detections (pr_sweep cal_iou (length names) thr max_per_img imgs) !! c
       = Some ds ->
       exists ps rs r,
         precisions f !! c = Some (ps ++ [0])
         /\ recalls f !! c = Some (rs ++ [r])
         /\ length ps = length ds
         /\ length rs = length ds.
Proof.
  intros Hinit.
  destruct (PR_func_init_lengths _ _ _ _ _ _ Hinit) as (Hn & Hlp & Hlr).
  assert (Hnames : class_names f = names).
  { unfold PR_func_init in Hinit. cbv zeta in Hinit.
    destruct (for_each _ _ _) as [e|st]; simpl in Hinit; [discriminate|].
    injection Hinit as <-. reflexivity. }
  split; [exact Hnames|]. split.
  - unfold PR_wf. rewrite Hnames, Hn, Hlp, Hlr. repeat split.
    intros c ps rs Hps Hrs.
    pose proof (lookup_lt_Some _ _ _ Hps) as Hc. rewrite Hlp in Hc.
    destruct (PR_func_init_slot _ _ _ _ _ _ c Hinit Hc)
      as (num_TP & cst & Hcls & Hp & Hr).
    apply class_curve_shape in Hcls.
    destruct Hcls as (ps' & rs' & r & Eps & Ers & Hl1 & Hl2 & _).
    rewrite Hp in Hps. rewrite Hr in Hrs.
    injection Hps as <-. injection Hrs as <-.
    rewrite Eps, Ers, !length_app. simpl. lia.
  - intros c ds Hds.
    pose proof (lookup_lt_Some _ _ _ Hds) as Hc.
    rewrite pr_sweep_detections_length in Hc. rename Hc into Hc'.
    destruct (PR_func_init_slot _ _ _ _ _ _ c Hinit Hc')
      as (num_TP & cst & Hcls & Hp & Hr).
    rewrite Hds in Hcls. simpl in Hcls.
    apply class_curve_shape in Hcls.
    destruct Hcls as (ps & rs & r & Eps & Ers & Hl1 & Hl2 & _).
    exists ps, rs, r. rewrite Hp, Hr, Eps, Ers. auto.
Qed.

Lemma init_object_shape_witness :
  let f := mk_PR_func 1 ["person"%string] [[1; 1; 0]] [[1; 1; 1]] in
  class_names f = ["person"%string]
  /\ PR_wf f
  /\ forall c ds,
       detections (pr_sweep iou_xywh (length ["person"%string]) (1 # 2) None
                            [img_two_preds]) !! c = Some ds ->
       exists ps rs r,
         precisions f !! c = Some (ps ++ [0])
         /\ recalls f !! c = Some (rs ++ [r])
         /\ length ps = length ds
         /\ length rs = length ds.
Proof.
  apply (init_object_shape iou_xywh ["person"%string] (1 # 2) None
           [img_two_preds]).
  reflexivity.
Defined.

Lemma prec_at_le_1 (detection : list det) (i : nat) :
  (i < length detection)%nat -> prec_at detection i <= 1.
Proof.
  intros Hi. unfold prec_at. cbv zeta.
  pose proof (curve_body_divisor_pos detection i Hi) as Hpos.
  pose proof (count_TP_nonneg (take (i + 1) detection)) as Hnn.
  pose proof (List.filter_length_le det_mask (take (i + 1) detection)) as Hf.
  apply ratio_in_unit; [|exact Hpos].
  unfold count_TPP in *. lia.
Qed.

Lemma class_curve_precisions_le_1 (num_TP : option Z) (g : nat)
    (D0 : list det) (cst : curve_state) (p : Q) :
  class_curve num_TP g D0 = inr cst ->
  In p (cs_precisions cst) -> p <= 1.
Proof.
  intros H Hp. destruct D0 as [|d D0].
  - unfold class_curve in H. simpl in H.
    destruct num_TP as [k|]; [|discriminate]. simpl in H.
    unfold py_div in H. destruct (Z.of_nat g =? 0)%Z; [discriminate|].
    simpl in H. injection H as <-. simpl in Hp.
    destruct Hp as [<-|[]]. discriminate.
  - pose proof (class_curve_inr_gts _ _ _ _ H) as Hg.
    assert (Hne : d :: D0 <> []) by congruence.
    remember (d :: D0) as DD eqn:EDD. clear EDD.
    rewrite class_curve_run in H by assumption.
    injection H as <-. cbn [cs_precisions] in Hp.
    apply in_app_iff in Hp. destruct Hp as [Hp|[<-|[]]];
      [|discriminate].
    apply in_map_iff in Hp. destruct Hp as (i & <- & Hi).
    apply in_seq in Hi. apply prec_at_le_1.
    rewrite sort_desc_length. lia.
Qed.

(** X14: every precision a constructed object holds lies between 0 and
    1. *)
Theorem init_precisions_in_unit (cal_iou : xywhcp -> xywhcp -> Q)
    (names : list string) (thr : Q) (max_per_img : option Z)
    (imgs : list image) (f : PR_func) (c : nat) (ps : list Q) (p : Q) :
  PR_func_init cal_iou names thr max_per_img imgs = inr f ->
  precisions f !! c = Some ps -> In p ps ->
  0 <= p /\ p <= 1.
Proof.
  intros Hinit Hps Hp.
  destruct (PR_func_init_lengths _ _ _ _ _ _ Hinit) as (_ & Hlp & _).
  pose proof (lookup_lt_Some _ _ _ Hps) as Hc. rewrite Hlp in Hc.
  destruct (PR_func_init_slot _ _ _ _ _ _ c Hinit Hc)
    as (num_TP & cst & Hcls & Hp' & _).
  rewrite Hp' in Hps. injection Hps as <-.
  split.
  - eapply class_curve_precisions_nonneg; eassumption.
  - eapply class_curve_precisions_le_1; eassumption.
Qed.

Lemma init_precisions_in_unit_witness :
  0 <= 1 /\ 1 <= 1.
Proof.
  apply (init_precisions_in_unit iou_xywh ["person"%string] (1 # 2) None
           [img_two_preds]
           (mk_PR_func 1 ["person"%string] [[1; 1; 0]] [[1; 1; 1]])
           0 [1; 1; 0] 1).
  - reflexivity.
  - reflexivity.
  - simpl. auto.
Defined.

Lemma contributions_ids_upper (cal_iou : xywhcp -> xywhcp -> Q) (thr : Q)
    (max_per_img : option Z) (c : nat) (imgs : list image) :
  forall (g : nat) (x : det),
  In x (concat (contributions cal_iou thr max_per_img c g imgs)) ->
  (det_id x < g + length (of_class c (concat (map xywhcp_true imgs))))%nat.
Proof.
  induction imgs as [|img imgs IH]; intros g x Hx; [contradiction|].
  cbn [contributions concat] in Hx. apply in_app_iff in Hx.
  cbn [map concat]. unfold of_class at 1.
  rewrite List.filter_app, length_app.
  fold (of_class c (xywhcp_true img)).
  fold (of_class c (concat (map xywhcp_true imgs))).
  destruct Hx as [Hx|Hx].
  - apply class_detection_ids in Hx. lia.
  - apply IH in Hx. lia.
Qed.

(** Distinct ids below [G] are at most [G]. *)
Lemma count_TP_le_bound (l : list det) (G : nat) :
  (forall x, In x l -> (det_id x < G)%nat) ->
  (count_TP l <= Z.of_nat G)%Z.
Proof.
  intros Hall. unfold count_TP.
  assert (Hsub : remove_dups (map det_id (List.filter det_mask l))
                 ⊆+ seq 0 G).
  { apply NoDup_submseteq; [apply NoDup_remove_dups|].
    intros i Hi. rewrite elem_of_remove_dups, list_elem_of_In in Hi.
    apply in_map_iff in Hi. destruct Hi as (x & <- & Hx).
    apply filter_In in Hx. destruct Hx as [Hx _].
    apply elem_of_seq. specialize (Hall x Hx). lia. }
  apply submseteq_length in Hsub. rewrite length_seq in Hsub. lia.
Qed.

(** The recalls of a class with rows, as the constructor computes them,
    and their range. *)
Lemma init_slot_with_rows (cal_iou : xywhcp -> xywhcp -> Q)
    (names : list string) (thr : Q) (max_per_img : option Z)
    (imgs : list image) (f : PR_func) (c : nat) (ds : list det) :
  PR_func_init cal_iou names thr max_per_img imgs = inr f ->
  detections (pr_sweep cal_iou (length names) thr max_per_img imgs) !! c
  = Some ds ->
  ds <> [] ->
  exists G : Z,
    recalls f !! c
    = Some (map (rec_at G (sort_desc ds)) (seq 0 (length ds))
            ++ [rec_at G (sort_desc ds) (length ds - 1)])
    /\ forall i, 0 <= rec_at G (sort_desc ds) i
                 /\ rec_at G (sort_desc ds) i <= 1.
Proof.
  intros Hinit Hds Hne.
  pose proof (lookup_lt_Some _ _ _ Hds) as Hc.
  rewrite pr_sweep_detections_length in Hc.
  destruct (PR_func_init_slot _ _ _ _ _ _ c Hinit Hc)
    as (num_TP & cst & Hcls & _ & Hr').
  rewrite Hds in Hcls. cbn [default from_option id] in Hcls.
  unfold pr_sweep in Hcls.
  rewrite (pr_fold_gts cal_iou thr max_per_img (length names) c imgs Hc
             (pr_init (length names)) 0%nat []) in Hcls;
    try (simpl; apply lookup_replicate_2; exact Hc).
  cbn [default from_option id Nat.add] in Hcls.
  set (G := length (of_class c (concat (map xywhcp_true imgs)))) in *.
  pose proof (class_curve_inr_gts _ _ _ _ Hcls) as HG.
  exists (Z.of_nat G). split.
  - rewrite class_curve_run in Hcls by assumption.
    injection Hcls as <-. exact Hr'.
  - assert (Hids : forall x, In x (sort_desc ds) -> (det_id x < G)%nat).
    { intros x Hx. apply sort_desc_In in Hx.
      rewrite (pr_sweep_detections cal_iou thr max_per_img (length names) c
                 imgs Hc) in Hds.
      injection Hds as <-.
      apply contributions_ids_upper in Hx. exact Hx. }
    intros i. unfold rec_at. apply ratio_in_unit; [|lia].
    split; [apply count_TP_nonneg|].
    apply count_TP_le_bound. intros x Hx. apply Hids.
    apply list_elem_of_In. eapply subseteq_take.
    apply list_elem_of_In. exact Hx.
Qed.

(** X15: for a class that accumulated at least one row, every recall a
    constructed object holds lies between 0 and 1. *)
Theorem init_recalls_in_unit (cal_iou : xywhcp -> xywhcp -> Q)
    (names : list string) (thr : Q) (max_per_img : option Z)
    (imgs : list image) (f : PR_func) (c : nat) (ds : list det)
    (rs : list Q) (r : Q) :
  PR_func_init cal_iou names thr max_per_img imgs = inr f ->
  detections (pr_sweep cal_iou (length names) thr max_per_img imgs) !! c
  = Some ds ->
  ds <> [] ->
  recalls f !! c = Some rs -> In r rs ->
  0 <= r /\ r <= 1.
Proof.
  intros Hinit Hds Hne Hrs Hr.
  destruct (init_slot_with_rows _ _ _ _ _ _ _ _ Hinit Hds Hne)
    as (G & Hrec & Hrange).
  rewrite Hrec in Hrs. injection Hrs as <-.
  apply in_app_iff in Hr. destruct Hr as [Hr|[<-|[]]]; [|apply Hrange].
  apply in_map_iff in Hr. destruct Hr as (i & <- & _). apply Hrange.
Qed.

Lemma init_recalls_in_unit_witness :
  0 <= 1 /\ 1 <= 1.
Proof.
  apply (init_recalls_in_unit iou_xywh ["person"%string] (1 # 2) None
           [img_two_preds]
           (mk_PR_func 1 ["person"%string] [[1; 1; 0]] [[1; 1; 1]])
           0 [mk_det (9 # 10) 0 true; mk_det (3 # 10) 0 true] [1; 1; 1] 1).
  - reflexivity.
  - reflexivity.
  - discriminate.
  - reflexivity.
  - simpl. auto.
Defined.

(** * Further properties of the query *)

(** A call with an index of the accepted range, on a constructed object. *)
Lemma PR_call_envelope (cal_iou : xywhcp -> xywhcp -> Q)
    (names : list string) (thr : Q) (max_per_img : option Z)
    (imgs : list image) (f : PR_func) (c : Z) :
  PR_func_init cal_iou names thr max_per_img imgs = inr f ->
  (- Z.of_nat (class_num f) <= c < Z.of_nat (class_num f))%Z ->
  exists k ps rs,
    (if (c <? 0)%Z then Z.of_nat (class_num f) + c else c)%Z = Z.of_nat k
    /\ precisions f !! k = Some ps
    /\ recalls f !! k = Some rs
    /\ length ps = length rs
    /\ forall r, PR_call f r c = inr (envelope ps rs r).
Proof.
  intros Hinit Hin.
  destruct (PR_func_init_lengths _ _ _ _ _ _ Hinit) as (Hn & Hlp & Hlr).
  rewrite <- Hn in Hlp, Hlr.
  set (k := Z.to_nat (if (c <? 0)%Z then Z.of_nat (class_num f) + c else c)).
  assert (Hk : (if (c <? 0)%Z then Z.of_nat (class_num f) + c else c)%Z
               = Z.of_nat k).
  { subst k. destruct (Z.ltb_spec c 0); lia. }
  destruct (PR_func_init_sequences _ _ _ _ _ _ k Hinit)
    as (ps & rs & Hps & Hrs & Hlen & Hpos & _).
  { destruct (Z.ltb_spec c 0); lia. }
  exists k, ps, rs. repeat split; try assumption.
  intros r.
  rewrite (PR_call_selects f r c k ps rs Hlp Hlr ltac:(lia) Hk Hps Hrs).
  unfold envelope. cbv zeta.
  pose proof (List.filter_length_le (fun x => Qltb r x) rs) as Hle.
  destruct (Nat.eqb_spec (length (List.filter (fun x => Qltb r x) rs)) 0)
    as [_|Hnz]; [reflexivity|].
  rewrite py_slice_last by lia.
  destruct (drop _ ps) as [|x l] eqn:Edrop; [|reflexivity].
  exfalso. apply (f_equal length) in Edrop.
  rewrite length_drop in Edrop. simpl in Edrop. lia.
Qed.

(** A call that returns had an index of the accepted range. *)
Lemma PR_call_inr_range (cal_iou : xywhcp -> xywhcp -> Q)
    (names : list string) (thr : Q) (max_per_img : option Z)
    (imgs : list image) (f : PR_func) (r : Q) (c : Z) (v : Q) :
  PR_func_init cal_iou names thr max_per_img imgs = inr f ->
  PR_call f r c = inr v ->
  (- Z.of_nat (class_num f) <= c < Z.of_nat (class_num f))%Z.
Proof.
  intros Hinit Hcall.
  destruct (PR_func_init_lengths _ _ _ _ _ _ Hinit) as (Hn & Hlp & Hlr).
  rewrite <- Hn in Hlp, Hlr.
  unfold PR_call in Hcall.
  destruct (Z.leb_spec (Z.of_nat (class_num f)) c) as [H|Hlt];
    [discriminate|].
  split; [|exact Hlt].
  destruct (Z_lt_le_dec c (- Z.of_nat (class_num f))) as [Hlow|Hok];
    [|exact Hok].
  rewrite py_index_out_of_range in Hcall by (rewrite Hlp; lia).
  discriminate.
Qed.

(** The envelope is 0 or one of the precisions. *)
Lemma envelope_in (ps rs : list Q) (r : Q) :
  length ps = length rs ->
  envelope ps rs r = 0 \/ In (envelope ps rs r) ps.
Proof.
  intros Hlen. unfold envelope. cbv zeta.
  pose proof (List.filter_length_le (fun x => Qltb r x) rs) as Hle.
  destruct (Nat.eqb_spec (length (List.filter (fun x => Qltb r x) rs)) 0)
    as [_|Hnz]; [now left|].
  right.
  assert (Hne : drop (length ps - length (List.filter (fun x => Qltb r x) rs))
                  ps <> []).
  { intros E. apply (f_equal length) in E. rewrite length_drop in E.
    simpl in E. lia. }
  apply np_max_in in Hne.
  apply list_elem_of_In. eapply subseteq_drop.
  apply list_elem_of_In. exact Hne.
Qed.

(** On a constructed object the envelope of a class lies between 0 and
    1. *)
Lemma init_envelope_unit (cal_iou : xywhcp -> xywhcp -> Q)
    (names : list string) (thr : Q) (max_per_img : option Z)
    (imgs : list image) (f : PR_func) (k : nat) (ps rs : list Q) (r : Q) :
  PR_func_init cal_iou names thr max_per_img imgs = inr f ->
  precisions f !! k = Some ps -> length ps = length rs ->
  0 <= envelope ps rs r /\ envelope ps rs r <= 1.
Proof.
  intros Hinit Hps Hlen.
  destruct (envelope_in ps rs r Hlen) as [E|Hp].
  - rewrite E. split; discriminate.
  - pose proof (lookup_lt_Some _ _ _ Hps) as Hk.
    destruct (PR_func_init_lengths _ _ _ _ _ _ Hinit) as (_ & Hlp & _).
    rewrite Hlp in Hk.
    destruct (PR_func_init_slot _ _ _ _ _ _ k Hinit Hk)
      as (num_TP & cst & Hcls & Hp' & _).
    rewrite Hp' in Hps. injection Hps as <-.
    split.
    + eapply class_curve_precisions_nonneg; eassumption.
    + eapply class_curve_precisions_le_1; eassumption.
Qed.

(** X16: whatever a call on a constructed object returns lies between 0
    and 1. *)
Theorem call_in_unit (cal_iou : xywhcp -> xywhcp -> Q)
    (names : list string) (thr : Q) (max_per_img : option Z)
    (imgs : list image) (f : PR_func) (r : Q) (c : Z) (v : Q) :
  PR_func_init cal_iou names thr max_per_img imgs = inr f ->
  PR_call f r c = inr v ->
  0 <= v /\ v <= 1.
Proof.
  intros Hinit Hcall.
  pose proof (PR_call_inr_range _ _ _ _ _ _ _ _ _ Hinit Hcall) as Hin.
  destruct (PR_call_envelope _ _ _ _ _ _ c Hinit Hin)
    as (k & ps & rs & _ & Hps & _ & Hlen & Henv).
  rewrite Henv in Hcall. injection Hcall as <-.
  eapply init_envelope_unit; eassumption.
Qed.

Lemma call_in_unit_witness : 0 <= 1 /\ 1 <= 1.
Proof.
  apply (call_in_unit iou_xywh ["person"%string] (1 # 2) None [img_two_preds]
           (mk_PR_func 1 ["person"%string] [[1; 1; 0]] [[1; 1; 1]])
           (1 # 2) 0 1); reflexivity.
Defined.

Lemma filter_length_mono {A : Type} (p q : A -> bool) (l : list A) :
  (forall x, p x = true -> q x = true) ->
  (length (List.filter p l) <= length (List.filter q l))%nat.
Proof.
  intros Hpq. induction l as [|x l IH]; simpl; [lia|].
  destruct (p x) eqn:Ep.
  - rewrite (Hpq x Ep). simpl. lia.
  - destruct (q x); simpl; lia.
Qed.

Lemma In_drop_le {A : Type} (l : list A) (i j : nat) (x : A) :
  (i <= j)%nat -> In x (drop j l) -> In x (drop i l).
Proof.
  intros Hij Hx. apply In_lookup in Hx. destruct Hx as (t & Ht).
  rewrite lookup_drop in Ht.
  apply (lookup_In (drop i l) (j - i + t)).
  rewrite lookup_drop. rewrite <- Ht. f_equal. lia.
Qed.

(** On precisions that are not negative, asking for more recall never
    gives more precision. *)
Lemma envelope_antitone (ps rs : list Q) (r r' : Q) :
  length ps = length rs ->
  (forall p, In p ps -> 0 <= p) ->
  r <= r' ->
  envelope ps rs r' <= envelope ps rs r.
Proof.
  intros Hlen Hnn Hrr.
  assert (Hge : 0 <= envelope ps rs r).
  { destruct (envelope_in ps rs r Hlen) as [E|Hp];
      [rewrite E; apply Qle_refl|apply Hnn, Hp]. }
  revert Hge. unfold envelope. cbv zeta.
  pose proof (filter_length_mono (fun x => Qltb r' x) (fun x => Qltb r x) rs)
    as Hmono.
  specialize (Hmono ltac:(intros x Hx; apply Qltb_lt;
                          apply Qltb_lt in Hx;
                          eapply Qle_lt_trans; eassumption)).
  pose proof (List.filter_length_le (fun x => Qltb r x) rs) as Hle.
  set (k := length (List.filter (fun x => Qltb r x) rs)) in *.
  set (k' := length (List.filter (fun x => Qltb r' x) rs)) in *.
  destruct (Nat.eqb_spec k' 0) as [_|Hk']; [auto|].
  destruct (Nat.eqb_spec k 0) as [Hk|_]; [lia|].
  intros _.
  assert (Hne : drop (length ps - k') ps <> []).
  { intros E. apply (f_equal length) in E. rewrite length_drop in E.
    simpl in E. lia. }
  apply np_max_upper.
  apply (In_drop_le ps (length ps - k) (length ps - k')); [lia|].
  apply np_max_in, Hne.
Qed.

(** X17: on a constructed object the precision returned for a class never
    increases with the recall asked for. *)
Theorem call_antitone (cal_iou : xywhcp -> xywhcp -> Q)
    (names : list string) (thr : Q) (max_per_img : option Z)
    (imgs : list image) (f : PR_func) (r r' : Q) (c : Z) (v v' : Q) :
  PR_func_init cal_iou names thr max_per_img imgs = inr f ->
  r <= r' ->
  PR_call f r c = inr v ->
  PR_call f r' c = inr v' ->
  v' <= v.
Proof.
  intros Hinit Hrr Hcall Hcall'.
  pose proof (PR_call_inr_range _ _ _ _ _ _ _ _ _ Hinit Hcall) as Hin.
  destruct (PR_call_envelope _ _ _ _ _ _ c Hinit Hin)
    as (k & ps & rs & _ & Hps & _ & Hlen & Henv).
  rewrite Henv in Hcall, Hcall'.
  injection Hcall as <-. injection Hcall' as <-.
  apply envelope_antitone; [exact Hlen| |exact Hrr].
  intros p Hp.
  eapply PR_func_init_precisions_nonneg; eassumption.
Qed.

Lemma call_antitone_witness : 0 <= 1.
Proof.
  apply (call_antitone iou_xywh ["person"%string] (1 # 2) None [img_two_preds]
           (mk_PR_func 1 ["person"%string] [[1; 1; 0]] [[1; 1; 1]])
           (1 # 2) 1 0 1 0); try reflexivity.
  discriminate.
Defined.

Lemma class_curve_no_rows (num_TP : option Z) (g : nat) (cst : curve_state) :
  class_curve num_TP g [] = inr cst -> cs_precisions cst = [0].
Proof.
  unfold class_curve. simpl.
  destruct num_TP as [k|]; [|discriminate]. simpl.
  unfold py_div. destruct (Z.of_nat g =? 0)%Z; [discriminate|].
  simpl. intros [= <-]. reflexivity.
Qed.

(** On a constructed object no entry of a class counts as above a recall
    of 1 or more, unless the class has no row, and then its only precision
    is 0. *)
Lemma init_envelope_full_recall (cal_iou : xywhcp -> xywhcp -> Q)
    (names : list string) (thr : Q) (max_per_img : option Z)
    (imgs : list image) (f : PR_func) (k : nat) (ps rs : list Q) (r : Q) :
  PR_func_init cal_iou names thr max_per_img imgs = inr f ->
  precisions f !! k = Some ps -> recalls f !! k = Some rs ->
  length ps = length rs ->
  1 <= r ->
  envelope ps rs r = 0.
Proof.
  intros Hinit Hps Hrs Hlen Hr.
  destruct (PR_func_init_lengths _ _ _ _ _ _ Hinit) as (Hn & Hlp & _).
  pose proof (lookup_lt_Some _ _ _ Hps) as Hk. rewrite Hlp in Hk.
  destruct (lookup_lt_is_Some_2
              (detections (pr_sweep cal_iou (length names) thr max_per_img
                                    imgs)) k) as [ds Hds].
  { rewrite pr_sweep_detections_length. exact Hk. }
  assert (Hcase : ds = [] \/ ds <> [])
    by (destruct ds; [left|right]; congruence).
  destruct Hcase as [->|Hne].
  - destruct (PR_func_init_slot _ _ _ _ _ _ k Hinit Hk)
      as (num_TP & cst & Hcls & Hp' & _).
    rewrite Hds in Hcls. cbn [default from_option id] in Hcls.
    apply class_curve_no_rows in Hcls.
    rewrite Hp', Hcls in Hps. injection Hps as <-.
    destruct (envelope_in [0] rs r Hlen) as [E|[E|[]]]; congruence.
  - destruct (init_slot_with_rows _ _ _ _ _ _ _ _ Hinit Hds Hne)
      as (G & Hrec & Hrange).
    rewrite Hrec in Hrs. injection Hrs as <-.
    unfold envelope. cbv zeta. rewrite filter_none; [reflexivity|].
    intros x Hx. apply Qltb_ge.
    eapply Qle_trans; [|exact Hr].
    apply in_app_iff in Hx. destruct Hx as [Hx|[<-|[]]]; [|apply Hrange].
    apply in_map_iff in Hx. destruct Hx as (i & <- & _). apply Hrange.
Qed.

(** X18: on a constructed object a call with a recall of 1 or more returns
    0 for every class: no recall of a class with rows exceeds 1, and a class
    without rows holds the sentinel precision 0 only. *)
Theorem call_at_full_recall (cal_iou : xywhcp -> xywhcp -> Q)
    (names : list string) (thr : Q) (max_per_img : option Z)
    (imgs : list image) (f : PR_func) (r : Q) (c : Z) :
  PR_func_init cal_iou names thr max_per_img imgs = inr f ->
  (- Z.of_nat (class_num f) <= c < Z.of_nat (class_num f))%Z ->
  1 <= r ->
  PR_call f r c = inr 0.
Proof.
  intros Hinit Hin Hr.
  destruct (PR_call_envelope _ _ _ _ _ _ c Hinit Hin)
    as (k & ps & rs & _ & Hps & Hrs & Hlen & Henv).
  rewrite Henv. f_equal.
  eapply init_envelope_full_recall; eassumption.
Qed.

Lemma call_at_full_recall_witness :
  PR_call (mk_PR_func 1 ["person"%string] [[1; 1; 0]] [[1; 1; 1]]) 1 0
  = inr 0.
Proof.
  apply (call_at_full_recall iou_xywh ["person"%string] (1 # 2) None
           [img_two_preds]
           (mk_PR_func 1 ["person"%string] [[1; 1; 0]] [[1; 1; 1]]) 1 0).
  - reflexivity.
  - simpl. lia.
  - discriminate.
Defined.

(** * Further properties of [get_map] *)


Lemma for_each_app {S : Type} (l1 l2 : list nat)
    (body : S -> nat -> result S) (st : S) :
  for_each (l1 ++ l2) body st
  = bind (for_each l1 body st) (for_each l2 body).
Proof.
  revert st. induction l1 as [|i l1 IH]; intros st; simpl; [reflexivity|].
  destruct (body st i) as [e|st']; simpl; [reflexivity|]. apply IH.
Qed.

(** A loop that adds up values of [0, 1]. *)
Lemma call_sum_loop (G : nat -> result Q) (idxs : list nat) :
  (forall k, In k idxs -> exists v, G k = inr v /\ 0 <= v /\ v <= 1) ->
  forall a0, exists total,
    for_each idxs (fun ap k => v <- G k; ret (ap + v)) a0 = inr total
    /\ a0 <= total
    /\ total <= a0 + inject_Z (Z.of_nat (length idxs)).
Proof.
  induction idxs as [|k idxs IH]; intros HG a0.
  - exists a0. simpl. repeat split; [apply Qle_refl|].
    change (inject_Z (Z.of_nat 0)) with 0. lra.
  - destruct (HG k ltac:(now left)) as (v & Hv & Hv0 & Hv1).
    destruct (IH ltac:(intros j Hj; apply HG; now right) (a0 + v))
      as (total & Hrun & Hlo & Hhi).
    exists total. simpl for_each. rewrite Hv. simpl. split; [exact Hrun|].
    simpl length. rewrite Nat2Z.inj_succ, <- Z.add_1_r, inject_Z_plus.
    change (inject_Z 1) with 1. split; lra.
Qed.

Lemma sum_fold_bounds (B : Q) (l : list Q) :
  (forall x, In x l -> 0 <= x /\ x <= B) ->
  forall a, a <= fold_left Qplus l a
            /\ fold_left Qplus l a <= a + B * inject_Z (Z.of_nat (length l)).
Proof.
  induction l as [|x l IH]; intros Hall a; simpl fold_left.
  - change (inject_Z (Z.of_nat (length []))) with 0. split; lra.
  - destruct (Hall x ltac:(now left)) as [Hx0 Hx1].
    destruct (IH ltac:(intros y Hy; apply Hall; now right) (a + x))
      as [Hlo Hhi].
    simpl length. rewrite Nat2Z.inj_succ, <- Z.add_1_r, inject_Z_plus.
    change (inject_Z 1) with 1. split; lra.
Qed.

(** The mean of numbers of [0, B]. *)
Lemma mean_bounds (B : Q) (l : list Q) :
  l <> [] ->
  (forall x, In x l -> 0 <= x /\ x <= B) ->
  0 <= sumQ l / inject_Z (Z.of_nat (length l))
  /\ sumQ l / inject_Z (Z.of_nat (length l)) <= B.
Proof.
  intros Hne Hall.
  destruct (sum_fold_bounds B l Hall 0) as [Hlo Hhi].
  assert (Hpos : 0 < inject_Z (Z.of_nat (length l))).
  { change 0 with (inject_Z 0). rewrite <- Zlt_Qlt.
    destruct l; [congruence|simpl; lia]. }
  unfold sumQ. split.
  - apply Qle_shift_div_l; [exact Hpos|]. lra.
  - apply Qle_shift_div_r; [exact Hpos|]. lra.
Qed.

(** The table [get_map] returns when the average of every class is
    known. *)
Lemma get_map_table (f : PR_func) (mode : map_mode) (h : nat -> Q) :
  (0 < class_num f)%nat ->
  (forall c, (c < class_num f)%nat -> class_ap f mode c = inr (h c)) ->
  get_map f mode
  = inr (zip (class_names f ++ ["mAP"%string])
             (map h (seq 0 (class_num f))
              ++ [sumQ (map h (seq 0 (class_num f)))
                  / inject_Z (Z.of_nat (length (map h (seq 0 (class_num f)))))])).
Proof.
  intros Hpos Hap.
  destruct (for_each_fill (class_ap f mode) h (seq 0 (class_num f))
              (NoDup_seq 0 (class_num f)) (replicate (class_num f) 0))
    as (out & Hrun & Hlen & Hin & _).
  { intros i Hi. apply in_seq in Hi. rewrite length_replicate.
    split; [lia|]. apply Hap. lia. }
  rewrite length_replicate in Hlen.
  assert (Eout : out = map h (seq 0 (class_num f))).
  { apply list_eq. intros i.
    destruct (le_lt_dec (class_num f) i) as [Hge|Hlt].
    - rewrite !lookup_ge_None_2; [reflexivity| |lia].
      rewrite length_map, length_seq. exact Hge.
    - rewrite lookup_map_seq by exact Hlt. apply Hin, in_seq. lia. }
  unfold get_map. rewrite Hrun. cbn [bind]. rewrite <- Eout, Hlen.
  destruct (Nat.eqb_spec (class_num f) 0) as [E|_]; [lia|].
  reflexivity.
Qed.

Lemma get_map_no_class (f : PR_func) (mode : map_mode) :
  class_num f = 0%nat -> get_map f mode = inl ZeroDivisionError.
Proof. intros E. unfold get_map. rewrite E. reflexivity. Qed.

(** The average precision of a class in the two point-wise modes. *)
Lemma voc_class_ap (cal_iou : xywhcp -> xywhcp -> Q)
    (names : list string) (thr : Q) (max_per_img : option Z)
    (imgs : list image) (f : PR_func) (mode : map_mode) (c : nat) :
  PR_func_init cal_iou names thr max_per_img imgs = inr f ->
  (c < class_num f)%nat ->
  mode = voc2007 \/ mode = voc2012 ->
  exists ap, class_ap f mode c = inr ap /\ 0 <= ap /\ ap <= voc_cap mode.
Proof.
  intros Hinit Hc Hmode.
  destruct (PR_call_envelope _ _ _ _ _ _ (Z.of_nat c) Hinit ltac:(lia))
    as (k & ps & rs & _ & Hps & Hrs & Hlen & Henv).
  assert (Hunit : forall r, exists v,
            PR_call f r (Z.of_nat c) = inr v /\ 0 <= v /\ v <= 1).
  { intros r. exists (envelope ps rs r). split; [apply Henv|].
    eapply init_envelope_unit; eassumption. }
  assert (Hfull : forall r, 1 <= r -> PR_call f r (Z.of_nat c) = inr 0).
  { intros r Hr. rewrite Henv. f_equal.
    eapply init_envelope_full_recall; eassumption. }
  destruct Hmode as [-> | ->]; unfold class_ap; cbv beta iota.
  - change (length (recall_list voc2007)) with 11%nat.
    change (seq 0 11) with (seq 0 10 ++ [10%nat]).
    rewrite for_each_app.
    destruct (call_sum_loop
                (fun k => PR_call f (nth k (recall_list voc2007) 0)
                                  (Z.of_nat c))
                (seq 0 10) ltac:(intros j _; apply Hunit) 0)
      as (total & Hrun & Hlo & Hhi).
    rewrite Hrun. cbn [bind for_each].
    rewrite (Hfull (nth 10 (recall_list voc2007) 0)) by discriminate.
    cbn [bind ret]. eexists. split; [reflexivity|].
    change (inject_Z (Z.of_nat (length (seq 0 10)))) with 10 in Hhi.
    change (inject_Z (Z.of_nat 11)) with 11. unfold voc_cap.
    split.
    + apply Qle_shift_div_l; [reflexivity|]. lra.
    + apply Qle_shift_div_r; [reflexivity|]. lra.
  - change (length (recall_list voc2012)) with 7%nat.
    change (seq 0 7) with (seq 0 6 ++ [6%nat]).
    rewrite for_each_app.
    destruct (call_sum_loop
                (fun k => PR_call f (nth k (recall_list voc2012) 0)
                                  (Z.of_nat c))
                (seq 0 6) ltac:(intros j _; apply Hunit) 0)
      as (total & Hrun & Hlo & Hhi).
    rewrite Hrun. cbn [bind for_each].
    rewrite (Hfull (nth 6 (recall_list voc2012) 0)) by discriminate.
    cbn [bind ret]. eexists. split; [reflexivity|].
    change (inject_Z (Z.of_nat (length (seq 0 6)))) with 6 in Hhi.
    change (inject_Z (Z.of_nat 7)) with 7. unfold voc_cap.
    split.
    + apply Qle_shift_div_l; [reflexivity|]. lra.
    + apply Qle_shift_div_r; [reflexivity|]. lra.
Qed.

Lemma nondecreasing_tail (r : Q) (rs : list Q) :
  nondecreasing (r :: rs) -> nondecreasing rs.
Proof.
  intros H i j x y Hij Hi Hj.
  apply (H (S i) (S j) x y); [lia|exact Hi|exact Hj].
Qed.

Lemma nondecreasing_head (r0 r1 : Q) (rs : list Q) :
  nondecreasing (r0 :: r1 :: rs) -> r0 <= r1.
Proof. intros H. apply (H 0%nat 1%nat r0 r1); [lia|reflexivity|reflexivity]. Qed.

(** The trapezoid sum of precisions of [0, 1] over recalls that never
    decrease is at most the span of the recalls. *)
Lemma trapezoid_bounds (hi : Q) (rs : list Q) :
  forall ps : list Q,
  nondecreasing rs ->
  (forall r, In r rs -> r <= hi) ->
  (forall p, In p ps -> 0 <= p /\ p <= 1) ->
  0 <= trapezoid rs ps
  /\ forall r0, head rs = Some r0 -> trapezoid rs ps <= hi - r0.
Proof.
  induction rs as [|r0 rs IH]; intros ps Hmono Hhi Hps.
  - simpl. split; [apply Qle_refl|]. intros r0 [=].
  - destruct rs as [|r1 rs].
    + simpl. split; [apply Qle_refl|]. intros r [= <-].
      specialize (Hhi r0 ltac:(now left)). lra.
    + destruct ps as [|p0 [|p1 ps]].
      * simpl. split; [apply Qle_refl|]. intros r [= <-].
        specialize (Hhi r0 ltac:(now left)). lra.
      * simpl. split; [apply Qle_refl|]. intros r [= <-].
        specialize (Hhi r0 ltac:(now left)). lra.
      * destruct (IH (p1 :: ps) (nondecreasing_tail _ _ Hmono)
                    ltac:(intros r Hr; apply Hhi; now right)
                    ltac:(intros p Hp; apply Hps; now right))
          as [IH0 IH1].
        specialize (IH1 r1 eq_refl).
        pose proof (nondecreasing_head _ _ _ Hmono) as H01.
        destruct (Hps p0 ltac:(now left)) as [Hp00 Hp01].
        destruct (Hps p1 ltac:(right; now left)) as [Hp10 Hp11].
        change (trapezoid (r0 :: r1 :: rs) (p0 :: p1 :: ps))
          with ((r1 - r0) * ((p0 + p1) / 2)
                + trapezoid (r1 :: rs) (p1 :: ps)).
        assert (Hq0 : 0 <= (p0 + p1) / 2)
          by (apply Qle_shift_div_l; [reflexivity|lra]).
        assert (Hq1 : (p0 + p1) / 2 <= 1)
          by (apply Qle_shift_div_r; [reflexivity|lra]).
        set (q := (p0 + p1) / 2) in *.
        assert (Ha : 0 <= (r1 - r0) * q)
          by (apply Qmult_le_0_compat; lra).
        assert (Hb : 0 <= (r1 - r0) * (1 - q))
          by (apply Qmult_le_0_compat; lra).
        split; [lra|]. intros r [= <-]. lra.
Qed.

Lemma running_max_pointwise (l : list Q) (m : Q) :
  Forall2 Qle l (fst (running_max l m)).
Proof.
  induction l as [|p l IH]; simpl; [constructor|].
  destruct (running_max l m) as [out m']. simpl in IH.
  destruct (Qltb m' p) eqn:E; simpl; constructor; try exact IH.
  - apply Qle_refl.
  - apply Qltb_ge, E.
Qed.

(** Raising the precisions raises the trapezoid sum, on recalls that never
    decrease. *)
Lemma trapezoid_mono (rs : list Q) :
  forall ps ps' : list Q,
  nondecreasing rs -> Forall2 Qle ps ps' ->
  trapezoid rs ps <= trapezoid rs ps'.
Proof.
  induction rs as [|r0 rs IH]; intros ps ps' Hmono Hle.
  - simpl. apply Qle_refl.
  - destruct rs as [|r1 rs]; [simpl; apply Qle_refl|].
    destruct Hle as [|p0 p0' ps ps' H0 Hle]; [simpl; apply Qle_refl|].
    destruct Hle as [|p1 p1' ps ps' H1 Hle]; [simpl; apply Qle_refl|].
    pose proof (IH (p1 :: ps) (p1' :: ps') (nondecreasing_tail _ _ Hmono)
                  ltac:(constructor; assumption)) as IHle.
    pose proof (nondecreasing_head _ _ _ Hmono) as H01.
    change (trapezoid (r0 :: r1 :: rs) (p0 :: p1 :: ps))
      with ((r1 - r0) * ((p0 + p1) / 2) + trapezoid (r1 :: rs) (p1 :: ps)).
    change (trapezoid (r0 :: r1 :: rs) (p0' :: p1' :: ps'))
      with ((r1 - r0) * ((p0' + p1') / 2)
            + trapezoid (r1 :: rs) (p1' :: ps')).
    assert (Hq : (p0 + p1) / 2 <= (p0' + p1') / 2).
    { apply Qle_shift_div_l; [reflexivity|].
      unfold Qdiv. rewrite <- Qmult_assoc, (Qmult_comm (/ 2)), Qmult_inv_r
        by discriminate. lra. }
    set (q := (p0 + p1) / 2) in *. set (q' := (p0' + p1') / 2) in *.
    assert (Ha : 0 <= (r1 - r0) * (q' - q))
      by (apply Qmult_le_0_compat; lra).
    lra.
Qed.

Lemma smooth_length (ps : list Q) : length (smooth ps) = length ps.
Proof. rewrite smooth_running_max. apply running_max_fst_length. Qed.

Lemma smooth_in_unit (ps : list Q) (v : Q) :
  (forall p, In p ps -> 0 <= p /\ p <= 1) ->
  In v (smooth ps) -> 0 <= v /\ v <= 1.
Proof.
  intros Hps Hv. rewrite smooth_running_max in Hv.
  apply In_lookup in Hv. destruct Hv as (i & Hi).
  apply running_max_lookup in Hi. subst v.
  destruct (running_max_snd_in (drop i ps) 0) as [E|Hin].
  - rewrite E. split; discriminate.
  - apply Hps. apply list_elem_of_In. eapply subseteq_drop.
    apply list_elem_of_In. exact Hin.
Qed.

Lemma class_ap_smootharea (f : PR_func) (c : nat) (ps rs : list Q) :
  precisions f !! c = Some ps ->
  recalls f !! c = Some rs ->
  length ps = length rs ->
  exists ap,
    class_ap f smootharea c = inr ap /\ ap == trapezoid rs (smooth ps).
Proof.
  intros Hps Hrs Hlen. unfold class_ap.
  rewrite (py_index_in_range (precisions f) (Z.of_nat c) c ps),
          (py_index_in_range (recalls f) (Z.of_nat c) c rs);
    try assumption;
    try (destruct (Z.ltb_spec (Z.of_nat c) 0); [lia|reflexivity]).
  simpl. unfold area_class.
  destruct (area_loop_trapezoid (smooth ps) rs 0
              ltac:(rewrite smooth_length; exact Hlen)) as (v & Hv & Ev).
  exists v. split; [exact Hv|]. rewrite Ev. ring.
Qed.

(** The two sequences of a class of a constructed object, with what the
    area modes need: precisions of [0, 1] and a trapezoid sum of [0, 1]
    under any precisions of [0, 1]. *)
Lemma init_class_area (cal_iou : xywhcp -> xywhcp -> Q)
    (names : list string) (thr : Q) (max_per_img : option Z)
    (imgs : list image) (f : PR_func) (c : nat) :
  PR_func_init cal_iou names thr max_per_img imgs = inr f ->
  (c < class_num f)%nat ->
  exists ps rs,
    precisions f !! c = Some ps
    /\ recalls f !! c = Some rs
    /\ length ps = length rs
    /\ nondecreasing rs
    /\ (forall p, In p ps -> 0 <= p /\ p <= 1)
    /\ forall qs, length qs = length ps ->
         (forall q, In q qs -> 0 <= q /\ q <= 1) ->
         0 <= trapezoid rs qs /\ trapezoid rs qs <= 1.
Proof.
  intros Hinit Hc.
  destruct (PR_func_init_sequences _ _ _ _ _ _ c Hinit Hc)
    as (ps & rs & Hps & Hrs & Hlen & Hpos & Hmono).
  exists ps, rs. repeat split; try assumption.
  - eapply PR_func_init_precisions_nonneg; eassumption.
  - destruct (PR_func_init_lengths _ _ _ _ _ _ Hinit) as (Hn & _ & _).
    rewrite Hn in Hc.
    destruct (PR_func_init_slot _ _ _ _ _ _ c Hinit Hc)
      as (num_TP & cst & Hcls & Hp' & _).
    rewrite Hp' in Hps. injection Hps as <-.
    eapply class_curve_precisions_le_1; eassumption.
  - destruct (PR_func_init_lengths _ _ _ _ _ _ Hinit) as (Hn & _ & _).
    rewrite Hn in Hc.
    destruct (lookup_lt_is_Some_2
                (detections (pr_sweep cal_iou (length names) thr max_per_img
                                      imgs)) c) as [ds Hds].
    { rewrite pr_sweep_detections_length. exact Hc. }
    assert (Hcase : ds = [] \/ ds <> [])
      by (destruct ds; [left|right]; congruence).
    destruct Hcase as [->|Hne].
    + destruct (PR_func_init_slot _ _ _ _ _ _ c Hinit Hc)
        as (num_TP & cst & Hcls & Hp' & _).
      rewrite Hds in Hcls. cbn [default from_option id] in Hcls.
      apply class_curve_no_rows in Hcls.
      rewrite Hp', Hcls in Hps. injection Hps as <-.
      destruct rs as [|r [|r' rs]]; simpl in Hlen; try lia.
      destruct qs as [|q [|q' qs]]; simpl; discriminate.
    + destruct (init_slot_with_rows _ _ _ _ _ _ _ _ Hinit Hds Hne)
        as (G & Hrec & Hrange).
      assert (Hrs1 : forall r, In r rs -> 0 <= r /\ r <= 1).
      { rewrite Hrec in Hrs. injection Hrs as <-. intros r Hr.
        apply in_app_iff in Hr. destruct Hr as [Hr|[<-|[]]]; [|apply Hrange].
        apply in_map_iff in Hr. destruct Hr as (i & <- & _). apply Hrange. }
      destruct (trapezoid_bounds 1 rs qs Hmono
                  ltac:(intros r Hr; apply Hrs1, Hr) H0) as [Hlo _].
      exact Hlo.
  - destruct (PR_func_init_lengths _ _ _ _ _ _ Hinit) as (Hn & _ & _).
    rewrite Hn in Hc.
    destruct (lookup_lt_is_Some_2
                (detections (pr_sweep cal_iou (length names) thr max_per_img
                                      imgs)) c) as [ds Hds].
    { rewrite pr_sweep_detections_length. exact Hc. }
    assert (Hcase : ds = [] \/ ds <> [])
      by (destruct ds; [left|right]; congruence).
    destruct Hcase as [->|Hne].
    + destruct (PR_func_init_slot _ _ _ _ _ _ c Hinit Hc)
        as (num_TP & cst & Hcls & Hp' & _).
      rewrite Hds in Hcls. cbn [default from_option id] in Hcls.
      apply class_curve_no_rows in Hcls.
      rewrite Hp', Hcls in Hps. injection Hps as <-.
      destruct rs as [|r [|r' rs]]; simpl in Hlen; try lia.
      destruct qs as [|q [|q' qs]]; simpl; discriminate.
    + destruct (init_slot_with_rows _ _ _ _ _ _ _ _ Hinit Hds Hne)
        as (G & Hrec & Hrange).
      assert (Hrs1 : forall r, In r rs -> 0 <= r /\ r <= 1).
      { rewrite Hrec in Hrs. injection Hrs as <-. intros r Hr.
        apply in_app_iff in Hr. destruct Hr as [Hr|[<-|[]]]; [|apply Hrange].
        apply in_map_iff in Hr. destruct Hr as (i & <- & _). apply Hrange. }
      destruct (trapezoid_bounds 1 rs qs Hmono
                  ltac:(intros r Hr; apply Hrs1, Hr) H0) as [_ Hhi].
      destruct rs as [|r0 rs]; [simpl in Hpos; lia|].
      specialize (Hhi r0 eq_refl).
      destruct (Hrs1 r0 ltac:(now left)) as [Hr0 _]. lra.
Qed.

Lemma class_ap_in_unit (cal_iou : xywhcp -> xywhcp -> Q)
    (names : list string) (thr : Q) (max_per_img : option Z)
    (imgs : list image) (f : PR_func) (mode : map_mode) (c : nat) :
  PR_func_init cal_iou names thr max_per_img imgs = inr f ->
  (c < class_num f)%nat ->
  exists ap, class_ap f mode c = inr ap /\ 0 <= ap /\ ap <= 1.
Proof.
  intros Hinit Hc.
  destruct (init_class_area _ _ _ _ _ _ c Hinit Hc)
    as (ps & rs & Hps & Hrs & Hlen & Hmono & Hunit & Harea).
  destruct mode.
  - destruct (voc_class_ap _ _ _ _ _ _ voc2007 c Hinit Hc ltac:(now left))
      as (ap & Hap & H0 & H1).
    exists ap. repeat split; try assumption.
    eapply Qle_trans; [exact H1|discriminate].
  - destruct (voc_class_ap _ _ _ _ _ _ voc2012 c Hinit Hc ltac:(now right))
      as (ap & Hap & H0 & H1).
    exists ap. repeat split; try assumption.
    eapply Qle_trans; [exact H1|discriminate].
  - destruct (class_ap_area f c ps rs Hps Hrs Hlen) as (ap & Hap & Eap).
    exists ap. split; [exact Hap|]. rewrite Eap. apply Harea; auto.
  - destruct (class_ap_smootharea f c ps rs Hps Hrs Hlen) as (ap & Hap & Eap).
    exists ap. split; [exact Hap|]. rewrite Eap.
    apply Harea; [apply smooth_length|].
    intros q Hq. eapply smooth_in_unit; eassumption.
Qed.

(** Every row of a table lies in the range of the class averages. *)
Lemma table_rows_bound (f : PR_func) (mode : map_mode) (B : Q)
    (table : list (string * Q)) (i : nat) (name : string) (ap : Q) :
  (forall c, (c < class_num f)%nat ->
     exists v, class_ap f mode c = inr v /\ 0 <= v /\ v <= B) ->
  get_map f mode = inr table ->
  table !! i = Some (name, ap) ->
  0 <= ap /\ ap <= B.
Proof.
  intros Hap Hmap Hrow.
  destruct (Nat.eq_dec (class_num f) 0%nat) as [E0|Hne].
  { rewrite get_map_no_class in Hmap by exact E0. discriminate. }
  set (h := fun c => match class_ap f mode c with
                     | inr v => v
                     | inl _ => 0
                     end).
  assert (Hh : forall c, (c < class_num f)%nat ->
            class_ap f mode c = inr (h c) /\ 0 <= h c /\ h c <= B).
  { intros c Hc. destruct (Hap c Hc) as (v & Hv & Hb).
    unfold h. rewrite Hv. auto. }
  rewrite (get_map_table f mode h ltac:(lia)
             ltac:(intros c Hc; apply Hh, Hc)) in Hmap.
  injection Hmap as <-.
  apply lookup_zip_with_Some in Hrow.
  destruct Hrow as (x & y & [= <- <-] & _ & Hy).
  assert (Hall : forall v, In v (map h (seq 0 (class_num f))) ->
            0 <= v /\ v <= B).
  { intros v Hv. apply in_map_iff in Hv. destruct Hv as (c & <- & Hc).
    apply in_seq in Hc. apply Hh. lia. }
  apply lookup_app_Some in Hy. destruct Hy as [Hy|[_ Hy]].
  - apply Hall. eapply lookup_In. exact Hy.
  - destruct (i - length (map h (seq 0 (class_num f))))%nat; [|discriminate].
    injection Hy as <-. apply mean_bounds; [|exact Hall].
    intros E. apply (f_equal length) in E.
    rewrite length_map, length_seq in E. simpl in E. lia.
Qed.

(** X19: in the modes "voc2007" and "voc2012" no average precision, and so
    no mAP, of a constructed object exceeds 10/11, respectively 6/7: the
    last recall point of either list is 1, where every call returns 0. *)
Theorem voc_ap_capped (cal_iou : xywhcp -> xywhcp -> Q)
    (names : list string) (thr : Q) (max_per_img : option Z)
    (imgs : list image) (f : PR_func) (mode : map_mode)
    (table : list (string * Q)) (i : nat) (name : string) (ap : Q) :
  PR_func_init cal_iou names thr max_per_img imgs = inr f ->
  mode = voc2007 \/ mode = voc2012 ->
  get_map f mode = inr table ->
  table !! i = Some (name, ap) ->
  0 <= ap /\ ap <= voc_cap mode.
Proof.
  intros Hinit Hmode Hmap Hrow.
  apply (table_rows_bound f mode (voc_cap mode) table i name ap);
    try assumption.
  intros c Hc. eapply voc_class_ap; eassumption.
Qed.

Lemma voc_ap_capped_witness : 0 <= 10 # 11 /\ 10 # 11 <= voc_cap voc2007.
Proof.
  apply (voc_ap_capped iou_xywh ["person"%string] (1 # 2) None [img_two_preds]
           (mk_PR_func 1 ["person"%string] [[1; 1; 0]] [[1; 1; 1]]) voc2007
           [("person"%string, 10 # 11); ("mAP"%string, 10 # 11)]
           0 "person"%string (10 # 11)).
  - reflexivity.
  - left. reflexivity.
  - reflexivity.
  - reflexivity.
Defined.

(** X20: in every mode, every average precision and the mAP that [get_map]
    reports for a constructed object lie between 0 and 1. *)
Theorem get_map_in_unit (cal_iou : xywhcp -> xywhcp -> Q)
    (names : list string) (thr : Q) (max_per_img : option Z)
    (imgs : list image) (f : PR_func) (mode : map_mode)
    (table : list (string * Q)) (i : nat) (name : string) (ap : Q) :
  PR_func_init cal_iou names thr max_per_img imgs = inr f ->
  get_map f mode = inr table ->
  table !! i = Some (name, ap) ->
  0 <= ap /\ ap <= 1.
Proof.
  intros Hinit Hmap Hrow.
  apply (table_rows_bound f mode 1 table i name ap); try assumption.
  intros c Hc. eapply class_ap_in_unit; eassumption.
Qed.

Lemma get_map_in_unit_witness : 0 <= 0 # 4 /\ 0 # 4 <= 1.
Proof.
  apply (get_map_in_unit iou_xywh ["person"%string] (1 # 2) None
           [img_two_preds]
           (mk_PR_func 1 ["person"%string] [[1; 1; 0]] [[1; 1; 1]]) area
           [("person"%string, 0 # 4); ("mAP"%string, 0 # 4)]
           1 "mAP"%string (0 # 4)); reflexivity.
Defined.


Lemma sum_fold_mono (h h' : nat -> Q) (l : list nat) :
  (forall c, In c l -> h c <= h' c) ->
  forall a a', a <= a' ->
  fold_left Qplus (map h l) a <= fold_left Qplus (map h' l) a'.
Proof.
  induction l as [|c l IH]; intros Hall a a' Ha; simpl; [exact Ha|].
  apply IH; [intros d Hd; apply Hall; now right|].
  specialize (Hall c ltac:(now left)). lra.
Qed.

Lemma Qdiv_le_compat_pos (x y d : Q) : 0 < d -> x <= y -> x / d <= y / d.
Proof.
  intros Hd Hxy. unfold Qdiv. apply Qmult_le_compat_r; [exact Hxy|].
  apply Qinv_le_0_compat, Qlt_le_weak, Hd.
Qed.

(** Two tables of one object compare row by row as the class averages
    do. *)
Lemma table_rows_le (f : PR_func) (mode mode' : map_mode)
    (table table' : list (string * Q)) (i : nat) (name name' : string)
    (ap ap' : Q) :
  (forall c, (c < class_num f)%nat ->
     exists v v', class_ap f mode c = inr v /\ class_ap f mode' c = inr v'
                  /\ v <= v') ->
  get_map f mode = inr table ->
  get_map f mode' = inr table' ->
  table !! i = Some (name, ap) ->
  table' !! i = Some (name', ap') ->
  ap <= ap'.
Proof.
  intros Hap Hmap Hmap' Hrow Hrow'.
  destruct (Nat.eq_dec (class_num f) 0%nat) as [E0|Hne].
  { rewrite get_map_no_class in Hmap by exact E0. discriminate. }
  set (h := fun c => match class_ap f mode c with
                     | inr v => v
                     | inl _ => 0
                     end).
  set (h' := fun c => match class_ap f mode' c with
                      | inr v => v
                      | inl _ => 0
                      end).
  assert (Hh : forall c, (c < class_num f)%nat ->
            class_ap f mode c = inr (h c) /\ class_ap f mode' c = inr (h' c)
            /\ h c <= h' c).
  { intros c Hc. destruct (Hap c Hc) as (v & v' & Hv & Hv' & Hle).
    unfold h, h'. rewrite Hv, Hv'. auto. }
  rewrite (get_map_table f mode h ltac:(lia)
             ltac:(intros c Hc; apply Hh, Hc)) in Hmap.
  rewrite (get_map_table f mode' h' ltac:(lia)
             ltac:(intros c Hc; apply Hh, Hc)) in Hmap'.
  injection Hmap as <-. injection Hmap' as <-.
  apply lookup_zip_with_Some in Hrow, Hrow'.
  destruct Hrow as (x & y & [= <- <-] & _ & Hy).
  destruct Hrow' as (x' & y' & [= <- <-] & _ & Hy').
  apply lookup_app_Some in Hy, Hy'.
  rewrite !length_map, !length_seq in *.
  destruct Hy as [Hy|[Hge Hy]], Hy' as [Hy'|[Hge' Hy']].
  - pose proof (lookup_lt_Some _ _ _ Hy) as Hi.
    rewrite length_map, length_seq in Hi.
    rewrite lookup_map_seq in Hy, Hy' by exact Hi.
    injection Hy as <-. injection Hy' as <-. apply Hh. exact Hi.
  - apply lookup_lt_Some in Hy. rewrite length_map, length_seq in Hy. lia.
  - apply lookup_lt_Some in Hy'. rewrite length_map, length_seq in Hy'. lia.
  - destruct (i - class_num f)%nat; [|discriminate].
    injection Hy as <-. injection Hy' as <-.
    apply Qdiv_le_compat_pos.
    + change 0 with (inject_Z 0). rewrite <- Zlt_Qlt. lia.
    + unfold sumQ. apply sum_fold_mono; [|apply Qle_refl].
      intros c Hc. apply in_seq in Hc. apply Hh. lia.
Qed.

(** X22: on a constructed object the mode "smootharea" never reports less
    than the mode "area": row by row, mAP included, the smoothed average is
    at least the raw one. *)
Theorem smootharea_dominates_area (cal_iou : xywhcp -> xywhcp -> Q)
    (names : list string) (thr : Q) (max_per_img : option Z)
    (imgs : list image) (f : PR_func)
    (table table' : list (string * Q)) (i : nat) (name name' : string)
    (ap ap' : Q) :
  PR_func_init cal_iou names thr max_per_img imgs = inr f ->
  get_map f area = inr table ->
  get_map f smootharea = inr table' ->
  table !! i = Some (name, ap) ->
  table' !! i = Some (name', ap') ->
  ap <= ap'.
Proof.
  intros Hinit Hmap Hmap' Hrow Hrow'.
  apply (table_rows_le f area smootharea table table' i name name' ap ap');
    try assumption.
  intros c Hc.
  destruct (init_class_area _ _ _ _ _ _ c Hinit Hc)
    as (ps & rs & Hps & Hrs & Hlen & Hmono & _ & _).
  destruct (class_ap_area f c ps rs Hps Hrs Hlen) as (v & Hv & Ev).
  destruct (class_ap_smootharea f c ps rs Hps Hrs Hlen) as (v' & Hv' & Ev').
  exists v, v'. split; [exact Hv|]. split; [exact Hv'|].
  rewrite Ev, Ev'. apply trapezoid_mono; [exact Hmono|].
  rewrite smooth_running_max. apply running_max_pointwise.
Qed.

Lemma smootharea_dominates_area_witness : 0 # 4 <= 0 # 4.
Proof.
  apply (smootharea_dominates_area iou_xywh ["person"%string] (1 # 2) None
           [img_two_preds]
           (mk_PR_func 1 ["person"%string] [[1; 1; 0]] [[1; 1; 1]])
           [("person"%string, 0 # 4); ("mAP"%string, 0 # 4)]
           [("person"%string, 0 # 4); ("mAP"%string, 0 # 4)]
           0 "person"%string "person"%string (0 # 4) (0 # 4));
    reflexivity.
Defined.


